(** * google-contact-sync: a shallow embedding of the reconciliation engine

    The development follows the TypeScript sources:
    - [utils.ts]    ([duplicates], [removePrefix], [withBackoff], [withTimeout]),
    - [contacts.ts] (class [Contacts]: the per-account cache [info] / [infoGroup],
                     its lookups and the remote calls it wraps),
    - [config.ts]   ([getLastRunIso], [getAccounts], [saveConfigLastRun], and
                     the loader [loadConfigOrCreateDefault] with the migration
                     of the legacy file),
    - [sync.ts]     ([newTag], [safeDate], [runSync]: [runSync] is the run
                     from the loaded configuration on, [runSync_from_disk]
                     the run from the files on).

    Values that the program handles as untyped JSON (People API bodies, thrown
    errors, the parsed configuration) are modelled by the type [Json]; the
    remote service, the clock and the random generator are an oracle [Env]
    over an abstract [World].  Asynchronous code is sequential here: every
    [await] in the sources waits for the promise it has just created, so a
    run is one thread of control. *)

From Stdlib Require Import List String Ascii ZArith Lia Bool Arith PeanoNat.
Import ListNotations.
Local Open Scope string_scope.
Local Open Scope list_scope.

Set Warnings "-register-all".

(* ================================================================== *)
(** ** JavaScript values *)
(* ================================================================== *)

(** JSON-like values.  Numbers are integers: the program only meets status
    codes, day counts and millisecond timestamps. *)
Inductive Json : Type :=
| JUndef
| JNull
| JBool (b : bool)
| JNum (n : Z)
| JStr (s : string)
| JArr (xs : list Json)
| JObj (kvs : list (string * Json)).

(** [Boolean(v)] *)
Definition truthy (v : Json) : bool :=
  match v with
  | JUndef | JNull => false
  | JBool b => b
  | JNum n => negb (n =? 0)%Z
  | JStr s => negb (s =? "")
  | JArr _ | JObj _ => true
  end.

(** [v === undefined || v === null] *)
Definition nullish (v : Json) : bool :=
  match v with JUndef | JNull => true | _ => false end.

(** [a ?? b] *)
Definition coalesce (a b : Json) : Json := if nullish a then b else a.

(** Own-property lookup in the entries of an object. *)
Fixpoint assoc {A : Type} (k : string) (kvs : list (string * A)) : option A :=
  match kvs with
  | [] => None
  | (k', v) :: rest => if k' =? k then Some v else assoc k rest
  end.

(** [o[k] = v]: an existing key keeps its place, a new key goes last.
    (Keys are resource names, tags and field names, never canonical array
    indices, so the entries stay in insertion order.) *)
Fixpoint obj_set {A : Type} (k : string) (v : A) (kvs : list (string * A))
  : list (string * A) :=
  match kvs with
  | [] => [(k, v)]
  | (k', v') :: rest =>
      if k' =? k then (k, v) :: rest else (k', v') :: obj_set k v rest
  end.

(** [delete o[k]] *)
Definition obj_delete {A : Type} (k : string) (kvs : list (string * A))
  : list (string * A) :=
  filter (fun kv => negb (fst kv =? k)) kvs.

(** [v?.k] *)
Definition prop (k : string) (v : Json) : Json :=
  match v with
  | JObj kvs => match assoc k kvs with Some x => x | None => JUndef end
  | _ => JUndef
  end.

(** [v?.[i]] *)
Definition idx (i : nat) (v : Json) : Json :=
  match v with
  | JArr xs => nth i xs JUndef
  | _ => JUndef
  end.

(** The elements of an array-typed field; [v ?? []] is [items (coalesce v (JArr []))]. *)
Definition items (v : Json) : list Json :=
  match v with JArr xs => xs | _ => [] end.

(** [Object.entries(v ?? {})] *)
Definition entries (v : Json) : list (string * Json) :=
  match v with JObj kvs => kvs | _ => [] end.

(** [typeof v === "string"] *)
Definition is_string (v : Json) : bool :=
  match v with JStr _ => true | _ => false end.

(** [typeof v === "number"] *)
Definition is_number (v : Json) : bool :=
  match v with JNum _ => true | _ => false end.

(** [v === s] for a string literal or string variable [s]. *)
Definition str_eq (v : Json) (s : string) : bool :=
  match v with JStr s' => s' =? s | _ => false end.

(** [v === n] for a number literal [n]. *)
Definition num_eq (v : Json) (n : Z) : bool :=
  match v with JNum n' => (n' =? n)%Z | _ => false end.

(** The strings among a list of values: [.filter((v) => typeof v === "string")]. *)
Fixpoint strings (vs : list Json) : list string :=
  match vs with
  | [] => []
  | JStr s :: rest => s :: strings rest
  | _ :: rest => strings rest
  end.

(** A field that the People API schema types [string | null | undefined]:
    [Some s] when the field holds the string [s].  A value of another type
    is outside the schema and reads as absent. *)
Definition str_field (k : string) (v : Json) : option string :=
  match prop k v with JStr s => Some s | _ => None end.

(** [!!t] for [t : string | null | undefined]. *)
Definition truthy_str (t : option string) : bool :=
  match t with Some s => negb (s =? "") | None => false end.

(** [new Error(message)] *)
Definition new_Error (message : string) : Json := JObj [("message", JStr message)].

(** *** Strings *)

(** [text.includes(needle)] *)
Fixpoint includes (needle text : string) : bool :=
  if prefix needle text then true
  else match text with
       | EmptyString => false
       | String _ rest => includes needle rest
       end.

(** [xs.join(sep)] *)
Fixpoint join (sep : string) (xs : list string) : string :=
  match xs with
  | [] => ""
  | [x] => x
  | x :: rest => x ++ sep ++ join sep rest
  end.

Definition digit_char (n : nat) : ascii := ascii_of_nat (48 + n mod 10).

Fixpoint pos_digits (fuel : nat) (n : N) (acc : string) : string :=
  match fuel with
  | O => acc
  | S f =>
      let acc' := String (digit_char (N.to_nat (n mod 10))) acc in
      if (n / 10 =? 0)%N then acc' else pos_digits f (n / 10)%N acc'
  end.

(** [String(n)] for an integer [n]. *)
Definition string_of_Z (n : Z) : string :=
  let m := Z.to_N (Z.abs n) in
  let d := pos_digits (S (N.to_nat (N.log2 m))) m "" in
  if (n <? 0)%Z then String "-" d else d.

(** [String(v)] *)
Fixpoint js_String (v : Json) : string :=
  match v with
  | JUndef => "undefined"
  | JNull => "null"
  | JBool true => "true"
  | JBool false => "false"
  | JNum n => string_of_Z n
  | JStr s => s
  | JArr xs =>
      join "," (map (fun x => if nullish x then "" else js_String x) xs)
  | JObj _ => "[object Object]"
  end.

(** *** [Set<string>]: insertion-ordered, without repetition *)

Definition set_has (s : list string) (x : string) : bool :=
  existsb (String.eqb x) s.

Definition set_add (s : list string) (x : string) : list string :=
  if set_has s x then s else s ++ [x].

(** [new Set(xs)] *)
Definition set_of (xs : list string) : list string := fold_left set_add xs [].

(* ================================================================== *)
(** ** utils.ts: the pure helpers *)
(* ================================================================== *)

Fixpoint duplicates_loop (items seen dups : list string) : list string :=
  match items with
  | [] => dups
  | item :: rest =>
      if set_has seen item
      then duplicates_loop rest seen (set_add dups item)
      else duplicates_loop rest (set_add seen item) dups
  end.

(** [duplicates(items)]: the items met a second time. *)
Definition duplicates (items : list string) : list string :=
  duplicates_loop items [] [].

(** [removePrefix(text, prefix)] *)
Definition removePrefix (text pre : string) : string :=
  if prefix pre text
  then substring (String.length pre) (String.length text - String.length pre) text
  else text.

(** The classification inside [withBackoff]'s [catch]:
    [code = err?.code ?? err?.response?.status] and
    [code === 429 || code === 409 || (typeof code === "number" && 500 <= code <= 599)]. *)
Definition error_code (err : Json) : Json :=
  coalesce (prop "code" err) (prop "status" (prop "response" err)).

Definition retryable (err : Json) : bool :=
  let code := error_code err in
  num_eq code 429 || num_eq code 409 ||
  match code with
  | JNum n => (500 <=? n)%Z && (n <=? 599)%Z
  | _ => false
  end.

(** [delayMs = Math.min(delayMs * 2, 30_000)] *)
Definition next_delay (delayMs : Z) : Z := Z.min (delayMs * 2) 30000.

(** The delay slept before retry number [k] (counting from 0). *)
Fixpoint backoff_delay (k : nat) : Z :=
  match k with
  | O => 500
  | S k' => next_delay (backoff_delay k')
  end.

(* ================================================================== *)
(** ** contacts.ts: the cached store of one account *)
(* ================================================================== *)

Definition SYNC_TAG : string := "csync-uid".

Definition allPersonFields : list string :=
  [ "addresses"; "ageRanges"; "biographies"; "birthdays"; "calendarUrls";
    "clientData"; "coverPhotos"; "emailAddresses"; "events"; "externalIds";
    "genders"; "imClients"; "interests"; "locales"; "locations";
    "memberships"; "metadata"; "miscKeywords"; "names"; "nicknames";
    "occupations"; "organizations"; "phoneNumbers"; "photos"; "relations";
    "sipAddresses"; "skills"; "urls"; "userDefined" ].

Definition allUpdatePersonFields : list string :=
  [ "addresses"; "biographies"; "birthdays"; "clientData"; "emailAddresses";
    "events"; "externalIds"; "genders"; "imClients"; "interests"; "locales";
    "locations"; "memberships"; "names"; "nicknames"; "occupations";
    "organizations"; "phoneNumbers"; "relations"; "sipAddresses"; "urls";
    "userDefined" ].

(** A JavaScript [Date]: its time value in milliseconds, [None] for an
    invalid date (time value NaN). *)
Definition Date : Type := option Z.

(** [a > b] and [a >= b] on dates: comparisons with NaN are false. *)
Definition date_gt (a b : Date) : bool :=
  match a, b with Some x, Some y => (y <? x)%Z | _, _ => false end.

Definition date_ge (a b : Date) : bool :=
  match a, b with Some x, Some y => (y <=? x)%Z | _, _ => false end.

(** [type ContactInfo = { etag; tag; updated; name }] *)
Record ContactInfo : Type := mkInfo {
  etag : string;
  tag : option string;
  updated : Date;
  name : string;
}.

(** [Record<string, ContactInfo>], keyed by resource name. *)
Definition Info : Type := list (string * ContactInfo).

(** What a synchronous function gives back: a value or a thrown error. *)
Inductive Result (A : Type) : Type :=
| Return (a : A)
| Raise (e : Json).
Arguments Return {A} a.
Arguments Raise {A} e.

(** [v.tag === t] on an entry of the cache. *)
Definition carries (t : string) (kv : string * ContactInfo) : bool :=
  match tag (snd kv) with
  | Some t' => t' =? t
  | None => false
  end.

(** The resource names whose cached entry carries [t]:
    [Object.entries(info).filter(([, v]) => v.tag === tag).map(([k]) => k)]. *)
Definition rns_with_tag (i : Info) (t : string) : list string :=
  map fst (filter (carries t) i).

(** [tagToRn(tag)] *)
Definition tagToRn (i : Info) (t : string) : Result (option string) :=
  match rns_with_tag i t with
  | [] => Return None
  | [rn] => Return (Some rn)
  | rn => Raise (new_Error ("Expected exactly one rn for tag " ++ t ++ ", got "
                            ++ string_of_Z (Z.of_nat (List.length rn))))
  end.

(** [tagToRnContactGroup(tag)], the same lookup in [infoGroup]. *)
Definition tagToRnContactGroup (g : Info) (t : string) : Result (option string) :=
  match rns_with_tag g t with
  | [] => Return None
  | [rn] => Return (Some rn)
  | rn => Raise (new_Error ("Expected exactly one group rn for tag " ++ t ++ ", got "
                            ++ string_of_Z (Z.of_nat (List.length rn))))
  end.

(** The resource names whose cached entry has the name [n], compared in
    lower case; [lower] is the runtime's [String.prototype.toLowerCase]. *)
Definition rns_with_name (lower : string -> string) (i : Info) (n : string) : list string :=
  map fst (filter (fun kv => lower (name (snd kv)) =? lower n) i).

(** [nameToRn(name)] *)
Definition nameToRn (lower : string -> string) (i : Info) (n : string)
  : Result (option string) :=
  match rns_with_name lower i n with
  | [] => Return None
  | [rn] => Return (Some rn)
  | rn => Raise (new_Error ("Expected exactly one rn for name " ++ n ++ ", got "
                            ++ string_of_Z (Z.of_nat (List.length rn))))
  end.

(** [rnToTagContactGroup(rn)]: [this.infoGroup[rn]?.tag ?? null]. *)
Definition rnToTagContactGroup (g : Info) (rn : string) : option string :=
  match assoc rn g with
  | Some v => tag v
  | None => None
  end.

(** The sync tags stored in an entity's [clientData]:
    [(e.clientData ?? []).filter((kv) => kv?.key === SYNC_TAG)
       .map((kv) => kv?.value).filter((v) => typeof v === "string")]. *)
Definition tagls (e : Json) : list string :=
  strings (map (prop "value")
               (filter (fun kv => str_eq (prop "key" kv) SYNC_TAG)
                       (items (coalesce (prop "clientData" e) (JArr []))))).

(** [updateTime ? new Date(updateTime) : new Date(0)], [parse] being the
    runtime's date parser. *)
Definition updated_of (parse : string -> option Z) (updateTime : Json) : Date :=
  if truthy updateTime
  then match updateTime with JStr s => parse s | _ => None end
  else Some 0%Z.

(** [p.names?.[0]?.displayName ?? p.organizations?.[0]?.name] *)
Definition display_name (p : Json) : Json :=
  coalesce (prop "displayName" (idx 0 (prop "names" p)))
           (prop "name" (idx 0 (prop "organizations" p))).

(** One turn of the contact loop of [getInfo]: the entry stored for the
    listed person [p], or [None] when the loop [continue]s. *)
Definition contact_entry (parse : string -> option Z) (p : Json)
  : option (string * ContactInfo) :=
  if negb (truthy (prop "names" p)) && negb (truthy (prop "organizations" p))
  then None
  else
    match display_name p with
    | JStr nm =>
        if nm =? "" then None
        else
          let updateTime :=
            prop "updateTime" (idx 0 (prop "sources" (prop "metadata" p))) in
          match str_field "resourceName" p, str_field "etag" p with
          | Some rn, Some et =>
              if (rn =? "") || (et =? "") then None
              else Some (rn, {| etag := et;
                                tag := hd_error (tagls p);
                                updated := updated_of parse updateTime;
                                name := nm |})
          | _, _ => None
          end
    | _ => None
    end.

(** One turn of the group loop of [getInfo]. *)
Definition group_entry (parse : string -> option Z) (g : Json)
  : option (string * ContactInfo) :=
  if negb (str_eq (prop "groupType" g) "USER_CONTACT_GROUP") then None
  else
    match str_field "resourceName" g, str_field "etag" g, str_field "name" g with
    | Some rn, Some et, Some nm =>
        if (rn =? "") || (et =? "") || (nm =? "") then None
        else Some (rn, {| etag := et;
                          tag := hd_error (tagls g);
                          updated := updated_of parse (prop "updateTime" (prop "metadata" g));
                          name := nm |})
    | _, _, _ => None
    end.

(** The loop [for (const x of listing) { ...; store[rn] = entry }]. *)
Definition build_info (entry : Json -> option (string * ContactInfo))
           (listing : list Json) : Info :=
  fold_left (fun acc x => match entry x with
                          | Some (rn, ci) => obj_set rn ci acc
                          | None => acc
                          end) listing [].

(** *** [Contacts.stripPersonForUpdate] *)

Definition strip_bad : list string :=
  ["metadata"; "coverPhotos"; "photos"; "resourceName"; "etag"].

Definition strip_toKeep : list string :=
  filter (fun f => negb (set_has strip_bad f)) allPersonFields.

(** [delete item.metadata] when [item && typeof item === "object"]. *)
Definition drop_metadata (v : Json) : Json :=
  match v with
  | JObj kvs => JObj (obj_delete "metadata" kvs)
  | _ => v
  end.

Definition strip_field (v : Json) : Json :=
  match v with
  | JArr xs => JArr (map drop_metadata xs)
  | _ => drop_metadata v
  end.

(** [if (Array.isArray(ret.k) && ret.k.length > 0) ret.k = [ret.k[0]]] *)
Definition keep_first (k : string) (kvs : list (string * Json)) : list (string * Json) :=
  match assoc k kvs with
  | Some (JArr (x :: _)) => obj_set k (JArr [x]) kvs
  | _ => kvs
  end.

Definition stripPersonForUpdate (body : Json) : Json :=
  let ret := filter (fun kv => set_has strip_toKeep (fst kv)) (entries body) in
  let ret := map (fun kv => (fst kv, strip_field (snd kv))) ret in
  JObj (keep_first "birthdays" (keep_first "genders" (keep_first "names" ret))).

(* ================================================================== *)
(** ** sync.ts: membership translation *)
(* ================================================================== *)

Definition MY_CONTACTS : string := "contactGroups/myContacts".

(** [grp?.contactGroupMembership?.contactGroupResourceName] *)
Definition membership_rn (grp : Json) : Json :=
  prop "contactGroupResourceName" (prop "contactGroupMembership" grp).

(** [contact.memberships ?? []] *)
Definition memberships (contact : Json) : list Json :=
  items (coalesce (prop "memberships" contact) (JArr [])).

(** [groupRns]: the group references of a contact, the default group left out. *)
Definition groupRns_of (contact : Json) : list string :=
  filter (fun g => negb (g =? MY_CONTACTS)) (strings (map membership_rn (memberships contact))).

(** [groupTags = groupRns.map((rn) => src.rnToTagContactGroup(rn))] *)
Definition groupTags_of (srcGroups : Info) (contact : Json) : list (option string) :=
  map (rnToTagContactGroup srcGroups) (groupRns_of contact).

(** [o.k = v] on a JSON object. *)
Definition set_prop (k : string) (v : Json) (o : Json) : Json :=
  match o with
  | JObj kvs => JObj (obj_set k v kvs)
  | _ => o
  end.

(** [contact.memberships = (contact.memberships ?? []).filter(
       (grp) => grp?...contactGroupResourceName === "contactGroups/myContacts")] *)
Definition keep_myContacts (contact : Json) : Json :=
  set_prop "memberships"
           (JArr (filter (fun grp => str_eq (membership_rn grp) MY_CONTACTS)
                         (memberships contact)))
           contact.

(** The membership pushed for the destination group [rnOther]. *)
Definition membership_to (rnOther : string) : Json :=
  JObj [("contactGroupMembership",
         JObj [("contactGroupId", JStr (removePrefix rnOther "contactGroups/"));
               ("contactGroupResourceName", JStr rnOther)])].

(** [copy.memberships = copy.memberships ?? []; copy.memberships.push(m)] *)
Definition push_membership (m : Json) (copy : Json) : Json :=
  set_prop "memberships" (JArr (memberships copy ++ [m])) copy.

(** The loop [for (const groupTag of groupTags) { ... }] over the copy;
    [dstGroups] is the destination's [infoGroup]. *)
Fixpoint push_memberships (dstGroups : Info) (groupTags : list (option string))
         (copy : Json) : Result Json :=
  match groupTags with
  | [] => Return copy
  | None :: rest => push_memberships dstGroups rest copy
  | Some groupTag :: rest =>
      if groupTag =? "" then push_memberships dstGroups rest copy
      else
        match tagToRnContactGroup dstGroups groupTag with
        | Raise e => Raise e
        | Return None => push_memberships dstGroups rest copy
        | Return (Some rnOther) =>
            if rnOther =? "" then push_memberships dstGroups rest copy
            else push_memberships dstGroups rest
                                  (push_membership (membership_to rnOther) copy)
        end
  end.

(** The body sent to one destination.  [contact] already went through
    [keep_myContacts]; the copy is [structuredClone(contact)]. *)
Definition body_for (dstGroups : Info) (groupTags : list (option string))
           (contact : Json) : Result Json :=
  if (0 <? List.length (filter truthy_str groupTags))%nat
  then push_memberships dstGroups groupTags contact
  else Return contact.

(* ================================================================== *)
(** ** The outside world *)
(* ================================================================== *)

(** The requests the program sends for one account: the People API methods
    with the parameters the program passes, and the OAuth hand-shake of
    [getAuthClient]. *)
Inductive Request : Type :=
| GetAuthClient (keyfile credfile : string)
| ConnectionsList (pageToken : option string) (personFields : string)
| PeopleGet (resourceName personFields : string)
| UpdateContact (resourceName updatePersonFields : string) (requestBody : Json)
| CreateContact (requestBody : Json)
| DeleteContact (resourceName : string)
| GroupsList (pageToken : option string) (groupFields : string)
| GroupsGet (resourceName groupFields : string)
| GroupsCreate (requestBody : Json)
| GroupsUpdate (resourceName : string) (requestBody : Json)
| GroupsDelete (resourceName : string).

(** How the promise of a request settles: with [res.data], with an error,
    or not at all. *)
Inductive Settled : Type :=
| Resolved (data : Json)
| Rejected (err : Json)
| Pending.

(** What a run does that can be seen from outside the process. *)
Inductive Event : Type :=
| ECall (user : string) (req : Request)
| ESleep (ms : Z)
| ERotateBackups (backupDays : Z)
| EWriteBackup (snapshot : Json)
| EWriteConfig (data : Json).

(** The environment of a run: the remote service with its accounts, the
    clock, the random generator and the runtime's parsers and string
    functions ([toLowerCase] is [String.prototype.toLowerCase], which
    folds every cased letter). *)
Record Env : Type := mkEnv {
  World : Type;
  api : string -> Request -> World -> Settled * World;
  Date_now : World -> Z * World;
  randomByte : World -> Byte.byte * World;
  Date_parse : string -> option Z;
  toISOString : Z -> string;
  Number_parse : string -> option Z;
  toLowerCase : string -> string;
}.

(** A remote write, as the bootstrap guard understands it: a tag
    assignment, a content update, a creation or a deletion. *)
Definition is_write (r : Request) : bool :=
  match r with
  | UpdateContact _ _ _ | CreateContact _ | DeleteContact _
  | GroupsCreate _ | GroupsUpdate _ _ | GroupsDelete _ => true
  | _ => false
  end.

Definition is_remote_write (e : Event) : bool :=
  match e with ECall _ r => is_write r | _ => false end.

Definition is_config_write (e : Event) : bool :=
  match e with EWriteConfig _ => true | _ => false end.

(** An instance of class [Contacts]: the account's identity and its two
    caches.  (The OAuth client, the timeout and the logger are not state
    the algorithm reads.) *)
Record Contacts : Type := mkContacts {
  user : string;
  keyfile : string;
  credfile : string;
  info : Info;
  infoGroup : Info;
}.

(** [SyncOptions]: the two options that steer the algorithm. *)
Record SyncOptions : Type := mkOpts {
  init : bool;
  rlimSeconds : option Z;
}.

(** How a computation ends: with a value, with a thrown error, with
    [process.exit(code)], or not at all. *)
Inductive Outcome (A : Type) : Type :=
| Ok (a : A)
| Throw (e : Json)
| Exit (code : Z)
| Diverge.
Arguments Ok {A} a.
Arguments Throw {A} e.
Arguments Exit {A} code.
Arguments Diverge {A}.

Section Engine.

Variable E : Env.

(** The bound on the turns of each unbounded loop of the sources
    ([withBackoff], the pagination loops, [newTag],
    [getContactGroupWaitSyncTag]); a loop that uses it up is [Diverge]. *)
Variable fuel : nat.

(** The state of a run. *)
Record St : Type := mkSt {
  world : World E;
  con : list (string * Contacts);   (* [con : Map<string, Contacts>] *)
  usedTags : list string;           (* [usedTags : Set<string>] *)
  cfg_data : Json;                  (* [cfg.data], in memory *)
  config_file : Json;               (* the content of the configuration file *)
  events : list Event;
}.

Definition M (A : Type) : Type := St -> Outcome A * St.

Definition ret {A : Type} (a : A) : M A := fun s => (Ok a, s).

Definition bind {A B : Type} (m : M A) (k : A -> M B) : M B :=
  fun s =>
    match m s with
    | (Ok a, s') => k a s'
    | (Throw e, s') => (Throw e, s')
    | (Exit c, s') => (Exit c, s')
    | (Diverge, s') => (Diverge, s')
    end.

Notation "x <- m ;; k" := (bind m (fun x => k))
  (at level 61, m at next level, right associativity).
Notation "m ;;; k" := (bind m (fun _ => k))
  (at level 61, right associativity).

Definition throw {A : Type} (e : Json) : M A := fun s => (Throw e, s).
Definition process_exit {A : Type} (code : Z) : M A := fun s => (Exit code, s).
Definition diverge {A : Type} : M A := fun s => (Diverge, s).

(** [try { m } catch (e) { h e }] *)
Definition try_catch {A : Type} (m : M A) (h : Json -> M A) : M A :=
  fun s =>
    match m s with
    | (Throw e, s') => h e s'
    | other => other
    end.

Definition lift {A : Type} (r : Result A) : M A :=
  match r with
  | Return a => ret a
  | Raise e => throw e
  end.

Fixpoint for_each {X : Type} (xs : list X) (body : X -> M unit) : M unit :=
  match xs with
  | [] => ret tt
  | x :: rest => body x ;;; for_each rest body
  end.

Fixpoint foldM {X B : Type} (xs : list X) (b : B) (body : B -> X -> M B) : M B :=
  match xs with
  | [] => ret b
  | x :: rest => b' <- body b x ;; foldM rest b' body
  end.

Definition emit (ev : Event) : M unit :=
  fun s => (Ok tt, mkSt (world s) (con s) (usedTags s) (cfg_data s)
                        (config_file s) (events s ++ [ev])).

(** Sending a request: the promise of its result. *)
Definition call (u : string) (req : Request) : M Settled :=
  fun s =>
    let (r, w) := api E u req (world s) in
    (Ok r, mkSt w (con s) (usedTags s) (cfg_data s) (config_file s)
                (events s ++ [ECall u req])).

(** [await promise] *)
Definition await (p : Settled) : M Json :=
  match p with
  | Resolved d => ret d
  | Rejected e => throw e
  | Pending => diverge
  end.

(** [await withTimeout(promise, ms, message)]: a promise that does not
    settle loses the race against the timer. *)
Definition withTimeout (p : Settled) (message : string) : M Json :=
  match p with
  | Resolved d => ret d
  | Rejected e => throw e
  | Pending => throw (new_Error message)
  end.

(** [await sleep(ms)] *)
Definition sleep (ms : Z) : M unit := emit (ESleep ms).

(** [Date.now()] *)
Definition now : M Z :=
  fun s =>
    let (t, w) := Date_now E (world s) in
    (Ok t, mkSt w (con s) (usedTags s) (cfg_data s) (config_file s) (events s)).

Definition random_byte : M Byte.byte :=
  fun s =>
    let (b, w) := randomByte E (world s) in
    (Ok b, mkSt w (con s) (usedTags s) (cfg_data s) (config_file s) (events s)).

(** [crypto.randomBytes(n)] *)
Fixpoint randomBytes (n : nat) : M (list Byte.byte) :=
  match n with
  | O => ret []
  | S n' =>
      b <- random_byte ;;
      bs <- randomBytes n' ;;
      ret (b :: bs)
  end.

(** Reading [cfg.data], [con] and [usedTags]. *)
Definition get_cfg : M Json := fun s => (Ok (cfg_data s), s).
Definition get_con : M (list (string * Contacts)) := fun s => (Ok (con s), s).
Definition get_usedTags : M (list string) := fun s => (Ok (usedTags s), s).

(** [usedTags.add(t)] *)
Definition add_usedTag (t : string) : M unit :=
  fun s => (Ok tt, mkSt (world s) (con s) (set_add (usedTags s) t) (cfg_data s)
                        (config_file s) (events s)).

(** *** utils.ts: [withBackoff] *)

Fixpoint withBackoff_loop {A : Type} (n : nat) (fn : M A) (delayMs : Z) : M A :=
  match n with
  | O => diverge
  | S n' =>
      fun s =>
        match fn s with
        | (Throw err, s') =>
            if retryable err
            then (sleep delayMs ;;; withBackoff_loop n' fn (next_delay delayMs)) s'
            else (Throw err, s')
        | other => other
        end
  end.

Definition withBackoff {A : Type} (fn : M A) : M A := withBackoff_loop fuel fn 500.

(** *** The caches *)

Definition no_account (u : string) : Contacts := mkContacts u "" "" [] [].

Definition lookup_account (u : string) (c : list (string * Contacts)) : Contacts :=
  match assoc u c with Some a => a | None => no_account u end.

(** The [Contacts] object registered for [u]. *)
Definition account (u : string) : M Contacts :=
  c <- get_con ;; ret (lookup_account u c).

Definition set_con (c : list (string * Contacts)) : M unit :=
  fun s => (Ok tt, mkSt (world s) c (usedTags s) (cfg_data s) (config_file s) (events s)).

(** [con.set(u, c)] *)
Definition con_set (u : string) (c : Contacts) : M unit :=
  l <- get_con ;; set_con (obj_set u c l).

(** [acc.info = i] *)
Definition set_info (u : string) (i : Info) : M unit :=
  c <- account u ;;
  con_set u (mkContacts (user c) (keyfile c) (credfile c) i (infoGroup c)).

(** [acc.infoGroup = g] *)
Definition set_infoGroup (u : string) (g : Info) : M unit :=
  c <- account u ;;
  con_set u (mkContacts (user c) (keyfile c) (credfile c) (info c) g).

(** *** contacts.ts: the methods of [Contacts] *)

(** [getAllContacts(fields)]: the pagination loop; [pageToken] starts as [""]. *)
Fixpoint getAllContacts_loop (n : nat) (u : string) (fields : list string)
         (pageToken : string) (out : list Json) : M (list Json) :=
  match n with
  | O => diverge
  | S n' =>
      p <- call u (ConnectionsList (if pageToken =? "" then None else Some pageToken)
                                   (join "," fields)) ;;
      res <- withTimeout p ("Timeout listing contacts for " ++ u) ;;
      let out' := out ++ items (coalesce (prop "connections" res) (JArr [])) in
      match str_field "nextPageToken" res with
      | Some next => getAllContacts_loop n' u fields next out'
      | None => ret out'
      end
  end.

Definition getAllContacts (u : string) (fields : list string) : M (list Json) :=
  getAllContacts_loop fuel u fields "" [].

Definition groupFields : string := "clientData,name,metadata,groupType".
Definition readGroupFields : string := "clientData,groupType,metadata,name".

(** [getContactGroups()] *)
Fixpoint getContactGroups_loop (n : nat) (u : string) (pageToken : string)
         (out : list Json) : M (list Json) :=
  match n with
  | O => diverge
  | S n' =>
      res <- withBackoff
               (p <- call u (GroupsList (if pageToken =? "" then None else Some pageToken)
                                        groupFields) ;;
                withTimeout p ("Timeout listing contact groups for " ++ u)) ;;
      let out' := out ++ items (coalesce (prop "contactGroups" res) (JArr [])) in
      match str_field "nextPageToken" res with
      | Some next => getContactGroups_loop n' u next out'
      | None => ret out'
      end
  end.

Definition getContactGroups (u : string) : M (list Json) :=
  getContactGroups_loop fuel u "" [].

(** [getInfo()]: both caches are rebuilt from a full listing. *)
Definition getInfo (u : string) : M unit :=
  set_info u [] ;;;
  contacts <- getAllContacts u ["names"; "organizations"; "clientData"; "metadata"] ;;
  set_info u (build_info (contact_entry (Date_parse E)) contacts) ;;;
  set_infoGroup u [] ;;;
  groups <- getContactGroups u ;;
  set_infoGroup u (build_info (group_entry (Date_parse E)) groups).

(** [init()]: authentication, then the first listing. *)
Definition Contacts_init (u : string) : M unit :=
  c <- account u ;;
  p <- call u (GetAuthClient (keyfile c) (credfile c)) ;;
  await p ;;;
  getInfo u.

(** [delete(tag)] *)
Definition Contacts_delete (u : string) (t : string) : M unit :=
  c <- account u ;;
  rn <- lift (tagToRn (info c) t) ;;
  match rn with
  | None => ret tt
  | Some rn =>
      if rn =? "" then ret tt
      else
        withBackoff
          (p <- call u (DeleteContact rn) ;;
           withTimeout p ("Timeout deleting contact " ++ rn ++ " for " ++ u) ;;;
           ret tt)
  end.

Definition tag_entry (t : string) : Json :=
  JObj [("key", JStr SYNC_TAG); ("value", JStr t)].

(** [clientData] without its sync tag, then with the tag [t]:
    [wout = (cd ?? []).filter((i) => i?.key !== SYNC_TAG); wout.push({key, value})]. *)
Definition with_tag (cd : Json) (t : string) : Json :=
  JArr (filter (fun i => negb (str_eq (prop "key" i) SYNC_TAG))
               (items (coalesce cd (JArr [])))
        ++ [tag_entry t]).

(** [this.info[rn]?.etag], [None] when it is falsy. *)
Definition cached_etag (i : Info) (rn : string) : option string :=
  match assoc rn i with
  | Some v => if etag v =? "" then None else Some (etag v)
  | None => None
  end.

(** [updateTag(rn, tag)] *)
Definition updateTag (u : string) (rn t : string) : M unit :=
  withBackoff
    (p <- call u (PeopleGet rn "clientData") ;;
     pdata <- withTimeout p ("Timeout reading clientData for " ++ rn ++ " (" ++ u ++ ")") ;;
     let wout := with_tag (prop "clientData" pdata) t in
     c <- account u ;;
     match cached_etag (info c) rn with
     | None => throw (new_Error ("Missing etag for " ++ rn))
     | Some et =>
         p2 <- call u (UpdateContact rn "clientData"
                                     (JObj [("etag", JStr et); ("clientData", wout)])) ;;
         withTimeout p2 ("Timeout updating clientData for " ++ rn ++ " (" ++ u ++ ")") ;;;
         ret tt
     end).

(** [add(body)] *)
Definition Contacts_add (u : string) (body : Json) : M Json :=
  withBackoff
    (p <- call u (CreateContact body) ;;
     withTimeout p ("Timeout creating contact for " ++ u)).

(** [update(tag, body)] *)
Definition Contacts_update (u : string) (t : string) (body : Json) : M unit :=
  c <- account u ;;
  rn <- lift (tagToRn (info c) t) ;;
  match rn with
  | None => ret tt
  | Some rn =>
      if rn =? "" then ret tt
      else
        withBackoff
          (c <- account u ;;
           match cached_etag (info c) rn with
           | None => throw (new_Error ("Missing etag for " ++ rn))
           | Some et =>
               let requestBody := JObj (obj_set "etag" (JStr et) (entries body)) in
               p <- call u (UpdateContact rn (join "," allUpdatePersonFields) requestBody) ;;
               withTimeout p ("Timeout updating contact " ++ rn ++ " for " ++ u) ;;;
               ret tt
           end)
  end.

(** [get(rn)] *)
Definition Contacts_get (u : string) (rn : string) : M Json :=
  res <- withBackoff
           (p <- call u (PeopleGet rn (join "," allPersonFields)) ;;
            withTimeout p ("Timeout getting contact " ++ rn ++ " for " ++ u)) ;;
  ret (stripPersonForUpdate res).

(** [addContactGroup(body)]; this call has no timeout. *)
Definition addContactGroup (u : string) (body : Json) : M Json :=
  withBackoff
    (p <- call u (GroupsCreate (set_prop "readGroupFields" (JStr readGroupFields) body)) ;;
     await p).

(** [getContactGroup(rn)] *)
Definition getContactGroup (u : string) (rn : string) : M Json :=
  withBackoff
    (p <- call u (GroupsGet rn readGroupFields) ;;
     withTimeout p ("Timeout getting contact group " ++ rn ++ " for " ++ u)).

(** [getContactGroupWaitSyncTag(rn)] *)
Fixpoint getContactGroupWaitSyncTag_loop (n : nat) (u rn : string) (delayMs : Z) : M Json :=
  match n with
  | O => diverge
  | S n' =>
      cont <- getContactGroup u rn ;;
      let cd := items (coalesce (prop "clientData" cont) (JArr [])) in
      if existsb (fun i => str_eq (prop "key" i) SYNC_TAG) cd then ret cont
      else sleep delayMs ;;;
           getContactGroupWaitSyncTag_loop n' u rn (next_delay delayMs)
  end.

Definition getContactGroupWaitSyncTag (u rn : string) : M Json :=
  getContactGroupWaitSyncTag_loop fuel u rn 500.

(** The [catch] block of [updateContactGroupTag]: on a 409 that names the
    etag, the cached entry is refreshed before the error is thrown again. *)
Definition refresh_on_conflict (u rn : string) (e : Json) : M unit :=
  let code := error_code e in
  let reason := coalesce (coalesce (prop "reason" (idx 0 (prop "errors" e)))
                                   (prop "message" e)) (JStr "") in
  if num_eq code 409 && includes "etag" (js_String reason) then
    fresh <- getContactGroup u rn ;;
    c <- account u ;;
    let currentTag := rnToTagContactGroup (infoGroup c) rn in
    match str_field "resourceName" fresh, str_field "etag" fresh, str_field "name" fresh with
    | Some frn, Some fet, Some fnm =>
        if (frn =? "") || (fet =? "") || (fnm =? "") then throw e
        else
          set_infoGroup u
            (obj_set frn {| etag := fet;
                            tag := currentTag;
                            updated := updated_of (Date_parse E)
                                                  (prop "updateTime" (prop "metadata" fresh));
                            name := fnm |}
                     (infoGroup c)) ;;;
          throw e
    | _, _, _ => throw e
    end
  else throw e.

(** [updateContactGroupTag(rn, tag)]; these calls have no timeout. *)
Definition updateContactGroupTag (u : string) (rn t : string) : M unit :=
  withBackoff
    (try_catch
       (p <- call u (GroupsGet rn "clientData") ;;
        pdata <- await p ;;
        let wout := with_tag (prop "clientData" pdata) t in
        c <- account u ;;
        match cached_etag (infoGroup c) rn with
        | None => throw (new_Error ("Missing etag for group " ++ rn))
        | Some et =>
            p2 <- call u (GroupsUpdate rn
                     (JObj [("contactGroup", JObj [("etag", JStr et); ("clientData", wout)]);
                            ("updateGroupFields", JStr "clientData");
                            ("readGroupFields", JStr readGroupFields)])) ;;
            await p2 ;;;
            ret tt
        end)
       (refresh_on_conflict u rn)).

(** [updateContactGroup(tag, body)] *)
Definition updateContactGroup (u : string) (t : string) (body : Json) : M unit :=
  c <- account u ;;
  rn <- lift (tagToRnContactGroup (infoGroup c) t) ;;
  match rn with
  | None => ret tt
  | Some rn =>
      if rn =? "" then ret tt
      else
        withBackoff
          (c <- account u ;;
           let et := match assoc rn (infoGroup c) with
                     | Some v => JStr (etag v)
                     | None => JUndef
                     end in
           p <- call u (GroupsUpdate rn
                    (JObj [("contactGroup", JObj [("etag", et); ("name", prop "name" body)]);
                           ("readGroupFields", JStr readGroupFields)])) ;;
           await p ;;;
           ret tt)
  end.

(** [deleteContactGroup(tag)] *)
Definition deleteContactGroup (u : string) (t : string) : M unit :=
  c <- account u ;;
  rn <- lift (tagToRnContactGroup (infoGroup c) t) ;;
  match rn with
  | None => ret tt
  | Some rn =>
      if rn =? "" then ret tt
      else withBackoff (p <- call u (GroupsDelete rn) ;; await p ;;; ret tt)
  end.

(** *** config.ts *)

Definition default_last : string := "1972-01-01T00:00:00+00:00".

(** [getLastRunIso(cfg)] *)
Definition getLastRunIso (data : Json) : string :=
  match prop "last" data with
  | JStr v => if (0 <? String.length v)%nat then v else default_last
  | _ => default_last
  end.

(** [getAccounts(cfg)]: user, keyfile and credfile of each well-formed account. *)
Definition getAccounts (data : Json) : list (string * (string * string)) :=
  flat_map (fun a => match str_field "user" a, str_field "keyfile" a, str_field "credfile" a with
                     | Some u, Some k, Some c => [(u, (k, c))]
                     | _, _, _ => []
                     end)
           (items (coalesce (prop "accounts" data) (JArr []))).

(** [getBackupDays(cfg)] *)
Definition getBackupDays (data : Json) : Z :=
  match prop "backupdays" data with
  | JStr v => match Number_parse E v with Some n => n | None => 0%Z end
  | JNum n => n
  | _ => 0%Z
  end.

(** The data [saveConfigLastRun] writes, [t] being [Date.now()]:
    [last = new Date(t + 5_000).toISOString()], and the two repairs. *)
Definition saved_data (t : Z) (data : Json) : Json :=
  let d1 := set_prop "last" (JStr (toISOString E (t + 5000))) data in
  let d2 := if is_number (prop "backupdays" d1) then d1
            else set_prop "backupdays" (JNum 0) d1 in
  match prop "accounts" d2 with
  | JArr _ => d2
  | _ => set_prop "accounts" (JArr []) d2
  end.

(** [cfg.data] is changed in place, then written to the file. *)
Definition write_config (d : Json) : M unit :=
  fun s => (Ok tt, mkSt (world s) (con s) (usedTags s) d d (events s ++ [EWriteConfig d])).

(** [saveConfigLastRun(cfg)]: the only place that writes the configuration
    file once it is loaded. *)
Definition saveConfigLastRun : M unit :=
  t <- now ;;
  data <- get_cfg ;;
  write_config (saved_data t data).

(** *** sync.ts *)

(** [newTag(used)] on the run's [usedTags]. *)
Definition tag_of_bytes (buf : list Byte.byte) : string :=
  string_of_list_ascii (map (fun b => ascii_of_nat (97 + Byte.to_nat b mod 26)) buf).

Fixpoint newTag_loop (n : nat) : M string :=
  match n with
  | O => diverge
  | S n' =>
      buf <- randomBytes 20 ;;
      let t := tag_of_bytes buf in
      used <- get_usedTags ;;
      if set_has used t then newTag_loop n'
      else add_usedTag t ;;; ret t
  end.

Definition newTag : M string := newTag_loop fuel.

(** [safeDate(iso)] *)
Definition safeDate (iso : string) : Date :=
  match Date_parse E iso with
  | Some t => Some t
  | None => Some 0%Z
  end.

(** [rotateBackups(cdir, backupDays)]: renames files of the backup directory. *)
Definition rotateBackups (backupDays : Z) : M unit :=
  if (backupDays <=? 0)%Z then ret tt else emit (ERotateBackups backupDays).

(** [(e.clientData ?? []).find((kv) => kv?.key === SYNC_TAG)?.value] *)
Definition first_tag (e : Json) : Json :=
  prop "value" (hd JUndef (filter (fun kv => str_eq (prop "key" kv) SYNC_TAG)
                                  (items (coalesce (prop "clientData" e) (JArr []))))).

(** The group loop of the snapshot: [groupsByTag] and [groupRnToTag]. *)
Definition snapshot_groups (groupsByRn : list Json)
  : list (string * Json) * list (string * string) :=
  fold_left
    (fun st g =>
       if negb (str_eq (prop "groupType" g) "USER_CONTACT_GROUP") then st
       else match first_tag g with
            | JStr t =>
                if t =? "" then st
                else
                  (obj_set t (JObj [("tag", JStr t);
                                    ("name", coalesce (prop "name" g) (JStr ""))]) (fst st),
                   match str_field "resourceName" g with
                   | Some rn => if rn =? "" then snd st else obj_set rn t (snd st)
                   | None => snd st
                   end)
            | _ => st
            end)
    groupsByRn ([], []).

(** The contact loop of the snapshot: [contactsByTag]. *)
Definition snapshot_contacts (groupRnToTag : list (string * string)) (persons : list Json)
  : list (string * Json) :=
  fold_left
    (fun st p =>
       match first_tag p with
       | JStr t =>
           if t =? "" then st
           else
             let nm := display_name p in
             let groupTags :=
               filter (fun t' => negb (t' =? ""))
                      (flat_map (fun rn => match assoc rn groupRnToTag with
                                           | Some t' => [t']
                                           | None => []
                                           end)
                                (groupRns_of p)) in
             let body := keep_myContacts (stripPersonForUpdate p) in
             let body := set_prop "clientData" (with_tag (prop "clientData" body) t) body in
             obj_set t (JObj [("tag", JStr t);
                              ("name", if is_string nm then nm else JUndef);
                              ("groupTags", JArr (map JStr groupTags));
                              ("body", body)]) st
       | _ => st
       end)
    persons [].

(** The keys of [con.entries()]. *)
Definition con_keys : M (list string) := c <- get_con ;; ret (map fst c).

(** The backup block of [runSync]. *)
Definition backup : M unit :=
  data <- get_cfg ;;
  let backupDays := getBackupDays data in
  if (0 <? backupDays)%Z then
    rotateBackups backupDays ;;;
    t <- now ;;
    users <- con_keys ;;
    accounts <- foldM users []
      (fun accounts email =>
         groupsByRn <- getContactGroups email ;;
         let gs := snapshot_groups groupsByRn in
         persons <- getAllContacts email allPersonFields ;;
         ret (obj_set email
                (JObj [("email", JStr email);
                       ("contactsByTag", JObj (snapshot_contacts (snd gs) persons));
                       ("groupsByTag", JObj (fst gs))])
                accounts)) ;;
    emit (EWriteBackup (JObj [("version", JNum 2);
                              ("createdAt", JStr (toISOString E t));
                              ("accounts", JObj accounts)]))
  else ret tt.

(** **** The tag sets of the deletion step *)

(** The truthy tags of a cache, in the order of its entries:
    [Object.values(info).map((v) => v.tag).filter((t) => !!t)]. *)
Definition tags_of (i : Info) : list string :=
  flat_map (fun kv => match tag (snd kv) with
                      | Some t => if t =? "" then [] else [t]
                      | None => []
                      end) i.

(** [allTags]: the union of the tags of the active accounts. *)
Definition all_tags (infos : list Info) : list string :=
  fold_left (fun all i => fold_left set_add (tags_of i) all) infos [].

(** [rm = Array.from(allTags).filter((t) => !tags.has(t))] for one account. *)
Definition missing_in (all : list string) (i : Info) : list string :=
  filter (fun t => negb (set_has (set_of (tags_of i)) t)) all.

(** [toDelete]: the union of the [rm] of every active account. *)
Definition to_delete (infos : list Info) : list string :=
  fold_left (fun del i => fold_left set_add (missing_in (all_tags infos) i) del) infos [].

(** **** The candidates of the update step *)

Record Cand : Type := mkCand {
  cand_acc : string;
  cand_rn : string;
  cand_updated : Date;
}.

(** [addedContacts.some((x) => x.acc === acc && x.rn === rn)] *)
Definition wasAdded (added : list (string * string)) (u rn : string) : bool :=
  existsb (fun x => (fst x =? u) && (snd x =? rn)) added.

(** One turn of the inner loop that fills [contactUpdates]. *)
Definition note_update (added : list (string * string)) (lastUpdate : Date) (u : string)
           (updates : list (string * list Cand)) (kv : string * ContactInfo)
  : list (string * list Cand) :=
  match tag (snd kv) with
  | None => updates
  | Some t =>
      if t =? "" then updates
      else if date_gt (updated (snd kv)) lastUpdate && negb (wasAdded added u (fst kv))
      then
        let list := match assoc t updates with Some l => l | None => [] end in
        obj_set t (list ++ [mkCand u (fst kv) (updated (snd kv))]) updates
      else updates
  end.

(** [contactUpdates]: the candidates by tag, over the caches of the
    active accounts in order. *)
Definition collect_updates (added : list (string * string)) (lastUpdate : Date)
           (caches : list (string * Info)) : list (string * list Cand) :=
  fold_left (fun updates ui => fold_left (note_update added lastUpdate (fst ui)) (snd ui) updates)
            caches [].

(** [val.reduce((a, b) => (a.updated >= b.updated ? a : b))] *)
Definition newer (a b : Cand) : Cand :=
  if date_ge (cand_updated a) (cand_updated b) then a else b.

Definition newest (val : list Cand) : option Cand :=
  match val with
  | [] => None
  | a :: rest => Some (fold_left newer rest a)
  end.

(** **** The blocks of [runSync] *)

(** The caches of the accounts [users], read now. *)
Definition infos_of (users : list string) : M (list (string * Info)) :=
  foldM users [] (fun l u => c <- account u ;; ret (l ++ [(u, info c)])).

Definition infoGroups_of (users : list string) : M (list (string * Info)) :=
  foldM users [] (fun l u => c <- account u ;; ret (l ++ [(u, infoGroup c)])).

(** The accounts are created and initialized in the order of the
    configuration: [c = new Contacts(..); await c.init(); con.set(acc.user, c)]. *)
Definition init_accounts (accounts : list (string * (string * string))) : M unit :=
  for_each accounts
    (fun a =>
       con_set (fst a) (mkContacts (fst a) (fst (snd a)) (snd (snd a)) [] []) ;;;
       Contacts_init (fst a)).

(** The guard of the init mode: [process.exit(1)] at the first account
    that holds a display name twice. *)
Definition init_guard (users : list string) : M unit :=
  for_each users
    (fun email =>
       acc <- account email ;;
       let dups := duplicates (map (fun kv => name (snd kv)) (info acc)) in
       if (0 <? List.length dups)%nat then process_exit 1 else ret tt).

(** [p.tag = tag] on the cached entry of [rn]. *)
Definition set_cached_tag (u rn t : string) : M unit :=
  c <- account u ;;
  match assoc rn (info c) with
  | Some p => set_info u (obj_set rn (mkInfo (etag p) (Some t) (updated p) (name p)) (info c))
  | None => ret tt
  end.

(** The tag of the entry [(rn, p)] of account [email] in the init mode:
    [let tag = p.tag; if (!tag) { tag = newTag(usedTags); await
    acc.updateTag(rn, tag); p.tag = tag }]. *)
Definition init_tag (email : string) (e : string * ContactInfo) : M string :=
  let rn := fst e in
  let p := snd e in
  if truthy_str (tag p)
  then ret (match tag p with Some t => t | None => "" end)
  else t <- newTag ;;
       updateTag email rn t ;;;
       set_cached_tag email rn t ;;;
       ret t.

(** One turn of the inner loop of the init mode, for the entry [(rn, p)]
    of account [email]. *)
Definition init_push (opts : SyncOptions) (users : list string) (email : string)
           (done : list string) (e : string * ContactInfo) : M (list string) :=
  let rn := fst e in
  let p := snd e in
  if set_has done (name p) then ret done
  else
    t <- init_tag email e ;;
    newcontact <- Contacts_get email rn ;;
    for_each users
      (fun other =>
         if other =? email then ret tt
         else
           otheracc <- account other ;;
           otherRn <- lift (nameToRn (toLowerCase E) (info otheracc) (name p)) ;;
           match otherRn with
           | Some orn =>
               if orn =? "" then Contacts_add other newcontact ;;; ret tt
               else updateTag other orn t ;;; Contacts_update other t newcontact
           | None => Contacts_add other newcontact ;;; ret tt
           end) ;;;
    (match rlimSeconds opts with
     | Some r => if (0 <? r)%Z then sleep (r * 1000) else ret tt
     | None => ret tt
     end) ;;;
    ret (set_add done (name p)).

(** The init mode, after the guard. *)
Definition init_mode (opts : SyncOptions) (users : list string) : M unit :=
  foldM users []
    (fun done email =>
       acc <- account email ;;
       foldM (info acc) done (init_push opts users email)) ;;;
  saveConfigLastRun.

(** [allNone]: every cached tag of the account is [null]. *)
Definition allNone (c : Contacts) : bool :=
  forallb (fun kv => match tag (snd kv) with None => true | Some _ => false end) (info c).

(** Contact groups: the deletion step. *)
Definition delete_groups (active : list string) : M unit :=
  caches <- infoGroups_of active ;;
  let groupsToDelete := to_delete (map snd caches) in
  if (0 <? List.length groupsToDelete)%nat then
    for_each active
      (fun email => for_each groupsToDelete (fun t => deleteContactGroup email t)) ;;;
    for_each active getInfo
  else ret tt.

(** The entries of a cache whose tag is [null]. *)
Definition untagged (i : Info) : list (string * ContactInfo) :=
  filter (fun kv => match tag (snd kv) with None => true | Some _ => false end) i.

(** Contact groups: the addition step; the result is [addedGroups]. *)
Definition add_groups (active : list string) : M (list (string * string)) :=
  foldM active []
    (fun added email =>
       acc <- account email ;;
       foldM (untagged (infoGroup acc)) added
         (fun added e =>
            let rn := fst e in
            t <- newTag ;;
            updateContactGroupTag email rn t ;;;
            group <- getContactGroupWaitSyncTag email rn ;;
            foldM active (added ++ [(email, rn)])
              (fun added other =>
                 if other =? email then ret added
                 else
                   let tmp := JObj [("contactGroup",
                                     JObj [("name", prop "name" group);
                                           ("clientData", prop "clientData" group)])] in
                   created <- addContactGroup other tmp ;;
                   ret (match str_field "resourceName" created with
                        | Some crn => if crn =? "" then added else added ++ [(other, crn)]
                        | None => added
                        end)))).

(** Contact groups: the update step. *)
Definition update_groups (active : list string) (added : list (string * string))
           (lastUpdate : Date) : M unit :=
  caches <- infoGroups_of active ;;
  for_each (collect_updates added lastUpdate caches)
    (fun tv =>
       match newest (snd tv) with
       | None => throw (new_Error "Reduce of empty array with no initial value")
       | Some nw =>
           group <- getContactGroup (cand_acc nw) (cand_rn nw) ;;
           for_each active
             (fun other =>
                if other =? cand_acc nw then ret tt
                else updateContactGroup other (fst tv) group)
       end).

(** Contacts: the deletion step. *)
Definition delete_contacts (active : list string) : M unit :=
  caches <- infos_of active ;;
  let toDelete := to_delete (map snd caches) in
  if (0 <? List.length toDelete)%nat then
    for_each active
      (fun email => for_each toDelete (fun t => Contacts_delete email t)) ;;;
    for_each active getInfo
  else ret tt.

(** The body of [contact] for the account [other], sent by [send]: the
    three places of [runSync] that copy a contact share this text. *)
Definition translated_for (other : string) (groupTags : list (option string))
           (contact : Json) : M Json :=
  oacc <- account other ;;
  lift (body_for (infoGroup oacc) groupTags contact).

(** Contacts: one turn of the addition loop, for the untagged entry [e]
    of account [email]. *)
Definition add_contact (active : list string) (email : string)
           (added : list (string * string)) (e : string * ContactInfo)
  : M (list (string * string)) :=
  let rn := fst e in
  t <- newTag ;;
  updateTag email rn t ;;;
  fetched <- Contacts_get email rn ;;
  acc <- account email ;;
  let groupTags := groupTags_of (infoGroup acc) fetched in
  let newcontact := keep_myContacts fetched in
  foldM active (added ++ [(email, rn)])
    (fun added other =>
       if other =? email then ret added
       else
         body <- translated_for other groupTags newcontact ;;
         created <- Contacts_add other body ;;
         ret (match str_field "resourceName" created with
              | Some crn => if crn =? "" then added else added ++ [(other, crn)]
              | None => added
              end)).

(** Contacts: the addition step; the result is [addedContacts]. *)
Definition add_contacts (active : list string) : M (list (string * string)) :=
  foldM active []
    (fun added email =>
       acc <- account email ;;
       foldM (untagged (info acc)) added (add_contact active email)).

(** Contacts: one turn of the update loop, for the tag and the candidates
    [tv] of [contactUpdates]. *)
Definition propagate_update (active : list string) (tv : string * list Cand) : M unit :=
  match newest (snd tv) with
  | None => throw (new_Error "Reduce of empty array with no initial value")
  | Some nw =>
      fetched <- Contacts_get (cand_acc nw) (cand_rn nw) ;;
      src <- account (cand_acc nw) ;;
      let groupTags := groupTags_of (infoGroup src) fetched in
      let contact := keep_myContacts fetched in
      for_each active
        (fun other =>
           if other =? cand_acc nw then ret tt
           else
             body <- translated_for other groupTags contact ;;
             Contacts_update other (fst tv) body)
  end.

(** Contacts: the update step. *)
Definition update_contacts (active : list string) (added : list (string * string))
           (lastUpdate : Date) : M unit :=
  caches <- infos_of active ;;
  for_each (collect_updates added lastUpdate caches) (propagate_update active).

(** The seeding: one turn of the contact loop, for the entry [e] of
    [source]. *)
Definition seed_contact (source : string) (newCon : list string)
           (e : string * ContactInfo) : M unit :=
  fetched <- Contacts_get source (fst e) ;;
  src <- account source ;;
  let groupTags := groupTags_of (infoGroup src) fetched in
  let contact := keep_myContacts fetched in
  for_each newCon
    (fun other =>
       body <- translated_for other groupTags contact ;;
       Contacts_add other body ;;; ret tt).

(** The seeding: the contacts of [source] are copied to the new accounts. *)
Definition seed_contacts (source : string) (newCon : list string) : M unit :=
  src <- account source ;;
  for_each (info src) (seed_contact source newCon).

(** The seeding of the new accounts from the first active one. *)
Definition seed_new (active newCon : list string) : M unit :=
  match newCon, active with
  | _ :: _, source :: _ =>
      getInfo source ;;;
      src <- account source ;;
      for_each (infoGroup src)
        (fun e =>
           group <- getContactGroup source (fst e) ;;
           for_each newCon
             (fun other =>
                let tmp := JObj [("contactGroup",
                                  JObj [("name", prop "name" group);
                                        ("clientData", prop "clientData" group)])] in
                addContactGroup other tmp ;;; ret tt)) ;;;
      for_each newCon getInfo ;;;
      seed_contacts source newCon
  | _, _ => ret tt
  end.

(** The reconciliation of a normal run, up to the seeding. *)
Definition reconcile (users : list string) : M unit :=
  accs <- foldM users [] (fun l u => c <- account u ;; ret (l ++ [(u, allNone c)])) ;;
  let newCon := map fst (filter (fun x => snd x) accs) in
  let checked := map fst (filter (fun x => negb (snd x)) accs) in
  if (List.length checked =? 0)%nat then process_exit 2
  else
    let active := checked in
    delete_groups active ;;;
    addedGroups <- add_groups active ;;
    data <- get_cfg ;;
    let lastUpdate := safeDate (getLastRunIso data) in
    update_groups active addedGroups lastUpdate ;;;
    delete_contacts active ;;;
    addedContacts <- add_contacts active ;;
    update_contacts active addedContacts lastUpdate ;;;
    seed_new active newCon.

(** The first part of [runSync]: the accounts of the configuration are
    loaded, then the backup snapshot is taken. *)
Definition load : M unit :=
  data <- get_cfg ;;
  let accounts := getAccounts data in
  if (List.length accounts =? 0)%nat then process_exit 2
  else
    init_accounts accounts ;;;
    backup.

(** The second part: the init mode or the reconciliation, then the
    watermark. *)
Definition sync (opts : SyncOptions) : M unit :=
  users <- con_keys ;;
  if init opts then
    init_guard users ;;;
    init_mode opts users
  else
    reconcile users ;;;
    saveConfigLastRun.

(** [runSync(opts)], from the loaded configuration on: sync.ts l.64, the
    call of [loadConfigOrCreateDefault], is the first step of
    [runSync_from_disk]. *)
Definition runSync (opts : SyncOptions) : M unit :=
  load ;;; sync opts.

(** The state in which a run starts: the configuration file was parsed
    into [cfg.data]; no account is loaded, no tag minted, nothing done. *)
Definition start (w : World E) (config : Json) : St :=
  mkSt w [] [] config config [].

End Engine.

Arguments world {E} s.
Arguments con {E} s.
Arguments usedTags {E} s.
Arguments cfg_data {E} s.
Arguments config_file {E} s.
Arguments events {E} s.
Arguments ret {E A} a.
Arguments bind {E A B} m k.
Arguments throw {E A} e.
Arguments process_exit {E A} code.
Arguments diverge {E A}.
Arguments for_each {E X} xs body.
Arguments foldM {E X B} xs b body.
Arguments withBackoff_loop {E A} n fn delayMs.
Arguments withBackoff {E} fuel {A} fn.

(* ================================================================== *)
(** ** A small address-book service, to run the engine on *)
(* ================================================================== *)

Module Sim.

(** The service keeps, per account, the listed people and groups; it
    answers the next requests with the errors of [faults], one each, before
    it serves any. *)
Record Service : Type := mkService {
  people : list (string * list Json);
  groups : list (string * list Json);
  faults : list Settled;
  clock : Z;
  seq : nat;
}.

Definition listed (u : string) (m : list (string * list Json)) : list Json :=
  match assoc u m with Some l => l | None => [] end.

Definition has_rn (rn : string) (e : Json) : bool := str_eq (prop "resourceName" e) rn.

Definition merge (body e : Json) : Json :=
  fold_left (fun acc kv => set_prop (fst kv) (snd kv) acc) (entries body) e.

Definition not_found : Settled := Rejected (JObj [("code", JNum 404)]).

Definition id (pre : string) (n : nat) : string := pre ++ string_of_Z (Z.of_nat n).

Definition serve (u : string) (req : Request) (w : Service) : Settled * Service :=
  let ps := listed u (people w) in
  let gs := listed u (groups w) in
  let put_people l := mkService (obj_set u l (people w)) (groups w) (faults w) (clock w) (S (seq w)) in
  let put_groups l := mkService (people w) (obj_set u l (groups w)) (faults w) (clock w) (S (seq w)) in
  match req with
  | GetAuthClient _ _ => (Resolved (JObj []), w)
  | ConnectionsList _ _ => (Resolved (JObj [("connections", JArr ps)]), w)
  | GroupsList _ _ => (Resolved (JObj [("contactGroups", JArr gs)]), w)
  | PeopleGet rn _ =>
      (match find (has_rn rn) ps with Some p => Resolved p | None => not_found end, w)
  | GroupsGet rn _ =>
      (match find (has_rn rn) gs with Some g => Resolved g | None => not_found end, w)
  | CreateContact body =>
      let p := set_prop "etag" (JStr (id "e" (seq w)))
                 (set_prop "resourceName" (JStr (id "people/c" (seq w))) body) in
      (Resolved p, put_people (ps ++ [p]))
  | GroupsCreate body =>
      let g := set_prop "etag" (JStr (id "e" (seq w)))
                 (set_prop "resourceName" (JStr (id "contactGroups/g" (seq w)))
                    (set_prop "groupType" (JStr "USER_CONTACT_GROUP")
                       (prop "contactGroup" body))) in
      (Resolved g, put_groups (gs ++ [g]))
  | UpdateContact rn _ body =>
      match find (has_rn rn) ps with
      | Some _ =>
          (Resolved (JObj []),
           put_people (map (fun p => if has_rn rn p then merge body p else p) ps))
      | None => (not_found, w)
      end
  | GroupsUpdate rn body =>
      match find (has_rn rn) gs with
      | Some _ =>
          (Resolved (JObj []),
           put_groups (map (fun g => if has_rn rn g then merge (prop "contactGroup" body) g else g) gs))
      | None => (not_found, w)
      end
  | DeleteContact rn =>
      (Resolved (JObj []), put_people (filter (fun p => negb (has_rn rn p)) ps))
  | GroupsDelete rn =>
      (Resolved (JObj []), put_groups (filter (fun g => negb (has_rn rn g)) gs))
  end.

Definition api (u : string) (req : Request) (w : Service) : Settled * Service :=
  match faults w with
  | f :: rest => (f, mkService (people w) (groups w) rest (clock w) (seq w))
  | [] => serve u req w
  end.

Definition Date_now (w : Service) : Z * Service :=
  (clock w, mkService (people w) (groups w) (faults w) (clock w + 1000) (seq w)).

Definition randomByte (w : Service) : Byte.byte * Service :=
  (match Byte.of_nat (seq w mod 256) with Some b => b | None => Byte.x00 end,
   mkService (people w) (groups w) (faults w) (clock w) (S (seq w))).

(** Names are ASCII text here: lower case folds the letters A to Z. *)
Definition lower_ascii (c : ascii) : ascii :=
  let n := nat_of_ascii c in
  if (65 <=? n)%nat && (n <=? 90)%nat then ascii_of_nat (n + 32) else c.

Fixpoint lower (s : string) : string :=
  match s with
  | EmptyString => EmptyString
  | String c rest => String (lower_ascii c) (lower rest)
  end.

(** Dates and numbers are written in decimal digits here. *)
Fixpoint digits (s : string) (acc : Z) : option Z :=
  match s with
  | EmptyString => Some acc
  | String c rest =>
      let n := nat_of_ascii c in
      if (48 <=? n)%nat && (n <=? 57)%nat
      then digits rest (acc * 10 + Z.of_nat (n - 48))
      else None
  end.

Definition parse (s : string) : option Z :=
  match s with EmptyString => None | _ => digits s 0 end.

Definition env : Env :=
  mkEnv Service api Date_now randomByte parse string_of_Z parse lower.

(** A listed person and a listed group. *)
Definition person (rn et nm : string) (t : option string) (upd : string) (ms : list string) : Json :=
  JObj [("resourceName", JStr rn); ("etag", JStr et);
        ("names", JArr [JObj [("displayName", JStr nm)]]);
        ("clientData", JArr (match t with Some t => [tag_entry t] | None => [] end));
        ("metadata", JObj [("sources", JArr [JObj [("updateTime", JStr upd)]])]);
        ("memberships", JArr (map (fun g => JObj [("contactGroupMembership",
                                                   JObj [("contactGroupResourceName", JStr g)])]) ms))].

Definition group (rn et nm : string) (t : option string) (upd : string) : Json :=
  JObj [("resourceName", JStr rn); ("etag", JStr et); ("name", JStr nm);
        ("groupType", JStr "USER_CONTACT_GROUP");
        ("clientData", JArr (match t with Some t => [tag_entry t] | None => [] end));
        ("metadata", JObj [("updateTime", JStr upd)])].

Definition config (last : string) (users : list string) : Json :=
  JObj [("last", JStr last); ("backupdays", JNum 0);
        ("accounts", JArr (map (fun u => JObj [("user", JStr u); ("keyfile", JStr "key");
                                              ("credfile", JStr "cred")]) users))].

End Sim.

(* ================================================================== *)
(** ** config.ts: the loader; [runSync] from the files on *)
(* ================================================================== *)

(** The configuration is loaded from the parsed content of the files (a
    [config.json] that [JSON.parse] rejects is not modelled). *)

(** The sections of a parsed INI file, in the order of the file; each
    section maps keys to values. *)
Definition Ini : Type := list (string * list (string * string)).

(** [migrateIniToJson(cdir, iniData)] *)
Definition migrateIniToJson (E : Env) (iniData : Ini) : Json :=
  let def := match assoc "DEFAULT" iniData with Some d => d | None => [] end in
  let last := match assoc "last" def with
              | Some v => if (0 <? String.length v)%nat then v else default_last
              | None => default_last
              end in
  let backupdays := match assoc "backupdays" def with
                    | Some v => Number_parse E v
                    | None => Some 0%Z
                    end in
  let accounts :=
    flat_map (fun sv =>
                if fst sv =? "DEFAULT" then []
                else if fst sv =? "account-FIXME" then []
                else match assoc "user" (snd sv), assoc "keyfile" (snd sv),
                           assoc "credfile" (snd sv) with
                     | Some u, Some k, Some c =>
                         [JObj [("user", JStr u); ("keyfile", JStr k); ("credfile", JStr c)]]
                     | _, _, _ => []
                     end)
             iniData in
  JObj [("last", JStr last);
        ("backupdays", JNum (match backupdays with Some n => n | None => 0%Z end));
        ("accounts", JArr accounts)].

(** [defaultJsonConfig(cdir)], [join] being [path.join]. *)
Definition defaultJsonConfig (join : string -> string -> string) (cdir : string) : Json :=
  JObj [("last", JStr default_last);
        ("backupdays", JNum 0);
        ("accounts", JArr [JObj [("user", JStr "FIXME@gmail.com");
                                 ("keyfile", JStr (join cdir "FIXME_keyfile.json"));
                                 ("credfile", JStr (join cdir "FIXME_token"))]])].

(** How [loadConfigOrCreateDefault] ends: with the configuration, with an
    error, or with [process.exit]; [written] is what it wrote to
    [config.json] before. *)
Inductive Loaded : Type :=
| Config (data : Json) (written : option Json)
| ConfigError
| ConfigExit (code : Z) (written : option Json).

(** [loadConfigOrCreateDefault(cdir)], from the content of the two files:
    [json] is [config.json] parsed by [JSON.parse], [ini] is [config.ini]
    parsed by [parseLegacyIni], each [None] when the file does not exist. *)
Definition loadConfigOrCreateDefault (E : Env) (join : string -> string -> string)
           (cdir : string) (json : option Json) (ini : option Ini) : Loaded :=
  match json with
  | Some data =>
      match prop "accounts" data with
      | JArr _ => Config data None
      | _ => ConfigError
      end
  | None =>
      match ini with
      | Some legacy =>
          match assoc "account-FIXME" legacy with
          | Some _ => ConfigExit 2 None
          | None =>
              let migrated := migrateIniToJson E legacy in
              Config migrated (Some migrated)
          end
      | None => ConfigExit 1 (Some (defaultJsonConfig join cdir))
      end
  end.

(** What a run leaves behind: how it ended, the content of [config.json]
    ([None]: there is no such file) and its events. *)
Record Run : Type := mkRun {
  outcome : Outcome unit;
  config_json : option Json;
  trace : list Event;
}.

(** The write of [config.json] by the loader, if any. *)
Definition loader_events (written : option Json) : list Event :=
  match written with
  | Some d => [EWriteConfig d]
  | None => []
  end.

(** [runSync(opts)] in full, on the service [w] and the files [json] and
    [ini]: sync.ts l.64 loads the configuration, which may write
    [config.json]; the run goes on from there with [cfg.data], which is
    also what the file holds then. *)
Definition runSync_from_disk (E : Env) (fuel : nat) (join : string -> string -> string)
           (cdir : string) (opts : SyncOptions) (w : World E)
           (json : option Json) (ini : option Ini) : Run :=
  match loadConfigOrCreateDefault E join cdir json ini with
  | Config data written =>
      let rs := runSync E fuel opts (mkSt E w [] [] data data (loader_events written)) in
      mkRun (fst rs) (Some (config_file (snd rs))) (events (snd rs))
  | ConfigError =>
      mkRun (Throw (new_Error ("Invalid config.json (missing accounts array): "
                               ++ join cdir "config.json")))
            json []
  | ConfigExit code written =>
      mkRun (Exit code)
            (match written with Some d => Some d | None => json end)
            (loader_events written)
  end.

(* ================================================================== *)
(** ** Vocabulary of the statements *)
(* ================================================================== *)

(** The entity has a (non-empty) value in the string field [k]. *)
Definition has_field (k : string) (e : Json) : bool := truthy_str (str_field k e).

(** The entry of the last listed entity stored under [rn], if any. *)
Definition last_entry (entry : Json -> option (string * ContactInfo)) (rn : string)
           (listing : list Json) : option ContactInfo :=
  fold_left (fun found x => match entry x with
                            | Some (rn', ci) => if rn' =? rn then Some ci else found
                            | None => found
                            end) listing None.

(** The account registered for [u] in a state. *)
Definition acct {E : Env} (s : St E) (u : string) : Contacts := lookup_account u (con s).

(** The events a computation added between two states. *)
Definition added_events {E : Env} (s s' : St E) : list Event :=
  skipn (List.length (events s)) (events s').

(** A tagged string is made of lowercase ASCII letters. *)
Definition is_lower (c : ascii) : bool :=
  (97 <=? nat_of_ascii c)%nat && (nat_of_ascii c <=? 122)%nat.

(** *** The retry policy, in the words of the specification *)

(** [final r]: an attempt that ends the retries: anything but a retryable error. *)
Definition final {A : Type} (r : Outcome A) : Prop :=
  match r with
  | Throw e => retryable e = false
  | _ => True
  end.

(** [attempts fn d k s r s']: from [s], [fn] fails [k] times with a
    retryable error, each failure followed by a sleep (of [d] first, then
    doubling up to the ceiling), and its next attempt ends with [r] in [s']. *)
Inductive attempts {E : Env} {A : Type} (fn : M E A)
  : Z -> nat -> St E -> Outcome A -> St E -> Prop :=
| attempts_last d s r s' :
    fn s = (r, s') -> final r -> attempts fn d 0 s r s'
| attempts_retry d k s e s1 r s' :
    fn s = (Throw e, s1) -> retryable e = true ->
    attempts fn (Z.min (d * 2) 30000) k (snd (sleep E d s1)) r s' ->
    attempts fn d (S k) s r s'.

(** *** The tags of a cache, read off its entries *)

(** No entry of the cache [i] has the tag [t]. *)
Definition tag_absent (t : string) (i : Info) : Prop :=
  forall rn ci, In (rn, ci) i -> tag ci <> Some t.

(** One entry of the cache [i], stored under [rn], has the tag [t], and no
    other entry has it. *)
Definition tag_once (t : string) (i : Info) (rn : string) : Prop :=
  exists l1 ci l2,
    i = l1 ++ (rn, ci) :: l2 /\ tag ci = Some t /\ tag_absent t (l1 ++ l2).

(** Two entries of the cache [i], at least, have the tag [t]. *)
Definition tag_several (t : string) (i : Info) : Prop :=
  exists l1 rn1 ci1 l2 rn2 ci2 l3,
    i = l1 ++ (rn1, ci1) :: l2 ++ (rn2, ci2) :: l3
    /\ tag ci1 = Some t /\ tag ci2 = Some t.

(** A cache in which two entities carry the tag [t1]. *)
Definition twins : Info :=
  [("people/x1", mkInfo "e1" (Some "t1") None "Ann");
   ("people/x2", mkInfo "e2" None None "Bob");
   ("people/x3", mkInfo "e3" (Some "t1") None "Ann B.")].

(** A loaded state of the simulated service: account [a] holds Ann
    (tagged) and Bob (new), account [b] holds Ann. *)
Definition demo_world : Sim.Service :=
  Sim.mkService
    [("a", [Sim.person "people/a1" "e1" "Ann" (Some "t1") "50" [];
            Sim.person "people/a2" "e2" "Bob" None "200" ["contactGroups/ga"]]);
     ("b", [Sim.person "people/b1" "e3" "Ann" (Some "t1") "300" []])]
    [("a", [Sim.group "contactGroups/ga" "e4" "Fam" (Some "g1") "10"]);
     ("b", [Sim.group "contactGroups/gb" "e5" "Fam" (Some "g1") "10"])]
    [] 1000 0.

Definition demo_config : Json := Sim.config "100" ["a"; "b"].

(** The state [s] of a run on the simulated service, each component
    evaluated. *)
Ltac evaluated s :=
  let w := eval vm_compute in (world s) in
  let c := eval vm_compute in (con s) in
  let u := eval vm_compute in (usedTags s) in
  let d := eval vm_compute in (cfg_data s) in
  let f := eval vm_compute in (config_file s) in
  let e := eval vm_compute in (events s) in
  exact (mkSt Sim.env w c u d f e).

Definition demo_loaded : St Sim.env :=
  ltac:(evaluated (snd (load Sim.env 5 (start Sim.env demo_world demo_config)))).

(** ... after one tag was minted, and after a whole normal run. *)
Definition demo_minted : St Sim.env :=
  ltac:(evaluated (snd (newTag Sim.env 1 demo_loaded))).

Definition demo_synced : St Sim.env :=
  ltac:(evaluated (snd (runSync Sim.env 5 (mkOpts false None)
                                (start Sim.env demo_world demo_config)))).

(** Two accounts for the init mode: [b] holds two contacts whose names
    differ in case only. *)
Definition case_world : Sim.Service :=
  Sim.mkService
    [("a", [Sim.person "people/a1" "e1" "bob" None "50" []]);
     ("b", [Sim.person "people/b1" "e2" "Bob" None "60" [];
            Sim.person "people/b2" "e3" "bob" None "70" []])]
    [] [] 1000 0.

Definition case_config : Json := Sim.config "100" ["a"; "b"].

Definition case_loaded : St Sim.env :=
  ltac:(evaluated (snd (load Sim.env 5 (start Sim.env case_world case_config)))).

Definition case_failed : St Sim.env :=
  ltac:(evaluated (snd (runSync Sim.env 5 (mkOpts true None)
                                (start Sim.env case_world case_config)))).

(** A rate-limit answer, and an operation to retry. *)
Definition busy : Settled := Rejected (JObj [("code", JNum 429)]).

Definition ping : M Sim.env Json :=
  bind (call Sim.env "a" (GetAuthClient "" "")) (await Sim.env).

Definition busy_twice : St Sim.env :=
  mkSt Sim.env (Sim.mkService [] [] [busy; busy] 0 0) [] [] JNull JNull [].

Definition served_at_last : St Sim.env :=
  mkSt Sim.env (Sim.mkService [] [] [] 0 0) [] [] JNull JNull
       [ECall "a" (GetAuthClient "" ""); ESleep 500;
        ECall "a" (GetAuthClient "" ""); ESleep 1000;
        ECall "a" (GetAuthClient "" "")].

(** *** The tag generator *)

(** Only the world differs between two states. *)
Definition same_but_world {E : Env} (s s' : St E) : Prop :=
  con s' = con s /\ usedTags s' = usedTags s /\ cfg_data s' = cfg_data s
  /\ config_file s' = config_file s /\ events s' = events s.

(** The [k] first draws of the generator give used tags, the next one a new tag. *)
Fixpoint fresh_after {E : Env} (k : nat) (s : St E) : Prop :=
  match randomBytes E 20 s with
  | (Ok buf, s1) =>
      match k with
      | O => set_has (usedTags s) (tag_of_bytes buf) = false
      | S k' => set_has (usedTags s) (tag_of_bytes buf) = true /\ fresh_after k' s1
      end
  | _ => False
  end.

(** *** Frames *)

(** A relation between the state before and the state after, closed under
    the steps every computation may take: a change of the world, and an
    event that [okev] allows. *)
Class Frame {E : Env} (R : St E -> St E -> Prop) (okev : Event -> Prop) : Prop := {
  fr_refl : forall s, R s s;
  fr_trans : forall a b c, R a b -> R b c -> R a c;
  fr_world : forall s w,
      R s (mkSt E w (con s) (usedTags s) (cfg_data s) (config_file s) (events s));
  fr_event : forall s w ev, okev ev ->
      R s (mkSt E w (con s) (usedTags s) (cfg_data s) (config_file s) (events s ++ [ev]));
}.

(** ... under a change of the caches, ... *)
Class FrameCon {E : Env} (R : St E -> St E -> Prop) : Prop :=
  fr_con : forall s c,
      R s (mkSt E (world s) c (usedTags s) (cfg_data s) (config_file s) (events s)).

(** ... under a new used tag. *)
Class FrameUsed {E : Env} (R : St E -> St E -> Prop) : Prop :=
  fr_used : forall s t,
      R s (mkSt E (world s) (con s) (set_add (usedTags s) t) (cfg_data s) (config_file s)
                (events s)).

(** What [okev] allows. *)
Class AllowsReads (okev : Event -> Prop) : Prop := {
  ok_read : forall u r, is_write r = false -> okev (ECall u r);
  ok_sleep : forall ms, okev (ESleep ms);
  ok_rotate : forall n, okev (ERotateBackups n);
  ok_backup : forall d, okev (EWriteBackup d);
}.

Class AllowsCalls (okev : Event -> Prop) : Prop :=
  ok_call : forall u r, okev (ECall u r).

Definition respects {E : Env} (R : St E -> St E -> Prop) {A : Type} (m : M E A) : Prop :=
  forall s, R s (snd (m s)).

(** The configuration, in memory and on disk, is untouched and every new
    event is allowed by [okev]. *)
Definition quiet {E : Env} (okev : Event -> Prop) (s s' : St E) : Prop :=
  cfg_data s' = cfg_data s /\ config_file s' = config_file s
  /\ exists t, events s' = events s ++ t /\ Forall okev t.

(** From a state whose caches are [c0], the caches stay and every new
    event is allowed by [okev]. *)
Definition still {E : Env} (okev : Event -> Prop) (c0 : list (string * Contacts))
           (s s' : St E) : Prop :=
  con s = c0 -> con s' = c0 /\ exists t, events s' = events s ++ t /\ Forall okev t.

(** Every new event is allowed by [okev]. *)
Definition grows {E : Env} (okev : Event -> Prop) (s s' : St E) : Prop :=
  exists t, events s' = events s ++ t /\ Forall okev t.


(** An event that is not a remote write; one that is not a write of the
    configuration file. *)
Definition not_remote_write (e : Event) : Prop := is_remote_write e = false.
Definition not_config_write (e : Event) : Prop := is_config_write e = false.

(** The display names of a cache, in the order of its entries. *)
Definition names_of (i : Info) : list string := map (fun kv => name (snd kv)) i.

(** A computation that leaves the configuration alone, unless it returns:
    then its last step was [saveConfigLastRun]. *)
Definition ends_with_save {E : Env} (m : M E unit) : Prop :=
  forall s r s',
    m s = (r, s') ->
    match r with
    | Ok _ => exists s1, quiet not_config_write s s1 /\ saveConfigLastRun E s1 = (Ok tt, s')
    | _ => quiet not_config_write s s'
    end.

(** The contents written to [config.json], in the order of the writes. *)
Definition config_writes (t : list Event) : list Json :=
  flat_map (fun e => match e with EWriteConfig d => [d] | _ => [] end) t.

(** What the loader wrote to [config.json], if it wrote. *)
Definition loader_written (E : Env) (join : string -> string -> string) (cdir : string)
           (json : option Json) (ini : option Ini) : option Json :=
  match loadConfigOrCreateDefault E join cdir json ini with
  | Config _ written => written
  | ConfigError => None
  | ConfigExit _ written => written
  end.

(** The watermark of a legacy file: the [last] of its [DEFAULT] section
    when it is there and not empty, else the default watermark. *)
Definition legacy_last (legacy : Ini) : string :=
  match assoc "DEFAULT" legacy with
  | Some def =>
      match assoc "last" def with
      | Some v => if v =? "" then default_last else v
      | None => default_last
      end
  | None => default_last
  end.

(** A legacy file for the accounts [a] and [b], and the run that starts
    with this file and no [config.json]. *)
Definition legacy_config : Ini :=
  [("DEFAULT", [("last", "100"); ("backupdays", "0")]);
   ("account-a", [("user", "a"); ("keyfile", "key"); ("credfile", "cred")]);
   ("account-b", [("user", "b"); ("keyfile", "key"); ("credfile", "cred")])].

Definition migrating_run : Run :=
  ltac:(let v := eval vm_compute in
                 (runSync_from_disk Sim.env 5 String.append "cfg/" (mkOpts false None)
                                    demo_world None (Some legacy_config)) in
        exact v).

(** ... with [config.json] in place; with neither file. *)
Definition plain_run : Run :=
  ltac:(let v := eval vm_compute in
                 (runSync_from_disk Sim.env 5 String.append "cfg/" (mkOpts false None)
                                    demo_world (Some demo_config) None) in
        exact v).

Definition first_run : Run :=
  ltac:(let v := eval vm_compute in
                 (runSync_from_disk Sim.env 5 String.append "cfg/" (mkOpts false None)
                                    demo_world None None) in
        exact v).

(** Account [a] holds two contacts named Ann. *)
Definition dup_world : Sim.Service :=
  Sim.mkService
    [("a", [Sim.person "people/a1" "e1" "Ann" None "50" [];
            Sim.person "people/a2" "e2" "Ann" None "60" []]);
     ("b", [Sim.person "people/b1" "e3" "Cy" None "70" []])]
    [] [] 1000 0.

Definition dup_loaded : St Sim.env :=
  ltac:(evaluated (snd (load Sim.env 5 (start Sim.env dup_world demo_config)))).

(** *** Copies of contacts *)

(** The memberships pushed for a destination whose groups are [dst]: one
    for each tag that exactly one group of [dst] carries. *)
Definition translations (dst : Info) (groupTags : list (option string)) : list Json :=
  flat_map (fun gt => match gt with
                      | Some t =>
                          if t =? "" then []
                          else match tagToRnContactGroup dst t with
                               | Return (Some rnOther) =>
                                   if rnOther =? "" then [] else [membership_to rnOther]
                               | _ => []
                               end
                      | None => []
                      end) groupTags.

(** A membership of a body written to a destination, [fetched] being the
    body read from the source: the default membership of [fetched], kept;
    or the destination's group for the tag of a group of [fetched]. *)
Definition membership_ok (src dst : Info) (fetched : Json) (m : Json) : Prop :=
  (In m (memberships fetched) /\ membership_rn m = JStr MY_CONTACTS)
  \/ exists groupRn t rnOther,
      In groupRn (groupRns_of fetched)
      /\ rnToTagContactGroup src groupRn = Some t
      /\ tagToRnContactGroup dst t = Return (Some rnOther)
      /\ m = membership_to rnOther.

(** The body that the caches [c0] make of the contact [fetched] from the
    account [source], for the account [other]: what [runSync] builds
    between the fetch and the write. *)
Definition copy_for (c0 : list (string * Contacts)) (source : string) (fetched : Json)
           (other : string) : Result Json :=
  body_for (infoGroup (lookup_account other c0))
           (groupTags_of (infoGroup (lookup_account source c0)) fetched)
           (keep_myContacts fetched).

(** The events of a turn that copies the contact [fetched] of [source]:
    a contact created in [other] carries the body made of [fetched] for
    [other]; a contact updated in [other] carries that body and an etag,
    under the update mask of [update]; there is no other remote write. *)
Definition copies_of (c0 : list (string * Contacts)) (source : string) (fetched : Json)
           (e : Event) : Prop :=
  match e with
  | ECall other (CreateContact body) => copy_for c0 source fetched other = Return body
  | ECall other (UpdateContact _ fields requestBody) =>
      fields = join "," allUpdatePersonFields
      /\ exists body et,
          copy_for c0 source fetched other = Return body
          /\ requestBody = JObj (obj_set "etag" (JStr et) (entries body))
  | ECall _ r => is_write r = false
  | _ => True
  end.

(** From [s1], where the contact was fetched, to [s']: the caches are
    [c0] and every new event is a copy of [fetched]. *)
Definition copied {E : Env} (c0 : list (string * Contacts)) (source : string)
           (fetched : Json) (s1 s' : St E) : Prop :=
  con s' = c0
  /\ exists tr, events s' = events s1 ++ tr /\ Forall (copies_of c0 source fetched) tr.

(** The events of an addition turn before the fetch: the only remote
    write is the write of the tag on the new contact. *)
Definition tag_write (u rn : string) (e : Event) : Prop :=
  match e with
  | ECall u' (UpdateContact rn' fields _) => u' = u /\ rn' = rn /\ fields = "clientData"
  | ECall _ r => is_write r = false
  | _ => True
  end.

(** *** The deletion step *)

(** The events of the deletion step, [c0] being the caches and [D] the
    tags to delete when it starts: a deleted contact is the one that
    carries a tag of [D] in its account; there is no other remote write. *)
Definition deletes (c0 : list (string * Contacts)) (D : list string) (e : Event) : Prop :=
  match e with
  | ECall u (DeleteContact rn) =>
      exists t, In t D /\ tagToRn (info (lookup_account u c0)) t = Return (Some rn)
  | ECall _ r => is_write r = false
  | _ => True
  end.

(** The request of [delete]. *)
Definition delete_request {E : Env} (u rn : string) : M E unit :=
  bind (call E u (DeleteContact rn))
       (fun p => bind (withTimeout E p ("Timeout deleting contact " ++ rn ++ " for " ++ u))
                      (fun _ => ret tt)).

(** A contact of the source with the default membership and two groups;
    the destination has a group for the first tag only. *)
Definition bob_res : Json :=
  Sim.person "people/a2" "e2" "Bob" None "200"
             ["contactGroups/myContacts"; "contactGroups/ga"; "contactGroups/gx"].

Definition src_groups : Info :=
  [("contactGroups/ga", mkInfo "e4" (Some "g1") (Some 10%Z) "Fam");
   ("contactGroups/gx", mkInfo "e6" (Some "g9") (Some 10%Z) "Club")].

Definition dst_groups : Info :=
  [("contactGroups/gb", mkInfo "e5" (Some "g1") (Some 10%Z) "Fam")].

Definition my_membership : Json :=
  JObj [("contactGroupMembership",
         JObj [("contactGroupResourceName", JStr "contactGroups/myContacts")])].

Definition bob_body : Json :=
  JObj [("names", JArr [JObj [("displayName", JStr "Bob")]]);
        ("clientData", JArr []);
        ("memberships", JArr [my_membership; membership_to "contactGroups/gb"])].

(** Account [a] holds Ann and Bob, account [b] holds Ann only: Bob's tag
    is missing in [b]. *)
Definition del_world : Sim.Service :=
  Sim.mkService
    [("a", [Sim.person "people/a1" "e1" "Ann" (Some "t1") "50" [];
            Sim.person "people/a2" "e2" "Bob" (Some "t2") "200" []]);
     ("b", [Sim.person "people/b1" "e3" "Ann" (Some "t1") "300" []])]
    [] [] 1000 0.

Definition del_loaded : St Sim.env :=
  ltac:(evaluated (snd (load Sim.env 5 (start Sim.env del_world demo_config)))).

Definition del_done : St Sim.env :=
  ltac:(evaluated (snd (delete_contacts Sim.env 5 ["a"; "b"] del_loaded))).


(** The addition turn of Bob, the untagged contact of [a], in the loaded
    state: the tag is minted and written, Bob is fetched, then copied. *)
Definition bob_entry : string * ContactInfo :=
  ("people/a2", mkInfo "e2" None (Some 200%Z) "Bob").

Definition bob_tag : string :=
  ltac:(let v := eval vm_compute in
                 (match fst (newTag Sim.env 5 demo_loaded) with Ok t => t | _ => "" end) in
        exact v).

Definition add_tagged : St Sim.env :=
  ltac:(evaluated (snd (newTag Sim.env 5 demo_loaded))).

Definition add_written : St Sim.env :=
  ltac:(evaluated (snd (updateTag Sim.env 5 "a" "people/a2" bob_tag add_tagged))).

Definition bob_fetched : Json :=
  ltac:(let v := eval vm_compute in
                 (match fst (Contacts_get Sim.env 5 "a" "people/a2" add_written) with
                  | Ok f => f
                  | _ => JNull
                  end) in
        exact v).

Definition add_fetched : St Sim.env :=
  ltac:(evaluated (snd (Contacts_get Sim.env 5 "a" "people/a2" add_written))).

Definition add_done : St Sim.env :=
  ltac:(evaluated (snd (add_contact Sim.env 5 ["a"; "b"] "a" [] bob_entry demo_loaded))).

Definition bob_copy : Json :=
  ltac:(let v := eval vm_compute in
                 (match copy_for (con demo_loaded) "a" bob_fetched "b" with
                  | Return b => b
                  | Raise _ => JNull
                  end) in
        exact v).
(** *** The update step *)

(** The entry [kv] of the cache of account [u] is a candidate for the tag
    [t]: it carries [t], was updated after the watermark and was not added
    in this run. *)
Definition is_candidate (added : list (string * string)) (lastUpdate : Date) (u t : string)
           (kv : string * ContactInfo) : bool :=
  match tag (snd kv) with
  | Some t' =>
      (t' =? t) && negb (t' =? "") && date_gt (updated (snd kv)) lastUpdate
      && negb (wasAdded added u (fst kv))
  | None => false
  end.

(** The candidates for [t], in the order they are met: account by
    account, entry by entry. *)
Definition candidates (added : list (string * string)) (lastUpdate : Date) (t : string)
           (caches : list (string * Info)) : list Cand :=
  flat_map (fun ui => map (fun kv => mkCand (fst ui) (fst kv) (updated (snd kv)))
                          (filter (is_candidate added lastUpdate (fst ui) t) (snd ui)))
           caches.

(** [c] is the first of the candidates [val] with the latest update:
    those before it are strictly older, those after it are not newer. *)
Definition first_newest (val : list Cand) (c : Cand) : Prop :=
  exists l1 l2,
    val = l1 ++ c :: l2
    /\ (forall c', In c' l1 -> date_gt (cand_updated c) (cand_updated c') = true)
    /\ (forall c', In c' l2 -> date_ge (cand_updated c) (cand_updated c') = true).

(** The candidates already noted for a tag, and the new ones. *)
Definition merge (o : option (list Cand)) (l : list Cand) : option (list Cand) :=
  match l with
  | [] => o
  | _ => Some (match o with Some v => v | None => [] end ++ l)
  end.

(** The request of [update], inside its retry wrapper. *)
Definition update_request {E : Env} (u rn : string) (body : Json) : M E unit :=
  bind (account E u)
       (fun c => match cached_etag (info c) rn with
                 | None => throw (new_Error ("Missing etag for " ++ rn))
                 | Some et =>
                     bind (call E u (UpdateContact rn (join "," allUpdatePersonFields)
                                       (JObj (obj_set "etag" (JStr et) (entries body)))))
                          (fun p => bind (withTimeout E p ("Timeout updating contact " ++ rn
                                                           ++ " for " ++ u))
                                         (fun _ => ret tt))
                 end).

(** Ann is known to both accounts and was edited in both after the
    watermark (100): at 200 in [a], at 300 in [b]. *)
Definition lww_world : Sim.Service :=
  Sim.mkService
    [("a", [Sim.person "people/a1" "e1" "Ann" (Some "t1") "200" []]);
     ("b", [Sim.person "people/b1" "e3" "Ann B." (Some "t1") "300" []])]
    [] [] 1000 0.

Definition lww_loaded : St Sim.env :=
  ltac:(evaluated (snd (load Sim.env 5 (start Sim.env lww_world demo_config)))).

Definition lww_done : St Sim.env :=
  ltac:(evaluated (snd (update_contacts Sim.env 5 ["a"; "b"] [] (Some 100%Z) lww_loaded))).

Definition ann_a : Cand := mkCand "a" "people/a1" (Some 200%Z).
Definition ann_b : Cand := mkCand "b" "people/b1" (Some 300%Z).


(** The turn of the tag [t1]: Ann is fetched from [b], where she was edited
    last, and copied to [a]. *)
Definition ann_fetched : Json :=
  ltac:(let v := eval vm_compute in
                 (match fst (Contacts_get Sim.env 5 "b" "people/b1" lww_loaded) with
                  | Ok f => f
                  | _ => JNull
                  end) in
        exact v).

Definition lww_fetched : St Sim.env :=
  ltac:(evaluated (snd (Contacts_get Sim.env 5 "b" "people/b1" lww_loaded))).

Definition ann_copy : Json :=
  ltac:(let v := eval vm_compute in
                 (match copy_for (con lww_loaded) "b" ann_fetched "a" with
                  | Return b => b
                  | Raise _ => JNull
                  end) in
        exact v).

(* ================================================================== *)
(** ** More of the sources, and more vocabulary *)
(* ================================================================== *)

(** Beside the vocabulary of the further properties, this part embeds what
    the run leaves to the file system and to the other commands:
    - [sync.ts], [rotateBackups]: the renames in the backups directory;
    - [backup.ts], [writeBackupV2], and [restore.ts], [isBackupV2]. *)

(** *** Values without volatile metadata *)

(** An object has no [metadata] key; the items of an array have none. *)
Definition no_metadata (v : Json) : Prop :=
  match v with
  | JObj kvs => assoc "metadata" kvs = None
  | _ => True
  end.

Definition clean (v : Json) : Prop :=
  match v with
  | JArr xs => Forall no_metadata xs
  | _ => no_metadata v
  end.

(** An array-typed field holds at most one item. *)
Definition at_most_one (v : Json) : Prop :=
  match v with
  | JArr xs => (List.length xs <= 1)%nat
  | _ => True
  end.

(** [kv?.key !== SYNC_TAG] *)
Definition not_sync (kv : Json) : bool := negb (str_eq (prop "key" kv) SYNC_TAG).


(** A cache as [getInfo] builds it: one entry per resource name, none with
    an empty resource name, etag or display name, so that the etag of every
    entry is found again under its resource name. *)
Definition wellformed (i : Info) : Prop :=
  NoDup (map fst i)
  /\ forall rn ci, In (rn, ci) i ->
       rn <> "" /\ etag ci <> "" /\ name ci <> ""
       /\ assoc rn i = Some ci
       /\ cached_etag i rn = Some (etag ci).

(** A field of a body that [updateContact] accepts: a person field, not one
    of the read-only ones, and free of volatile metadata. *)
Definition sendable (kv : string * Json) : Prop :=
  In (fst kv) allPersonFields /\ ~ In (fst kv) strip_bad /\ clean (snd kv).


(** The accounts other than [u] are the same, and [u] has the same
    credentials. *)
Definition same_accounts_but {E : Env} (u : string) (s s' : St E) : Prop :=
  (forall v, v <> u -> acct s' v = acct s v)
  /\ user (acct s' u) = user (acct s u)
  /\ keyfile (acct s' u) = keyfile (acct s u)
  /\ credfile (acct s' u) = credfile (acct s u).

(** *** States of the simulated service for the edge cases *)

(** The request that never settles. *)
Definition stuck : St Sim.env :=
  mkSt Sim.env (Sim.mkService [] [] [Pending] 0 0) [] [] JNull JNull [].

(** The service is busy when account [a] lists its contacts. *)
Definition busy_once : St Sim.env :=
  mkSt Sim.env (Sim.mkService [] [] [busy] 0 0) [] [] JNull JNull [].

(** A configuration whose only account has no credentials file. *)
Definition no_account_config : Json :=
  JObj [("last", JStr "100"); ("backupdays", JNum 0);
        ("accounts", JArr [JObj [("user", JStr "a"); ("keyfile", JStr "key")]])].

(** Two accounts none of whose contacts is tagged. *)
Definition fresh_world : Sim.Service :=
  Sim.mkService
    [("a", [Sim.person "people/a1" "e1" "Ann" None "50" []]);
     ("b", [])]
    [("a", [Sim.group "contactGroups/ga" "e4" "Fam" (Some "g1") "10"])]
    [] 1000 0.

Definition fresh_loaded : St Sim.env :=
  ltac:(evaluated (snd (load Sim.env 5 (start Sim.env fresh_world demo_config)))).

(** Every event. *)
Definition any_event (e : Event) : Prop := True.

(** [usedTags] is a set that only grows. *)
Definition used_grows {E : Env} (s s' : St E) : Prop :=
  incl (usedTags s) (usedTags s') /\ (NoDup (usedTags s) -> NoDup (usedTags s')).

(** The remote writes of the seeding: entities created in the new accounts. *)
Definition seeds (newCon : list string) (e : Event) : Prop :=
  match e with
  | ECall u r =>
      is_write r = false
      \/ (In u newCon
          /\ match r with CreateContact _ | GroupsCreate _ => True | _ => False end)
  | _ => True
  end.

(** A configuration whose [backupdays] is written as a string. *)
Definition days_as_string : Json :=
  JObj [("last", JStr "100"); ("backupdays", JStr "3"); ("accounts", JArr [])].

(** The events of the deletion step of the contact groups, [c0] being the
    caches and [D] the tags to delete when it starts. *)
Definition deletes_groups (c0 : list (string * Contacts)) (D : list string) (e : Event) : Prop :=
  match e with
  | ECall u (GroupsDelete rn) =>
      exists t, In t D /\ tagToRnContactGroup (infoGroup (lookup_account u c0)) t
                          = Return (Some rn)
  | ECall _ r => is_write r = false
  | _ => True
  end.

(** The request of [deleteContactGroup]. *)
Definition group_delete_request {E : Env} (u rn : string) : M E unit :=
  bind (call E u (GroupsDelete rn)) (fun p => bind (await E p) (fun _ => ret tt)).

(** Account [a] holds the groups Fam and Club, account [b] holds Fam only:
    Club's tag is missing in [b]. *)
Definition gdel_world : Sim.Service :=
  Sim.mkService
    [("a", [Sim.person "people/a1" "e1" "Ann" (Some "t1") "50" []]);
     ("b", [Sim.person "people/b1" "e3" "Ann" (Some "t1") "300" []])]
    [("a", [Sim.group "contactGroups/ga" "e4" "Fam" (Some "g1") "10";
            Sim.group "contactGroups/gc" "e6" "Club" (Some "g2") "10"]);
     ("b", [Sim.group "contactGroups/gb" "e5" "Fam" (Some "g1") "10"])]
    [] 1000 0.

Definition gdel_loaded : St Sim.env :=
  ltac:(evaluated (snd (load Sim.env 5 (start Sim.env gdel_world demo_config)))).

Definition gdel_done : St Sim.env :=
  ltac:(evaluated (snd (delete_groups Sim.env 5 ["a"; "b"] gdel_loaded))).

(** *** The backups directory *)

(** The numbered snapshot files of the backups directory: slot [i] holds
    the content of [i.bak], if the file exists; the content is the value
    that was serialised into the file. *)
Definition Backups : Type := nat -> option Json.

(** [fileExists(path)] *)
Definition fileExists (i : nat) (d : Backups) : bool :=
  match d i with Some _ => true | None => false end.

(** [rm(path)] *)
Definition fs_rm (i : nat) (d : Backups) : Backups :=
  fun j => if (j =? i)%nat then None else d j.

(** [rename(from, to)] *)
Definition fs_rename (from to : nat) (d : Backups) : Backups :=
  fun j => if (j =? to)%nat then d from else if (j =? from)%nat then None else d j.

(** [writeFile(path, data)] *)
Definition fs_write (i : nat) (v : Json) (d : Backups) : Backups :=
  fun j => if (j =? i)%nat then Some v else d j.

(** The loop of [rotateBackups]:
    [for (let i = backupDays - 1; i >= 1; i--) if (fileExists(from)) rename(from, to)]. *)
Fixpoint rotate_loop (i : nat) (d : Backups) : Backups :=
  match i with
  | O => d
  | S i' => rotate_loop i' (if fileExists i d then fs_rename i (S i) d else d)
  end.

(** What [rotateBackups(cdir, backupDays)] does to the directory. *)
Definition rotate_files (backupDays : Z) (d : Backups) : Backups :=
  if (backupDays <=? 0)%Z then d
  else
    let n := Z.to_nat backupDays in
    rotate_loop (n - 1) (if fileExists n d then fs_rm n d else d).

(** What an event of a run does to the directory: [rotateBackups] renames,
    [writeBackupV2] writes [1.bak]. *)
Definition backups_step (d : Backups) (e : Event) : Backups :=
  match e with
  | ERotateBackups n => rotate_files n d
  | EWriteBackup v => fs_write 1 v d
  | _ => d
  end.

Definition backups_after (t : list Event) (d : Backups) : Backups :=
  fold_left backups_step t d.

(** An event that leaves the directory alone. *)
Definition leaves_backups (e : Event) : Prop :=
  match e with
  | ERotateBackups _ | EWriteBackup _ => False
  | _ => True
  end.

(** restore.ts, [isBackupV2(x)]:
    [x && typeof x === "object" && x.version === 2
       && typeof x.createdAt === "string" && x.accounts] *)
Definition isBackupV2 (x : Json) : bool :=
  truthy x
  && match x with JObj _ | JArr _ => true | _ => false end
  && num_eq (prop "version" x) 2
  && is_string (prop "createdAt" x)
  && truthy (prop "accounts" x).

(** A configuration that keeps three days of backups, and a directory
    that holds the snapshots of the last two runs. *)
Definition backup_config : Json :=
  JObj [("last", JStr "100"); ("backupdays", JNum 3);
        ("accounts", JArr [JObj [("user", JStr "a"); ("keyfile", JStr "key");
                                 ("credfile", JStr "cred")]])].

Definition backup_loaded : St Sim.env :=
  mkSt Sim.env demo_world [("a", mkContacts "a" "key" "cred" [] [])] []
       backup_config backup_config [].

Definition old_backups : Backups :=
  fun j => match j with
           | 1 => Some (JStr "yesterday")
           | 2 => Some (JStr "the day before")
           | 3 => Some (JStr "three days ago")
           | _ => None
           end%nat.

(** *** Copies of contact groups *)

(** [cd.some((i) => i?.key === SYNC_TAG)] on the [clientData] of a group. *)
Definition has_sync_key (group : Json) : bool :=
  existsb (fun i => str_eq (prop "key" i) SYNC_TAG)
          (items (coalesce (prop "clientData" group) (JArr []))).

(** The events of the addition step of the contact groups: a created group
    has the name and the client data of a group that carries a sync tag,
    and nothing else; the only other group write is the write of a tag;
    no contact is written and nothing is deleted. *)
Definition group_copies (e : Event) : Prop :=
  match e with
  | ECall _ (GroupsCreate body) =>
      exists group,
        has_sync_key group = true
        /\ body = JObj [("contactGroup", JObj [("name", prop "name" group);
                                               ("clientData", prop "clientData" group)]);
                        ("readGroupFields", JStr readGroupFields)]
  | ECall _ (GroupsUpdate _ body) => prop "updateGroupFields" body = JStr "clientData"
  | ECall _ r => is_write r = false
  | _ => True
  end.

(** The events of the update step of the contact groups: an updated group
    receives an etag and a name, and nothing else; there is no other
    remote write. *)
Definition group_renames (e : Event) : Prop :=
  match e with
  | ECall _ (GroupsUpdate _ body) =>
      exists et nm,
        body = JObj [("contactGroup", JObj [("etag", et); ("name", nm)]);
                     ("readGroupFields", JStr readGroupFields)]
  | ECall _ r => is_write r = false
  | _ => True
  end.

(** The events of one call of [update]: attempts that send [req], and the
    sleeps between them. *)
Definition attempts_of (u : string) (req : Request) (e : Event) : Prop :=
  match e with
  | ECall u' r => u' = u /\ r = req
  | ESleep _ => True
  | _ => False
  end.

(** The service answers the first update of Ann in account [b] with a
    conflict, twice. *)
Definition conflict : Settled := Rejected (JObj [("code", JNum 409)]).

Definition conflicts_twice : St Sim.env :=
  mkSt Sim.env
       (Sim.mkService (Sim.people (world demo_loaded)) (Sim.groups (world demo_loaded))
                      [conflict; conflict] 1000 0)
       (con demo_loaded) [] demo_config demo_config [].

(** The cache of account [a] holds an etag of its group Fam that the
    service has replaced; the service refuses the write with a conflict
    that names the etag. *)
Definition stale_cache : St Sim.env :=
  mkSt Sim.env gdel_world
       [("a", mkContacts "a" "key" "cred" []
                         [("contactGroups/ga", mkInfo "old" (Some "g1") (Some 5%Z) "Fam")])]
       [] demo_config demo_config [].

Definition etag_conflict : Json :=
  JObj [("code", JNum 409); ("message", JStr "etag mismatch")].

(** *** The legacy configuration *)

(** A legacy file with two accounts, one of them incomplete. *)
Definition legacy_ini : Ini :=
  [("DEFAULT", [("last", "100"); ("backupdays", "3")]);
   ("account-a", [("user", "a"); ("keyfile", "key"); ("credfile", "cred")]);
   ("account-b", [("user", "b"); ("keyfile", "key")])].

(** *** The init mode *)

(** The events of a turn of the init mode that pushes the contact
    [fetched]: a created contact has the body [fetched], as it is; an
    updated contact is written a tag, or the body [fetched] and an etag
    under the update mask of [update]; there is no other remote write. *)
Definition init_copy_of (fetched : Json) (e : Event) : Prop :=
  match e with
  | ECall _ (CreateContact body) => body = fetched
  | ECall _ (UpdateContact _ fields requestBody) =>
      fields = "clientData"
      \/ (fields = join "," allUpdatePersonFields
          /\ exists et, requestBody = JObj (obj_set "etag" (JStr et) (entries fetched)))
  | ECall _ r => is_write r = false
  | _ => True
  end.

(** The events of such a turn before the fetch: the only remote write is
    the write of the tag on the contact [rn] of [u]. *)
Definition init_tag_write (u rn : string) (e : Event) : Prop :=
  match e with
  | ECall u' (UpdateContact rn' fields _) => u' = u /\ rn' = rn /\ fields = "clientData"
  | ECall _ r => is_write r = false
  | _ => True
  end.

(** The turn of the init mode for Bob, who is in a group of [a] and unknown
    to [b]. *)
Definition init_bob : string * ContactInfo :=
  ("people/a2", mkInfo "e2" None (Some 200%Z) "Bob").

Definition init_tagged : St Sim.env :=
  ltac:(evaluated (snd (init_tag Sim.env 5 "a" init_bob demo_loaded))).

Definition init_bob_fetched : Json :=
  ltac:(let v := eval vm_compute in
                 (match fst (Contacts_get Sim.env 5 "a" "people/a2" init_tagged) with
                  | Ok f => f
                  | _ => JNull
                  end) in
        exact v).

Definition init_fetched : St Sim.env :=
  ltac:(evaluated (snd (Contacts_get Sim.env 5 "a" "people/a2" init_tagged))).

Definition init_pushed : St Sim.env :=
  ltac:(evaluated (snd (init_push Sim.env 5 (mkOpts true None) ["a"; "b"] "a" [] init_bob
                                  demo_loaded))).

(** *** The snapshot *)

(** An entry of [contactsByTag] that [restore] can write back: it is filed
    under its own tag, which is not empty, and its body is an object that
    carries this tag, and this tag only, and no membership but the default
    one. *)
Definition restorable (kv : string * Json) : Prop :=
  fst kv <> ""
  /\ prop "tag" (snd kv) = JStr (fst kv)
  /\ (exists kvs, prop "body" (snd kv) = JObj kvs)
  /\ tagls (prop "body" (snd kv)) = [fst kv]
  /\ Forall (fun m => membership_rn m = JStr MY_CONTACTS) (memberships (prop "body" (snd kv))).

(* ================================================================== *)
(** ** Lemmas on objects and sets *)
(* ================================================================== *)

Lemma assoc_obj_set {A : Type} (k k' : string) (v : A) (m : list (string * A)) :
  assoc k' (obj_set k v m) = if k =? k' then Some v else assoc k' m.
Proof.
  induction m as [|[k0 v0] m IH]; simpl.
  - destruct (k =? k') eqn:Hk; reflexivity.
  - destruct (k0 =? k) eqn:H0; simpl.
    + apply String.eqb_eq in H0; subst k0.
      destruct (k =? k'); reflexivity.
    + rewrite IH. destruct (k0 =? k') eqn:H1; [|reflexivity].
      apply String.eqb_eq in H1; subst k0. rewrite String.eqb_sym, H0. reflexivity.
Qed.

Lemma set_has_In (s : list string) (x : string) : set_has s x = true <-> In x s.
Proof.
  unfold set_has. rewrite existsb_exists. split.
  - intros [y [Hy He]]. apply String.eqb_eq in He. subst; assumption.
  - intros H. exists x. split; [assumption | apply String.eqb_refl].
Qed.

Lemma set_has_false (s : list string) (x : string) : set_has s x = false <-> ~ In x s.
Proof.
  rewrite <- set_has_In. destruct (set_has s x); split; congruence.
Qed.

Lemma In_set_add (s : list string) (x y : string) : In y (set_add s x) <-> In y s \/ y = x.
Proof.
  unfold set_add. destruct (set_has s x) eqn:H.
  - apply set_has_In in H. split; [auto | intros [?|?]; subst; auto].
  - rewrite in_app_iff. simpl. intuition.
Qed.

Lemma In_fold_set_add (xs s : list string) (y : string) :
  In y (fold_left set_add xs s) <-> In y s \/ In y xs.
Proof.
  revert s. induction xs as [|x xs IH]; intros s; simpl.
  - tauto.
  - rewrite IH, In_set_add. intuition.
Qed.

Lemma In_set_of (xs : list string) (y : string) : In y (set_of xs) <-> In y xs.
Proof. unfold set_of. rewrite In_fold_set_add. simpl. tauto. Qed.

(* ================================================================== *)
(** ** The tag lookups *)
(* ================================================================== *)

Lemma carries_tag (t : string) (kv : string * ContactInfo) :
  carries t kv = true <-> tag (snd kv) = Some t.
Proof.
  unfold carries. destruct (tag (snd kv)) as [t'|].
  - rewrite String.eqb_eq. split; [intros ->; reflexivity | intros H; inversion H; reflexivity].
  - split; discriminate.
Qed.

Lemma carries_none (t : string) (i : Info) :
  filter (carries t) i = [] <-> tag_absent t i.
Proof.
  unfold tag_absent. split.
  - intros H rn ci Hin Ht.
    assert (Hf : In (rn, ci) (filter (carries t) i)).
    { apply filter_In. split; [exact Hin|]. apply carries_tag. exact Ht. }
    rewrite H in Hf. destruct Hf.
  - intros H. induction i as [|[rn ci] i IH]; [reflexivity|]. simpl.
    destruct (carries t (rn, ci)) eqn:Hc.
    + apply carries_tag in Hc. exfalso. apply (H rn ci); [left; reflexivity | exact Hc].
    + apply IH. intros rn' ci' Hin. apply (H rn' ci'). right. exact Hin.
Qed.

Lemma filter_first {A : Type} (f : A -> bool) (l : list A) (x : A) (r : list A) :
  filter f l = x :: r ->
  exists l1 l2, l = l1 ++ x :: l2 /\ filter f l1 = [] /\ f x = true /\ filter f l2 = r.
Proof.
  induction l as [|a l IH]; simpl; [discriminate|].
  destruct (f a) eqn:Ha.
  - intros H. inversion H; subst. exists [], l. auto.
  - intros H. destruct (IH H) as (l1 & l2 & -> & H1 & Hx & H2).
    exists (a :: l1), l2. simpl. rewrite Ha. auto.
Qed.

Lemma tag_absent_app (t : string) (l1 l2 : Info) :
  tag_absent t (l1 ++ l2) <-> tag_absent t l1 /\ tag_absent t l2.
Proof.
  unfold tag_absent. split.
  - intros H. split; intros rn ci Hin; apply (H rn ci); apply in_or_app; auto.
  - intros [H1 H2] rn ci Hin. apply in_app_or in Hin. destruct Hin; eauto.
Qed.

Lemma carries_once (t : string) (i : Info) (rn : string) :
  rns_with_tag i t = [rn] <-> tag_once t i rn.
Proof.
  unfold rns_with_tag, tag_once. split.
  - intros H. destruct (filter (carries t) i) as [|[rn0 ci] [|kv r]] eqn:Hf; try discriminate.
    simpl in H. inversion H; subst rn0.
    destruct (filter_first _ _ _ _ Hf) as (l1 & l2 & -> & H1 & Hx & H2).
    exists l1, ci, l2. split; [reflexivity|].
    split; [apply carries_tag in Hx; exact Hx|].
    apply tag_absent_app. split; apply carries_none; assumption.
  - intros (l1 & ci & l2 & -> & Ht & Hab).
    apply tag_absent_app in Hab. destruct Hab as [H1 H2].
    apply carries_none in H1, H2.
    rewrite filter_app. simpl. rewrite H1, H2.
    assert (Hc : carries t (rn, ci) = true) by (apply carries_tag; exact Ht).
    rewrite Hc. reflexivity.
Qed.

Lemma carries_several (t : string) (i : Info) :
  (exists a b r, rns_with_tag i t = a :: b :: r) <-> tag_several t i.
Proof.
  unfold rns_with_tag, tag_several. split.
  - intros (a & b & r & H).
    destruct (filter (carries t) i) as [|[rn1 ci1] [|[rn2 ci2] r']] eqn:Hf; try discriminate.
    destruct (filter_first _ _ _ _ Hf) as (l1 & l2 & -> & _ & Hx & H2).
    destruct (filter_first _ _ _ _ H2) as (l3 & l4 & -> & _ & Hy & _).
    exists l1, rn1, ci1, l3, rn2, ci2, l4.
    apply carries_tag in Hx, Hy. split; [reflexivity|]. split; assumption.
  - intros (l1 & rn1 & ci1 & l2 & rn2 & ci2 & l3 & -> & H1 & H2).
    assert (Hin1 : In (rn1, ci1) (filter (carries t)
                      (l1 ++ (rn1, ci1) :: l2 ++ (rn2, ci2) :: l3))).
    { apply filter_In. split; [|apply carries_tag; exact H1].
      apply in_or_app. right. left. reflexivity. }
    rewrite filter_app in *. simpl in *.
    assert (Hc1 : carries t (rn1, ci1) = true) by (apply carries_tag; exact H1).
    assert (Hc2 : carries t (rn2, ci2) = true) by (apply carries_tag; exact H2).
    rewrite Hc1. rewrite filter_app. simpl. rewrite Hc2.
    rewrite map_app. simpl. rewrite map_app. simpl.
    destruct (map fst (filter (carries t) l1)) as [|a [|b r]]; simpl.
    + destruct (map fst (filter (carries t) l2)) as [|b r]; simpl; eauto.
    + eauto.
    + eauto.
Qed.

(** The three outcomes of a lookup, by what the cache holds. *)
Lemma lookup_outcomes (i : Info) (t : string) :
  (tagToRn i t = Return None <-> tag_absent t i)
  /\ (forall rn, tagToRn i t = Return (Some rn) <-> tag_once t i rn)
  /\ ((exists e, tagToRn i t = Raise e) <-> tag_several t i).
Proof.
  unfold tagToRn.
  split; [|split].
  - rewrite <- carries_none. unfold rns_with_tag.
    destruct (filter (carries t) i) as [|kv [|kv' r]]; simpl; split; try discriminate; auto.
  - intros rn. rewrite <- carries_once.
    destruct (rns_with_tag i t) as [|a [|b r]]; split; intros H; try discriminate;
      inversion H; reflexivity.
  - rewrite <- carries_several.
    destruct (rns_with_tag i t) as [|a [|b r]]; split.
    + intros [e H]. discriminate.
    + intros (a & b & r & H). discriminate.
    + intros [e H]. discriminate.
    + intros (a' & b & r & H). discriminate.
    + intros _. eauto.
    + intros _. eauto.
Qed.

Lemma group_lookup_outcomes (i : Info) (t : string) :
  (tagToRnContactGroup i t = Return None <-> tag_absent t i)
  /\ (forall rn, tagToRnContactGroup i t = Return (Some rn) <-> tag_once t i rn)
  /\ ((exists e, tagToRnContactGroup i t = Raise e) <-> tag_several t i).
Proof.
  unfold tagToRnContactGroup.
  split; [|split].
  - rewrite <- carries_none. unfold rns_with_tag.
    destruct (filter (carries t) i) as [|kv [|kv' r]]; simpl; split; try discriminate; auto.
  - intros rn. rewrite <- carries_once.
    destruct (rns_with_tag i t) as [|a [|b r]]; split; intros H; try discriminate;
      inversion H; reflexivity.
  - rewrite <- carries_several.
    destruct (rns_with_tag i t) as [|a [|b r]]; split.
    + intros [e H]. discriminate.
    + intros (a & b & r & H). discriminate.
    + intros [e H]. discriminate.
    + intros (a' & b & r & H). discriminate.
    + intros _. eauto.
    + intros _. eauto.
Qed.

(** C8.  The tag-to-id lookup, on contacts and on groups, is decided by the
    tags stored in the cache: it returns [null] exactly when no entry has
    the tag, the resource name [rn] exactly when the entry under [rn] has it
    and no other entry does, and it throws exactly when two entries at
    least have it.  When no entry of the cache has the tag, the tag-keyed
    [delete] and [update] (and their group versions) return at once: no
    request is sent and the state is the one they started in. *)
Theorem tag_lookup_uniqueness :
  (forall (i : Info) (t : string),
      (tagToRn i t = Return None <-> tag_absent t i)
      /\ (forall rn, tagToRn i t = Return (Some rn) <-> tag_once t i rn)
      /\ ((exists e, tagToRn i t = Raise e) <-> tag_several t i))
  /\ (forall (g : Info) (t : string),
         (tagToRnContactGroup g t = Return None <-> tag_absent t g)
         /\ (forall rn, tagToRnContactGroup g t = Return (Some rn) <-> tag_once t g rn)
         /\ ((exists e, tagToRnContactGroup g t = Raise e) <-> tag_several t g))
  /\ (forall (E : Env) (fuel : nat) (u t : string) (body : Json) (s : St E),
         tag_absent t (info (acct s u)) ->
         Contacts_delete E fuel u t s = (Ok tt, s)
         /\ Contacts_update E fuel u t body s = (Ok tt, s))
  /\ (forall (E : Env) (fuel : nat) (u t : string) (body : Json) (s : St E),
         tag_absent t (infoGroup (acct s u)) ->
         deleteContactGroup E fuel u t s = (Ok tt, s)
         /\ updateContactGroup E fuel u t body s = (Ok tt, s)).
Proof.
  split; [exact lookup_outcomes|].
  split; [exact group_lookup_outcomes|].
  split; intros E fuel u t body s H.
  - apply (proj1 (lookup_outcomes _ _)) in H.
    unfold Contacts_delete, Contacts_update, account, bind, get_con, ret, lift.
    unfold acct in H. rewrite H. split; reflexivity.
  - apply (proj1 (group_lookup_outcomes _ _)) in H.
    unfold deleteContactGroup, updateContactGroup, account, bind, get_con, ret, lift.
    unfold acct in H. rewrite H. split; reflexivity.
Qed.

Lemma tag_lookup_uniqueness_witness :
  (tag_once "t1" (info (acct demo_loaded "a")) "people/a1"
   /\ tagToRn (info (acct demo_loaded "a")) "t1" = Return (Some "people/a1"))
  /\ (tag_once "g1" (infoGroup (acct demo_loaded "b")) "contactGroups/gb"
      /\ tagToRnContactGroup (infoGroup (acct demo_loaded "b")) "g1"
         = Return (Some "contactGroups/gb"))
  /\ (tag_several "t1" twins /\ exists e, tagToRn twins "t1" = Raise e)
  /\ (tag_absent "zz" (info (acct demo_loaded "a"))
      /\ Contacts_delete Sim.env 5 "a" "zz" demo_loaded = (Ok tt, demo_loaded)
      /\ Contacts_update Sim.env 5 "a" "zz" (JObj []) demo_loaded = (Ok tt, demo_loaded))
  /\ (tag_absent "zz" (infoGroup (acct demo_loaded "a"))
      /\ deleteContactGroup Sim.env 5 "a" "zz" demo_loaded = (Ok tt, demo_loaded)
      /\ updateContactGroup Sim.env 5 "a" "zz" (JObj []) demo_loaded = (Ok tt, demo_loaded)).
Proof.
  assert (Ha : tag_once "t1" (info (acct demo_loaded "a")) "people/a1").
  { exists [], (mkInfo "e1" (Some "t1") (Some 50%Z) "Ann"),
      [("people/a2", mkInfo "e2" None (Some 200%Z) "Bob")].
    split; [reflexivity|]. split; [reflexivity|].
    intros rn ci [H|[]]. inversion H; subst. discriminate. }
  assert (Hg : tag_once "g1" (infoGroup (acct demo_loaded "b")) "contactGroups/gb").
  { exists [], (mkInfo "e5" (Some "g1") (Some 10%Z) "Fam"), [].
    split; [reflexivity|]. split; [reflexivity|]. intros rn ci []. }
  assert (Ht : tag_several "t1" twins).
  { exists [], "people/x1", (mkInfo "e1" (Some "t1") None "Ann"),
      [("people/x2", mkInfo "e2" None None "Bob")],
      "people/x3", (mkInfo "e3" (Some "t1") None "Ann B."), [].
    split; [reflexivity|]. split; reflexivity. }
  assert (Hz : tag_absent "zz" (info (acct demo_loaded "a"))).
  { intros rn ci [H|[H|[]]]; inversion H; subst; discriminate. }
  assert (Hzg : tag_absent "zz" (infoGroup (acct demo_loaded "a"))).
  { intros rn ci [H|[]]; inversion H; subst; discriminate. }
  destruct tag_lookup_uniqueness as (Hc & Hgr & Hno & Hnog).
  split; [split; [exact Ha | apply (proj1 (proj2 (Hc _ _)) _); exact Ha]|].
  split; [split; [exact Hg | apply (proj1 (proj2 (Hgr _ _)) _); exact Hg]|].
  split; [split; [exact Ht | apply (proj2 (proj2 (Hc _ _))); exact Ht]|].
  split; [split; [exact Hz | apply (Hno Sim.env 5 "a" "zz" (JObj []) demo_loaded Hz)]|].
  split; [exact Hzg | apply (Hnog Sim.env 5 "a" "zz" (JObj []) demo_loaded Hzg)].
Defined.
(* ================================================================== *)
(** ** Building the store *)
(* ================================================================== *)

Lemma display_name_needs_a_field (p : Json) :
  truthy (prop "names" p) = false -> truthy (prop "organizations" p) = false ->
  display_name p = JUndef.
Proof.
  unfold display_name. intros Hn Ho.
  destruct (prop "names" p); simpl in Hn; try discriminate;
    destruct (prop "organizations" p); simpl in Ho; try discriminate; reflexivity.
Qed.

Lemma contact_entry_stored (parse : string -> option Z) (p : Json) (rn : string)
      (ci : ContactInfo) :
  contact_entry parse p = Some (rn, ci) <->
  exists nm et,
    display_name p = JStr nm /\ nm <> ""
    /\ str_field "resourceName" p = Some rn /\ rn <> ""
    /\ str_field "etag" p = Some et /\ et <> ""
    /\ ci = {| etag := et;
               tag := hd_error (tagls p);
               updated := updated_of parse
                            (prop "updateTime" (idx 0 (prop "sources" (prop "metadata" p))));
               name := nm |}.
Proof.
  unfold contact_entry. split.
  - destruct (negb (truthy (prop "names" p)) && negb (truthy (prop "organizations" p)));
      [discriminate|].
    destruct (display_name p) as [| | | |nm| |]; try discriminate.
    destruct (nm =? "") eqn:Hnm; [discriminate|].
    destruct (str_field "resourceName" p) as [rn'|]; [|discriminate].
    destruct (str_field "etag" p) as [et|]; [|discriminate].
    destruct (rn' =? "") eqn:Hrn; [discriminate|].
    destruct (et =? "") eqn:Het; [discriminate|]. simpl.
    intros H. inversion H; subst. exists nm, et.
    apply String.eqb_neq in Hnm, Hrn, Het. repeat split; auto.
  - intros (nm & et & Hd & Hnm & Hrn & Hrn' & Het & Het' & ->).
    destruct (negb (truthy (prop "names" p)) && negb (truthy (prop "organizations" p))) eqn:Hc.
    + apply andb_true_iff in Hc. destruct Hc as [H1 H2].
      apply negb_true_iff in H1, H2.
      rewrite (display_name_needs_a_field p H1 H2) in Hd. discriminate.
    + rewrite Hd, Hrn, Het.
      apply String.eqb_neq in Hnm, Hrn', Het'. rewrite Hnm, Hrn', Het'. reflexivity.
Qed.

Lemma group_entry_stored (parse : string -> option Z) (g : Json) (rn : string)
      (ci : ContactInfo) :
  group_entry parse g = Some (rn, ci) <->
  exists et nm,
    prop "groupType" g = JStr "USER_CONTACT_GROUP"
    /\ str_field "resourceName" g = Some rn /\ rn <> ""
    /\ str_field "etag" g = Some et /\ et <> ""
    /\ str_field "name" g = Some nm /\ nm <> ""
    /\ ci = {| etag := et;
               tag := hd_error (tagls g);
               updated := updated_of parse (prop "updateTime" (prop "metadata" g));
               name := nm |}.
Proof.
  unfold group_entry. split.
  - destruct (str_eq (prop "groupType" g) "USER_CONTACT_GROUP") eqn:Ht; [|discriminate].
    simpl.
    destruct (str_field "resourceName" g) as [rn'|]; [|discriminate].
    destruct (str_field "etag" g) as [et|]; [|discriminate].
    destruct (str_field "name" g) as [nm|]; [|discriminate].
    destruct (rn' =? "") eqn:Hrn; [discriminate|].
    destruct (et =? "") eqn:Het; [discriminate|].
    destruct (nm =? "") eqn:Hnm; [discriminate|]. simpl.
    intros H. inversion H; subst. exists et, nm.
    apply String.eqb_neq in Hnm, Hrn, Het.
    unfold str_eq in Ht. destruct (prop "groupType" g); try discriminate.
    apply String.eqb_eq in Ht. subst. repeat split; auto.
  - intros (et & nm & Ht & Hrn & Hrn' & Het & Het' & Hnm & Hnm' & ->).
    rewrite Ht, Hrn, Het, Hnm. simpl.
    apply String.eqb_neq in Hnm', Hrn', Het'. rewrite Hnm', Hrn', Het'. reflexivity.
Qed.

Lemma build_info_last (entry : Json -> option (string * ContactInfo))
      (listing : list Json) (rn : string) :
  assoc rn (build_info entry listing) = last_entry entry rn listing.
Proof.
  unfold build_info, last_entry.
  change (@None ContactInfo) with (assoc rn (@nil (string * ContactInfo))).
  generalize (@nil (string * ContactInfo)) as acc.
  induction listing as [|x l IH]; intros acc; simpl; [reflexivity|].
  rewrite IH. destruct (entry x) as [[rn' ci]|]; [|reflexivity].
  rewrite assoc_obj_set. reflexivity.
Qed.

(** C5, as amended.  A listed contact is stored exactly when it has a
    non-empty display name ([names[0].displayName], else
    [organizations[0].name]), a non-empty resource name and a non-empty
    etag; a listed group exactly when it is a [USER_CONTACT_GROUP] with a
    non-empty resource name, etag and name.  Any other listed entity is
    skipped, and the load goes on.  The store maps a resource name to the
    entry of the last listed entity stored under it. *)
Theorem store_build_rule (parse : string -> option Z) :
  (forall p rn ci,
      contact_entry parse p = Some (rn, ci) <->
      exists nm et,
        display_name p = JStr nm /\ nm <> ""
        /\ str_field "resourceName" p = Some rn /\ rn <> ""
        /\ str_field "etag" p = Some et /\ et <> ""
        /\ ci = {| etag := et;
                   tag := hd_error (tagls p);
                   updated := updated_of parse
                                (prop "updateTime" (idx 0 (prop "sources" (prop "metadata" p))));
                   name := nm |})
  /\ (forall g rn ci,
         group_entry parse g = Some (rn, ci) <->
         exists et nm,
           prop "groupType" g = JStr "USER_CONTACT_GROUP"
           /\ str_field "resourceName" g = Some rn /\ rn <> ""
           /\ str_field "etag" g = Some et /\ et <> ""
           /\ str_field "name" g = Some nm /\ nm <> ""
           /\ ci = {| etag := et;
                      tag := hd_error (tagls g);
                      updated := updated_of parse (prop "updateTime" (prop "metadata" g));
                      name := nm |})
  /\ (forall listing rn,
         assoc rn (build_info (contact_entry parse) listing)
         = last_entry (contact_entry parse) rn listing
         /\ assoc rn (build_info (group_entry parse) listing)
            = last_entry (group_entry parse) rn listing).
Proof.
  split; [intros; apply contact_entry_stored|].
  split; [intros; apply group_entry_stored|].
  intros listing rn. split; apply build_info_last.
Qed.

(** C5 as stated fails: a person with a resource name and no etag is
    skipped although it does not lack both; a person with both and no name
    is skipped too. *)
Lemma store_skip_rule_counterexample :
  ~ (forall (parse : string -> option Z) (p : Json),
        contact_entry parse p = None <->
        has_field "resourceName" p = false /\ has_field "etag" p = false)
  /\ ~ (forall (parse : string -> option Z) (p : Json),
          has_field "resourceName" p = true -> has_field "etag" p = true ->
          contact_entry parse p <> None).
Proof.
  split; intros H.
  - specialize (H Sim.parse
                  (JObj [("resourceName", JStr "people/c1");
                         ("names", JArr [JObj [("displayName", JStr "Ann")]])])).
    destruct H as [H _]. specialize (H eq_refl). destruct H as [H _]. discriminate H.
  - apply (H Sim.parse
             (JObj [("resourceName", JStr "people/c1"); ("etag", JStr "e1")]));
      reflexivity.
Qed.
(* ================================================================== *)
(** ** The retry wrapper *)
(* ================================================================== *)

Lemma retryable_iff (e : Json) :
  retryable e = true <->
  exists n, error_code e = JNum n /\ (n = 429 \/ n = 409 \/ 500 <= n <= 599)%Z.
Proof.
  unfold retryable. destruct (error_code e) as [| | |n| | |]; simpl;
    try (split; [discriminate | intros (n' & H & _); discriminate]).
  rewrite !orb_true_iff, andb_true_iff, !Z.eqb_eq, !Z.leb_le. split.
  - intros H. exists n. split; [reflexivity | tauto].
  - intros (n' & H & H'). inversion H; subst. tauto.
Qed.

Lemma timeout_not_retryable (message : string) : retryable (new_Error message) = false.
Proof. reflexivity. Qed.

Lemma backoff_delay_closed (k : nat) :
  backoff_delay k = Z.min (500 * 2 ^ Z.of_nat k) 30000.
Proof.
  induction k as [|k IH].
  - reflexivity.
  - cbn [backoff_delay]. rewrite IH. unfold next_delay.
    rewrite Nat2Z.inj_succ, Z.pow_succ_r by lia.
    assert (0 < 2 ^ Z.of_nat k)%Z by (apply Z.pow_pos_nonneg; lia). lia.
Qed.

Lemma withBackoff_loop_attempts {E : Env} {A : Type} (fn : M E A) d k s r s' :
  attempts fn d k s r s' ->
  forall n, (k < n)%nat -> withBackoff_loop n fn d s = (r, s').
Proof.
  induction 1 as [d s r s' Hfn Hfin | d k s e s1 r s' Hfn Hre _ IH]; intros n Hn.
  - destruct n as [|n]; [lia|]. simpl. rewrite Hfn.
    destruct r; try reflexivity. simpl in Hfin. rewrite Hfin. reflexivity.
  - destruct n as [|n]; [lia|]. simpl. rewrite Hfn, Hre.
    unfold bind. simpl. apply IH. lia.
Qed.

Lemma withBackoff_never_gives_up {E : Env} {A : Type} (fn : M E A) :
  (forall s, exists e s', fn s = (Throw e, s') /\ retryable e = true) ->
  forall n d s, fst (withBackoff_loop n fn d s) = Diverge.
Proof.
  intros Hfn n. induction n as [|n IH]; intros d s; [reflexivity|].
  simpl. destruct (Hfn s) as (e & s' & H & Hre). rewrite H, Hre.
  unfold bind. simpl. apply IH.
Qed.

Lemma ping_retries (k : nat) :
  forall d (s : St Sim.env),
    Sim.faults (world s) = repeat busy k ->
    exists s', attempts ping d k s (Ok (JObj [])) s'.
Proof.
  induction k as [|k IH]; intros d s Hf.
  - eexists. apply attempts_last; [|exact I].
    unfold ping, bind, call. simpl. unfold Sim.api. rewrite Hf. simpl. reflexivity.
  - destruct (IH (Z.min (d * 2) 30000)
                 (snd (sleep Sim.env d
                         (mkSt Sim.env
                               (Sim.mkService (Sim.people (world s)) (Sim.groups (world s))
                                              (repeat busy k) (Sim.clock (world s))
                                              (Sim.seq (world s)))
                               (con s) (usedTags s) (cfg_data s) (config_file s)
                               (events s ++ [ECall "a" (GetAuthClient "" "")])))))
      as [s' Hs']; [reflexivity|].
    exists s'. eapply attempts_retry; [| |exact Hs'].
    + unfold ping, bind, call. simpl. unfold Sim.api. rewrite Hf. simpl. reflexivity.
    + reflexivity.
Qed.

(** C6.  An error is retried exactly when its code is 429, 409 or a number
    from 500 to 599; an error without such a code (a timeout is one) is
    thrown again at once, without a sleep or a second attempt.  Before the
    retry number [k] the wrapper sleeps [min (500 * 2^k) 30000]
    milliseconds: 500 first, then the double, up to the ceiling; after [k]
    retryable failures it returns what the next attempt gives, for every
    [k]: the number of retries has no bound, and an operation that always
    fails with a retryable error is retried for ever. *)
Theorem retry_classification :
  (forall e : Json,
      retryable e = true <->
      exists n, error_code e = JNum n /\ (n = 429 \/ n = 409 \/ 500 <= n <= 599)%Z)
  /\ (forall message : string, retryable (new_Error message) = false)
  /\ (forall (E : Env) (A : Type) (fn : M E A) (fuel : nat) (s s' : St E) (e : Json),
         fn s = (Throw e, s') -> retryable e = false ->
         withBackoff (S fuel) fn s = (Throw e, s'))
  /\ (forall (E : Env) (A : Type) (fn : M E A) (fuel k : nat) (s s' : St E) (r : Outcome A),
         attempts fn 500 k s r s' -> (k < fuel)%nat ->
         withBackoff fuel fn s = (r, s'))
  /\ (forall k : nat, backoff_delay k = Z.min (500 * 2 ^ Z.of_nat k) 30000)
  /\ (forall k : nat, exists (fn : M Sim.env Json) (s s' : St Sim.env),
         attempts fn 500 k s (Ok (JObj [])) s')
  /\ (forall (E : Env) (A : Type) (fn : M E A),
         (forall s, exists e s', fn s = (Throw e, s') /\ retryable e = true) ->
         forall fuel s, fst (withBackoff fuel fn s) = Diverge).
Proof.
  split; [exact retryable_iff|].
  split; [exact timeout_not_retryable|].
  split.
  { intros E A fn fuel s s' e Hfn Hre. unfold withBackoff. simpl.
    rewrite Hfn, Hre. reflexivity. }
  split.
  { intros E A fn fuel k s s' r H Hk. unfold withBackoff.
    eapply withBackoff_loop_attempts; eassumption. }
  split; [exact backoff_delay_closed|].
  split.
  { intros k.
    destruct (ping_retries k 500
                (mkSt Sim.env (Sim.mkService [] [] (repeat busy k) 0 0) [] [] JNull JNull []))
      as [s' H]; [reflexivity|].
    eexists _, _, _. exact H. }
  intros E A fn H fuel s. apply withBackoff_never_gives_up. exact H.
Qed.

Lemma retry_classification_witness :
  attempts ping 500 2
           busy_twice
           (Ok (JObj []))
           served_at_last
  /\ withBackoff 3 ping busy_twice = (Ok (JObj []), served_at_last).
Proof.
  assert (H : attempts ping 500 2
           busy_twice
           (Ok (JObj []))
           served_at_last).
  { eapply attempts_retry; [reflexivity | reflexivity |].
    eapply attempts_retry; [reflexivity | reflexivity |].
    apply attempts_last; [reflexivity | exact I]. }
  split; [exact H|].
  apply (proj1 (proj2 (proj2 (proj2 retry_classification))) Sim.env Json ping 3 2 _ _ _ H).
  lia.
Defined.

(* ================================================================== *)
(** ** The tag generator *)
(* ================================================================== *)

Section NewTag.
Variable E : Env.

Lemma randomBytes_total (n : nat) (s : St E) :
  exists bs s', randomBytes E n s = (Ok bs, s') /\ List.length bs = n /\ same_but_world s s'.
Proof.
  revert s. induction n as [|n IH]; intros s.
  - exists [], s. repeat split; reflexivity.
  - simpl. unfold bind, random_byte.
    destruct (randomByte E (world s)) as [b w] eqn:Hb.
    destruct (IH (mkSt E w (con s) (usedTags s) (cfg_data s) (config_file s) (events s)))
      as (bs & s' & H & Hl & Hs).
    rewrite H. exists (b :: bs), s'. simpl. split; [reflexivity|]. split; [lia|].
    exact Hs.
Qed.

Lemma tag_of_bytes_length (buf : list Byte.byte) :
  String.length (tag_of_bytes buf) = List.length buf.
Proof.
  unfold tag_of_bytes. induction buf as [|b buf IH]; simpl; [reflexivity|]. f_equal. exact IH.
Qed.

Lemma tag_of_bytes_lower (buf : list Byte.byte) :
  forallb is_lower (list_ascii_of_string (tag_of_bytes buf)) = true.
Proof.
  unfold tag_of_bytes. rewrite list_ascii_of_string_of_list_ascii.
  induction buf as [|b buf IH]; cbn [map forallb]; [reflexivity|]. rewrite IH, andb_true_r.
  unfold is_lower. rewrite nat_ascii_embedding.
  - apply andb_true_iff. split; apply Nat.leb_le.
    + lia.
    + pose proof (Nat.mod_upper_bound (Byte.to_nat b) 26). lia.
  - pose proof (Nat.mod_upper_bound (Byte.to_nat b) 26). lia.
Qed.

Lemma newTag_loop_spec (n : nat) (s : St E) (r : Outcome string) (s' : St E) :
  newTag_loop E n s = (r, s') ->
  match r with
  | Ok t =>
      String.length t = 20%nat
      /\ forallb is_lower (list_ascii_of_string t) = true
      /\ set_has (usedTags s) t = false
      /\ usedTags s' = usedTags s ++ [t]
  | Diverge => True
  | _ => False
  end.
Proof.
  revert s. induction n as [|n IH]; intros s; cbn [newTag_loop].
  - unfold diverge. intros H. inversion H. exact I.
  - unfold bind. destruct (randomBytes_total 20 s) as (bs & s1 & H1 & Hl & Hs).
    rewrite H1. unfold get_usedTags.
    destruct (set_has (usedTags s1) (tag_of_bytes bs)) eqn:Hu.
    + intros H. apply IH in H. destruct Hs as (_ & Hus & _).
      destruct r; auto. rewrite <- Hus. exact H.
    + unfold add_usedTag, ret. intros H. inversion H; subst. cbn [usedTags].
      destruct Hs as (_ & Hus & _). rewrite Hus in *.
      split; [rewrite tag_of_bytes_length; exact Hl|].
      split; [apply tag_of_bytes_lower|].
      split; [exact Hu|].
      unfold set_add. rewrite Hu. reflexivity.
Qed.

End NewTag.

Lemma newTag_loop_total {E : Env} (k : nat) :
  forall (s : St E) (n : nat),
    fresh_after k s -> (k < n)%nat -> exists t s', newTag_loop E n s = (Ok t, s').
Proof.
  induction k as [|k IH]; intros s n Hf Hn; (destruct n as [|n]; [lia|]);
    cbn [newTag_loop fresh_after] in *; unfold bind; destruct (randomBytes_total E 20 s) as (bs & s1 & H1 & Hl & Hs);
    rewrite H1 in *; unfold get_usedTags; destruct Hs as (_ & Hus & _); rewrite Hus.
  - rewrite Hf. unfold add_usedTag, ret. eauto.
  - destruct Hf as [Hu Hf]. rewrite Hu. apply IH; [exact Hf | lia].
Qed.

(** C9.  A tag returned by [newTag] is a string of 20 lowercase ASCII
    letters, is not in the used-tag set of the call, and is added to it on
    return; so two tags minted in one run, the used set only growing in
    between, differ.  [newTag] returns as soon as a draw is new (with the
    fuel for the draws before it), and it never throws. *)
Theorem tag_minting (E : Env) :
  (forall (fuel : nat) (s s' : St E) (t : string),
      newTag E fuel s = (Ok t, s') ->
      String.length t = 20%nat
      /\ forallb is_lower (list_ascii_of_string t) = true
      /\ ~ In t (usedTags s)
      /\ usedTags s' = usedTags s ++ [t])
  /\ (forall (fuel fuel' : nat) (s1 s1' s2 s2' : St E) (t1 t2 : string),
         newTag E fuel s1 = (Ok t1, s1') ->
         incl (usedTags s1') (usedTags s2) ->
         newTag E fuel' s2 = (Ok t2, s2') ->
         t1 <> t2)
  /\ (forall (fuel k : nat) (s : St E),
         fresh_after k s -> (k < fuel)%nat ->
         exists t s', newTag E fuel s = (Ok t, s'))
  /\ (forall (fuel : nat) (s s' : St E) (r : Outcome string),
         newTag E fuel s = (r, s') -> (exists t, r = Ok t) \/ r = Diverge).
Proof.
  split; [|split; [|split]].
  - intros fuel s s' t H. apply newTag_loop_spec in H.
    destruct H as (H1 & H2 & H3 & H4). apply set_has_false in H3. auto.
  - intros fuel fuel' s1 s1' s2 s2' t1 t2 H1 Hincl H2 Heq. subst t2.
    apply newTag_loop_spec in H1, H2.
    destruct H1 as (_ & _ & _ & H1). destruct H2 as (_ & _ & H2 & _).
    apply set_has_false in H2. apply H2, Hincl. rewrite H1.
    apply in_or_app. right. left. reflexivity.
  - intros fuel k s Hf Hk. eapply newTag_loop_total; eassumption.
  - intros fuel s s' r H. apply newTag_loop_spec in H.
    destruct r; try contradiction; eauto.
Qed.

Lemma tag_minting_witness :
  newTag Sim.env 1 demo_loaded = (Ok "abcdefghijklmnopqrst", demo_minted)
  /\ String.length "abcdefghijklmnopqrst" = 20%nat
  /\ forallb is_lower (list_ascii_of_string "abcdefghijklmnopqrst") = true
  /\ ~ In "abcdefghijklmnopqrst" (usedTags demo_loaded)
  /\ usedTags demo_minted = usedTags demo_loaded ++ ["abcdefghijklmnopqrst"].
Proof.
  split; [reflexivity|].
  apply (proj1 (tag_minting Sim.env) 1%nat demo_loaded).
  reflexivity.
Defined.
(* ================================================================== *)
(** ** The bootstrap guard and the name lookup *)
(* ================================================================== *)

Lemma two_names_no_duplicates (n1 n2 : string) : n1 <> n2 -> duplicates [n1; n2] = [].
Proof.
  intros H. unfold duplicates. simpl.
  assert (Hne : (n2 =? n1) = false) by (apply String.eqb_neq; congruence).
  rewrite Hne. reflexivity.
Qed.

(** C10.  The duplicate-name guard of the init mode compares names as
    they are, [nameToRn] compares them in lower case: in a replica that
    holds exactly two contacts whose names differ in case only, the guard
    finds no duplicate and the lookup of either name throws; and there is
    an init run in which the guard lets such a replica through and the
    lookup then throws. *)
Theorem bootstrap_case_mismatch :
  (forall (E : Env) (rn1 rn2 : string) (c1 c2 : ContactInfo),
      name c1 <> name c2 ->
      toLowerCase E (name c1) = toLowerCase E (name c2) ->
      duplicates (map (fun kv => name (snd kv)) [(rn1, c1); (rn2, c2)]) = []
      /\ (exists e, nameToRn (toLowerCase E) [(rn1, c1); (rn2, c2)] (name c1) = Raise e)
      /\ (exists e, nameToRn (toLowerCase E) [(rn1, c1); (rn2, c2)] (name c2) = Raise e))
  /\ (exists (s1 s' : St Sim.env),
         load Sim.env 5 (start Sim.env case_world case_config) = (Ok tt, s1)
         /\ init_guard Sim.env (map fst (con s1)) s1 = (Ok tt, s1)
         /\ nameToRn (toLowerCase Sim.env) (info (acct s1 "b")) "bob"
            = Raise (new_Error "Expected exactly one rn for name bob, got 2")
         /\ runSync Sim.env 5 (mkOpts true None) (start Sim.env case_world case_config)
            = (Throw (new_Error "Expected exactly one rn for name bob, got 2"), s')).
Proof.
  split.
  - intros E rn1 rn2 c1 c2 Hne Hlow. split; [|split].
    + simpl. apply two_names_no_duplicates. exact Hne.
    + unfold nameToRn, rns_with_name. simpl.
      rewrite String.eqb_refl. rewrite <- Hlow, String.eqb_refl. simpl. eauto.
    + unfold nameToRn, rns_with_name. simpl.
      rewrite String.eqb_refl. rewrite Hlow, String.eqb_refl. simpl. eauto.
  - exists case_loaded, case_failed.
    split; [reflexivity|]. split; [reflexivity|]. split; reflexivity.
Qed.

Lemma bootstrap_case_mismatch_witness :
  duplicates (map (fun kv => name (snd kv))
                  [("people/b1", mkInfo "e2" None (Some 60%Z) "Bob");
                   ("people/b2", mkInfo "e3" None (Some 70%Z) "bob")]) = []
  /\ (exists e, nameToRn (toLowerCase Sim.env)
                         [("people/b1", mkInfo "e2" None (Some 60%Z) "Bob");
                          ("people/b2", mkInfo "e3" None (Some 70%Z) "bob")] "Bob" = Raise e)
  /\ (exists e, nameToRn (toLowerCase Sim.env)
                         [("people/b1", mkInfo "e2" None (Some 60%Z) "Bob");
                          ("people/b2", mkInfo "e3" None (Some 70%Z) "bob")] "bob" = Raise e).
Proof.
  apply (proj1 bootstrap_case_mismatch Sim.env "people/b1" "people/b2"
               (mkInfo "e2" None (Some 60%Z) "Bob") (mkInfo "e3" None (Some 70%Z) "bob")).
  - simpl. discriminate.
  - reflexivity.
Defined.

(* ================================================================== *)
(** ** Frame rules *)
(* ================================================================== *)

Section FrameRules.

Context {E : Env} (R : St E -> St E -> Prop) (okev : Event -> Prop) `{!Frame R okev}.

Lemma respects_ret {A} (a : A) : respects R (ret (E:=E) a).
Proof. intros s. apply fr_refl. Qed.

Lemma respects_throw {A} (e : Json) : respects R (throw (E:=E) (A:=A) e).
Proof. intros s. apply fr_refl. Qed.

Lemma respects_exit {A} (c : Z) : respects R (process_exit (E:=E) (A:=A) c).
Proof. intros s. apply fr_refl. Qed.

Lemma respects_diverge {A} : respects R (diverge (E:=E) (A:=A)).
Proof. intros s. apply fr_refl. Qed.

Lemma respects_bind {A B} (m : M E A) (k : A -> M E B) :
  respects R m -> (forall a, respects R (k a)) -> respects R (bind m k).
Proof.
  intros Hm Hk s. unfold bind. specialize (Hm s).
  destruct (m s) as [[a|e|c|] s1]; simpl in *; try exact Hm.
  eapply fr_trans; [exact Hm | apply Hk].
Qed.

Lemma respects_try_catch {A} (m : M E A) (h : Json -> M E A) :
  respects R m -> (forall e, respects R (h e)) -> respects R (try_catch E m h).
Proof.
  intros Hm Hh s. unfold try_catch. specialize (Hm s).
  destruct (m s) as [[a|e|c|] s1]; simpl in *; try exact Hm.
  eapply fr_trans; [exact Hm | apply Hh].
Qed.

Lemma respects_lift {A} (r : Result A) : respects R (lift E r).
Proof. destruct r; [apply respects_ret | apply respects_throw]. Qed.

Lemma respects_for_each {X} (xs : list X) (body : X -> M E unit) :
  (forall x, respects R (body x)) -> respects R (for_each xs body).
Proof.
  intros Hb. induction xs as [|x xs IH]; simpl.
  - apply respects_ret.
  - apply respects_bind; [apply Hb | intros _; exact IH].
Qed.

Lemma respects_foldM {X B} (xs : list X) (b : B) (body : B -> X -> M E B) :
  (forall b x, respects R (body b x)) -> respects R (foldM xs b body).
Proof.
  intros Hb. revert b. induction xs as [|x xs IH]; intros b; simpl.
  - apply respects_ret.
  - apply respects_bind; [apply Hb | intros b'; apply IH].
Qed.

Lemma respects_emit (ev : Event) : okev ev -> respects R (emit E ev).
Proof. intros H s. unfold emit. simpl. apply fr_event. exact H. Qed.

Lemma respects_call (u : string) (req : Request) :
  okev (ECall u req) -> respects R (call E u req).
Proof.
  intros H s. unfold call. destruct (api E u req (world s)) as [r w]. simpl.
  apply fr_event. exact H.
Qed.

Lemma respects_await (p : Settled) : respects R (await E p).
Proof.
  destruct p; [apply respects_ret | apply respects_throw | apply respects_diverge].
Qed.

Lemma respects_withTimeout (p : Settled) (msg : string) : respects R (withTimeout E p msg).
Proof. destruct p; [apply respects_ret | apply respects_throw | apply respects_throw]. Qed.

Lemma respects_now : respects R (now E).
Proof.
  intros s. unfold now. destruct (Date_now E (world s)) as [t w]. simpl. apply fr_world.
Qed.

Lemma respects_random_byte : respects R (random_byte E).
Proof.
  intros s. unfold random_byte. destruct (randomByte E (world s)) as [b w]. simpl.
  apply fr_world.
Qed.

Lemma respects_randomBytes (n : nat) : respects R (randomBytes E n).
Proof.
  induction n as [|n IH]; simpl.
  - apply respects_ret.
  - apply respects_bind; [apply respects_random_byte|]. intros b.
    apply respects_bind; [exact IH|]. intros bs. apply respects_ret.
Qed.

Lemma respects_get_cfg : respects R (get_cfg E).
Proof. intros s. apply fr_refl. Qed.

Lemma respects_get_con : respects R (get_con E).
Proof. intros s. apply fr_refl. Qed.

Lemma respects_get_usedTags : respects R (get_usedTags E).
Proof. intros s. apply fr_refl. Qed.

Lemma respects_account (u : string) : respects R (account E u).
Proof.
  unfold account. apply respects_bind; [apply respects_get_con|].
  intros c. apply respects_ret.
Qed.

Lemma respects_con_keys : respects R (con_keys E).
Proof.
  unfold con_keys. apply respects_bind; [apply respects_get_con|].
  intros c. apply respects_ret.
Qed.

Lemma respects_withBackoff_loop {A} (fn : M E A) (n : nat) :
  (forall ms, okev (ESleep ms)) -> respects R fn ->
  forall d, respects R (withBackoff_loop n fn d).
Proof.
  intros Hsl Hfn. induction n as [|n IH]; intros d s; simpl.
  - apply fr_refl.
  - pose proof (Hfn s) as H. destruct (fn s) as [[a|e|c|] s1]; simpl in *; try exact H.
    destruct (retryable e); [|exact H].
    eapply fr_trans; [exact H|].
    apply (respects_bind (sleep E d) (fun _ => withBackoff_loop n fn (next_delay d))).
    + apply respects_emit. apply Hsl.
    + intros _. apply IH.
Qed.

Section WithCaches.
Context `{!FrameCon R}.

Lemma respects_set_con (c : list (string * Contacts)) : respects R (set_con E c).
Proof. intros s. unfold set_con. simpl. apply fr_con. Qed.

Lemma respects_con_set (u : string) (c : Contacts) : respects R (con_set E u c).
Proof.
  unfold con_set. apply respects_bind; [apply respects_get_con|].
  intros l. apply respects_set_con.
Qed.

Lemma respects_set_info (u : string) (i : Info) : respects R (set_info E u i).
Proof.
  unfold set_info. apply respects_bind; [apply respects_account|].
  intros c. apply respects_con_set.
Qed.

Lemma respects_set_infoGroup (u : string) (g : Info) : respects R (set_infoGroup E u g).
Proof.
  unfold set_infoGroup. apply respects_bind; [apply respects_account|].
  intros c. apply respects_con_set.
Qed.

End WithCaches.

Lemma respects_add_usedTag `{!FrameUsed R} (t : string) : respects R (add_usedTag E t).
Proof. intros s. unfold add_usedTag. simpl. apply fr_used. Qed.

End FrameRules.

(** One step of a frame proof: the rule of the head construct. *)
Ltac frame_step :=
  lazymatch goal with
  | |- respects _ (bind _ _) => apply (respects_bind _ _); [| intros ?]
  | |- respects _ (ret _) => apply (respects_ret _ _)
  | |- respects _ (throw _) => apply (respects_throw _ _)
  | |- respects _ (process_exit _) => apply (respects_exit _ _)
  | |- respects _ diverge => apply (respects_diverge _ _)
  | |- respects _ (lift _ _) => apply (respects_lift _ _)
  | |- respects _ (try_catch _ _ _) => apply (respects_try_catch _ _); [| intros ?]
  | |- respects _ (for_each _ _) => apply (respects_for_each _ _); intros ?
  | |- respects _ (foldM _ _ _) => apply (respects_foldM _ _); intros ? ?
  | |- respects _ (await _ _) => apply (respects_await _ _)
  | |- respects _ (withTimeout _ _ _) => apply (respects_withTimeout _ _)
  | |- respects _ (now _) => apply (respects_now _ _)
  | |- respects _ (get_cfg _) => apply (respects_get_cfg _ _)
  | |- respects _ (get_con _) => apply (respects_get_con _ _)
  | |- respects _ (get_usedTags _) => apply (respects_get_usedTags _ _)
  | |- respects _ (account _ _) => apply (respects_account _ _)
  | |- respects _ (con_keys _) => apply (respects_con_keys _ _)
  | |- respects _ (randomBytes _ _) => apply (respects_randomBytes _ _)
  | |- respects _ (set_info _ _ _) => apply (respects_set_info _ _)
  | |- respects _ (set_infoGroup _ _ _) => apply (respects_set_infoGroup _ _)
  | |- respects _ (con_set _ _ _) => apply (respects_con_set _ _)
  | |- respects _ (add_usedTag _ _) => apply (respects_add_usedTag _ _)
  | |- respects _ (sleep _ _) => apply (respects_emit _ _); apply ok_sleep
  | |- respects _ (withBackoff _ _) =>
      apply (respects_withBackoff_loop _ _); [apply ok_sleep |]
  | |- respects _ (match ?x with _ => _ end) => destruct x
  | |- respects _ (let _ := _ in _) => cbv zeta
  end.

Ltac frame := repeat frame_step.

Section ReadFrames.

Context {E : Env} (fuel : nat) (R : St E -> St E -> Prop) (okev : Event -> Prop)
        `{!Frame R okev} `{!FrameCon R} `{!AllowsReads okev}.

Lemma respects_read (u : string) (req : Request) :
  is_write req = false -> respects R (call E u req).
Proof. intros H. apply (respects_call _ okev). apply ok_read. exact H. Qed.

Lemma respects_getAllContacts_loop (n : nat) (u : string) (fields : list string) :
  forall pageToken out, respects R (getAllContacts_loop E n u fields pageToken out).
Proof.
  induction n as [|n IH]; intros pageToken out; simpl.
  - frame.
  - frame_step; [apply respects_read; reflexivity|].
    frame_step; [frame|]. cbv zeta.
    destruct (str_field "nextPageToken" _); [apply IH | frame].
Qed.

Lemma respects_getContactGroups_loop (n : nat) (u : string) :
  forall pageToken out, respects R (getContactGroups_loop E fuel n u pageToken out).
Proof.
  induction n as [|n IH]; intros pageToken out; simpl.
  - frame.
  - frame_step.
    + frame_step. frame_step; [apply respects_read; reflexivity | frame].
    + cbv zeta. destruct (str_field "nextPageToken" _); [apply IH | frame].
Qed.

Lemma respects_getInfo (u : string) : respects R (getInfo E fuel u).
Proof.
  unfold getInfo, getAllContacts, getContactGroups.
  frame_step; [frame|].
  frame_step; [apply respects_getAllContacts_loop|].
  frame_step; [frame|].
  frame_step; [frame|].
  frame_step; [apply respects_getContactGroups_loop|].
  frame.
Qed.

Lemma respects_Contacts_init (u : string) : respects R (Contacts_init E fuel u).
Proof.
  unfold Contacts_init.
  frame_step; [frame|].
  frame_step; [apply respects_read; reflexivity|].
  frame_step; [frame|]. apply respects_getInfo.
Qed.

Lemma respects_init_accounts (accounts : list (string * (string * string))) :
  respects R (init_accounts E fuel accounts).
Proof.
  unfold init_accounts. frame_step. frame_step; [frame|]. apply respects_Contacts_init.
Qed.

Lemma respects_backup : respects R (backup E fuel).
Proof.
  unfold backup, rotateBackups.
  frame_step; [frame|]. cbv zeta.
  destruct (0 <? getBackupDays E a)%Z; [|frame].
  frame_step.
  { destruct (getBackupDays E a <=? 0)%Z; [frame|].
    apply (respects_emit _ okev). apply ok_rotate. }
  frame_step; [frame|].
  frame_step; [frame|].
  frame_step.
  - frame_step.
    frame_step; [apply respects_getContactGroups_loop|]. cbv zeta.
    frame_step; [apply respects_getAllContacts_loop|]. frame.
  - apply (respects_emit _ okev). apply ok_backup.
Qed.

Lemma respects_load : respects R (load E fuel).
Proof.
  unfold load. frame_step; [frame|]. cbv zeta.
  destruct (_ =? 0)%nat; [frame|].
  frame_step; [apply respects_init_accounts|]. apply respects_backup.
Qed.

Lemma respects_getContactGroup (u rn : string) : respects R (getContactGroup E fuel u rn).
Proof.
  unfold getContactGroup. frame_step.
  frame_step; [apply respects_read; reflexivity | frame].
Qed.

Lemma respects_Contacts_get (u rn : string) : respects R (Contacts_get E fuel u rn).
Proof.
  unfold Contacts_get. frame_step; [|frame]. frame_step.
  frame_step; [apply respects_read; reflexivity | frame].
Qed.

Lemma respects_getContactGroupWaitSyncTag_loop (n : nat) (u rn : string) :
  forall d, respects R (getContactGroupWaitSyncTag_loop E fuel n u rn d).
Proof.
  induction n as [|n IH]; intros d; simpl.
  - frame.
  - frame_step; [apply respects_getContactGroup|]. cbv zeta.
    destruct (existsb _ _); [frame|].
    frame_step; [frame | apply IH].
Qed.

Lemma respects_init_guard (users : list string) : respects R (init_guard E users).
Proof.
  unfold init_guard. frame_step. frame_step; [frame|]. cbv zeta.
  destruct (0 <? _)%nat; frame.
Qed.

Lemma respects_translated_for (other : string) (gts : list (option string)) (c : Json) :
  respects R (translated_for E other gts c).
Proof. unfold translated_for. frame. Qed.

Lemma respects_infos_of (users : list string) : respects R (infos_of E users).
Proof. unfold infos_of. frame. Qed.

Lemma respects_infoGroups_of (users : list string) : respects R (infoGroups_of E users).
Proof. unfold infoGroups_of. frame. Qed.

End ReadFrames.

Section WriteFrames.

Context {E : Env} (fuel : nat) (R : St E -> St E -> Prop) (okev : Event -> Prop)
        `{!Frame R okev} `{!FrameCon R} `{!FrameUsed R}
        `{!AllowsReads okev} `{!AllowsCalls okev}.

Lemma respects_any_call (u : string) (req : Request) : respects R (call E u req).
Proof. apply (respects_call _ okev). apply ok_call. Qed.

Lemma respects_newTag_loop (n : nat) : respects R (newTag_loop E n).
Proof.
  induction n as [|n IH]; cbn [newTag_loop].
  - frame.
  - frame_step; [frame|]. cbv zeta. frame_step; [frame|].
    destruct (set_has _ _); [exact IH | frame].
Qed.

Lemma respects_Contacts_delete (u t : string) : respects R (Contacts_delete E fuel u t).
Proof.
  unfold Contacts_delete. frame_step; [frame|]. frame_step; [frame|].
  destruct a0 as [rn|]; [|frame]. destruct (rn =? ""); [frame|].
  frame_step. frame_step; [apply respects_any_call | frame].
Qed.

Lemma respects_deleteContactGroup (u t : string) : respects R (deleteContactGroup E fuel u t).
Proof.
  unfold deleteContactGroup. frame_step; [frame|]. frame_step; [frame|].
  destruct a0 as [rn|]; [|frame]. destruct (rn =? ""); [frame|].
  frame_step. frame_step; [apply respects_any_call | frame].
Qed.

Lemma respects_updateTag (u rn t : string) : respects R (updateTag E fuel u rn t).
Proof.
  unfold updateTag. frame_step.
  frame_step; [apply respects_any_call|]. frame_step; [frame|]. cbv zeta.
  frame_step; [frame|]. destruct (cached_etag _ _); [|frame].
  frame_step; [apply respects_any_call | frame].
Qed.

Lemma respects_Contacts_add (u : string) (body : Json) : respects R (Contacts_add E fuel u body).
Proof.
  unfold Contacts_add. frame_step. frame_step; [apply respects_any_call | frame].
Qed.

Lemma respects_Contacts_update (u t : string) (body : Json) :
  respects R (Contacts_update E fuel u t body).
Proof.
  unfold Contacts_update. frame_step; [frame|]. frame_step; [frame|].
  destruct a0 as [rn|]; [|frame]. destruct (rn =? ""); [frame|].
  frame_step. frame_step; [frame|]. destruct (cached_etag _ _); [|frame]. cbv zeta.
  frame_step; [apply respects_any_call | frame].
Qed.

Lemma respects_addContactGroup (u : string) (body : Json) :
  respects R (addContactGroup E fuel u body).
Proof.
  unfold addContactGroup. frame_step. frame_step; [apply respects_any_call | frame].
Qed.

Lemma respects_refresh_on_conflict (u rn : string) (e : Json) :
  respects R (refresh_on_conflict E fuel u rn e).
Proof.
  unfold refresh_on_conflict. cbv zeta.
  destruct (_ && _); [|frame].
  frame_step; [apply (respects_getContactGroup fuel R okev)|].
  frame_step; [frame|]. cbv zeta.
  destruct (str_field "resourceName" a); [|frame].
  destruct (str_field "etag" a); [|frame].
  destruct (str_field "name" a); [|frame].
  destruct (_ || _); frame.
Qed.

Lemma respects_updateContactGroupTag (u rn t : string) :
  respects R (updateContactGroupTag E fuel u rn t).
Proof.
  unfold updateContactGroupTag. frame_step. frame_step.
  - frame_step; [apply respects_any_call|]. frame_step; [frame|]. cbv zeta.
    frame_step; [frame|]. destruct (cached_etag _ _); [|frame].
    frame_step; [apply respects_any_call | frame].
  - apply respects_refresh_on_conflict.
Qed.

Lemma respects_updateContactGroup (u t : string) (body : Json) :
  respects R (updateContactGroup E fuel u t body).
Proof.
  unfold updateContactGroup. frame_step; [frame|]. frame_step; [frame|].
  destruct a0 as [rn|]; [|frame]. destruct (rn =? ""); [frame|].
  frame_step. frame_step; [frame|]. cbv zeta.
  frame_step; [apply respects_any_call | frame].
Qed.

End WriteFrames.

Section PhaseFrames.

Context {E : Env} (fuel : nat) (R : St E -> St E -> Prop) (okev : Event -> Prop)
        `{!Frame R okev} `{!FrameCon R} `{!FrameUsed R}
        `{!AllowsReads okev} `{!AllowsCalls okev}.

Lemma respects_delete_groups (active : list string) : respects R (delete_groups E fuel active).
Proof.
  unfold delete_groups. frame_step; [apply (respects_infoGroups_of R okev)|]. cbv zeta.
  destruct (0 <? _)%nat; [|frame].
  frame_step.
  - frame_step. frame_step. apply (respects_deleteContactGroup fuel R okev).
  - frame_step. apply (respects_getInfo fuel R okev).
Qed.

Lemma respects_delete_contacts (active : list string) :
  respects R (delete_contacts E fuel active).
Proof.
  unfold delete_contacts. frame_step; [apply (respects_infos_of R okev)|]. cbv zeta.
  destruct (0 <? _)%nat; [|frame].
  frame_step.
  - frame_step. frame_step. apply (respects_Contacts_delete fuel R okev).
  - frame_step. apply (respects_getInfo fuel R okev).
Qed.

Lemma respects_add_groups (active : list string) : respects R (add_groups E fuel active).
Proof.
  unfold add_groups. frame_step. frame_step; [frame|]. frame_step. cbv zeta.
  frame_step; [apply (respects_newTag_loop R okev)|].
  frame_step; [apply (respects_updateContactGroupTag fuel R okev)|].
  frame_step; [apply (respects_getContactGroupWaitSyncTag_loop fuel R okev)|].
  frame_step. destruct (x1 =? x); [frame|]. cbv zeta.
  frame_step; [apply (respects_addContactGroup fuel R okev) | frame].
Qed.

Lemma respects_update_groups (active : list string) (added : list (string * string))
      (lastUpdate : Date) :
  respects R (update_groups E fuel active added lastUpdate).
Proof.
  unfold update_groups. frame_step; [apply (respects_infoGroups_of R okev)|].
  frame_step. destruct (newest _); [|frame].
  frame_step; [apply (respects_getContactGroup fuel R okev)|].
  frame_step. destruct (_ =? _); [frame|].
  apply (respects_updateContactGroup fuel R okev).
Qed.

Lemma respects_add_contact (active : list string) (email : string)
      (added : list (string * string)) (e : string * ContactInfo) :
  respects R (add_contact E fuel active email added e).
Proof.
  unfold add_contact. cbv zeta.
  frame_step; [apply (respects_newTag_loop R okev)|].
  frame_step; [apply (respects_updateTag fuel R okev)|].
  frame_step; [apply (respects_Contacts_get fuel R okev)|].
  frame_step; [frame|]. cbv zeta.
  frame_step. destruct (_ =? _); [frame|].
  frame_step; [apply (respects_translated_for R okev)|].
  frame_step; [apply (respects_Contacts_add fuel R okev) | frame].
Qed.

Lemma respects_add_contacts (active : list string) : respects R (add_contacts E fuel active).
Proof.
  unfold add_contacts. frame_step. frame_step; [frame|]. frame_step.
  apply respects_add_contact.
Qed.

Lemma respects_update_contacts (active : list string) (added : list (string * string))
      (lastUpdate : Date) :
  respects R (update_contacts E fuel active added lastUpdate).
Proof.
  unfold update_contacts. frame_step; [apply (respects_infos_of R okev)|].
  frame_step. unfold propagate_update. destruct (newest _); [|frame].
  frame_step; [apply (respects_Contacts_get fuel R okev)|].
  frame_step; [frame|]. cbv zeta.
  frame_step. destruct (_ =? _); [frame|].
  frame_step; [apply (respects_translated_for R okev)|].
  apply (respects_Contacts_update fuel R okev).
Qed.

Lemma respects_seed_contact (source : string) (newCon : list string)
      (e : string * ContactInfo) :
  respects R (seed_contact E fuel source newCon e).
Proof.
  unfold seed_contact.
  frame_step; [apply (respects_Contacts_get fuel R okev)|].
  frame_step; [frame|]. cbv zeta.
  frame_step. frame_step; [apply (respects_translated_for R okev)|].
  frame_step; [apply (respects_Contacts_add fuel R okev) | frame].
Qed.

Lemma respects_seed_new (active newCon : list string) :
  respects R (seed_new E fuel active newCon).
Proof.
  unfold seed_new. destruct newCon as [|n0 newCon]; [frame|].
  destruct active as [|source active]; [frame|].
  frame_step; [apply (respects_getInfo fuel R okev)|].
  frame_step; [frame|].
  frame_step.
  { frame_step. frame_step; [apply (respects_getContactGroup fuel R okev)|].
    frame_step. cbv zeta.
    frame_step; [apply (respects_addContactGroup fuel R okev) | frame]. }
  frame_step.
  { frame_step. apply (respects_getInfo fuel R okev). }
  unfold seed_contacts. frame_step; [frame|].
  frame_step. apply respects_seed_contact.
Qed.

Lemma respects_reconcile (users : list string) : respects R (reconcile E fuel users).
Proof.
  unfold reconcile. frame_step; [frame|]. cbv zeta.
  destruct (_ =? 0)%nat; [frame|].
  frame_step; [apply respects_delete_groups|].
  frame_step; [apply respects_add_groups|].
  frame_step; [frame|]. cbv zeta.
  frame_step; [apply respects_update_groups|].
  frame_step; [apply respects_delete_contacts|].
  frame_step; [apply respects_add_contacts|].
  frame_step; [apply respects_update_contacts|].
  apply respects_seed_new.
Qed.

Lemma respects_set_cached_tag (u rn t : string) : respects R (set_cached_tag E u rn t).
Proof. unfold set_cached_tag. frame. Qed.

Lemma respects_init_tag (email : string) (e : string * ContactInfo) :
  respects R (init_tag E fuel email e).
Proof.
  unfold init_tag. cbv zeta. destruct (truthy_str _); [frame|].
  frame_step; [apply (respects_newTag_loop R okev)|].
  frame_step; [apply (respects_updateTag fuel R okev)|].
  frame_step; [apply respects_set_cached_tag | frame].
Qed.

Lemma respects_init_push (opts : SyncOptions) (users : list string) (email : string)
      (done : list string) (e : string * ContactInfo) :
  respects R (init_push E fuel opts users email done e).
Proof.
  unfold init_push. cbv zeta. destruct (set_has _ _); [frame|].
  frame_step; [apply respects_init_tag|].
  frame_step; [apply (respects_Contacts_get fuel R okev)|].
  frame_step.
  { frame_step. destruct (_ =? _); [frame|].
    frame_step; [frame|]. frame_step; [frame|].
    lazymatch goal with
    | |- respects _ (match ?x with _ => _ end) => destruct x as [orn|]
    end.
    - destruct (orn =? "").
      + frame_step; [apply (respects_Contacts_add fuel R okev) | frame].
      + frame_step; [apply (respects_updateTag fuel R okev)|].
        apply (respects_Contacts_update fuel R okev).
    - frame_step; [apply (respects_Contacts_add fuel R okev) | frame]. }
  frame_step; [|frame].
  destruct (rlimSeconds opts) as [r|]; [|frame]. destruct (0 <? r)%Z; frame.
Qed.

(** The init mode and the reconciliation, up to the write of the watermark. *)
Lemma respects_init_pushes (opts : SyncOptions) (users : list string) :
  respects R (foldM users []
                (fun done email =>
                   bind (account E email)
                        (fun acc => foldM (info acc) done (init_push E fuel opts users email)))).
Proof.
  frame_step. frame_step; [frame|]. frame_step. apply respects_init_push.
Qed.

End PhaseFrames.

(** *** The frame of the configuration *)

Section Quiet.

Context {E : Env} (okev : Event -> Prop).

Lemma quiet_refl (s : St E) : quiet okev s s.
Proof.
  repeat split. exists []. split; [symmetry; apply app_nil_r | constructor].
Qed.

Lemma quiet_trans (a b c : St E) : quiet okev a b -> quiet okev b c -> quiet okev a c.
Proof.
  intros (H1 & H2 & t & Ht & Hf) (H1' & H2' & t' & Ht' & Hf').
  split; [congruence|]. split; [congruence|].
  exists (t ++ t'). split.
  - rewrite Ht', Ht, app_assoc. reflexivity.
  - apply Forall_app. split; assumption.
Qed.

#[export] Instance quiet_Frame : Frame (quiet (E:=E) okev) okev.
Proof.
  constructor.
  - apply quiet_refl.
  - apply quiet_trans.
  - intros s w. repeat split. exists []. simpl. split; [symmetry; apply app_nil_r | constructor].
  - intros s w ev H. repeat split. exists [ev]. simpl. split; [reflexivity|].
    constructor; [exact H | constructor].
Qed.

#[export] Instance quiet_FrameCon : FrameCon (quiet (E:=E) okev).
Proof.
  intros s c. repeat split. exists []. simpl. split; [symmetry; apply app_nil_r | constructor].
Qed.

#[export] Instance quiet_FrameUsed : FrameUsed (quiet (E:=E) okev).
Proof.
  intros s t. repeat split. exists []. simpl. split; [symmetry; apply app_nil_r | constructor].
Qed.

End Quiet.

#[export] Instance not_remote_write_reads : AllowsReads not_remote_write.
Proof. constructor; intros; try reflexivity. unfold not_remote_write. simpl. assumption. Qed.

#[export] Instance not_config_write_reads : AllowsReads not_config_write.
Proof. constructor; intros; reflexivity. Qed.

#[export] Instance not_config_write_calls : AllowsCalls not_config_write.
Proof. intros u r. reflexivity. Qed.

(* ================================================================== *)
(** ** Frames with the caches fixed, and runs that return *)
(* ================================================================== *)

(** *** Runs that return *)

Section Returns.

Context {E : Env} (R : St E -> St E -> Prop) (okev : Event -> Prop) `{!Frame R okev}.

Lemma respects_for_each_In {X} (xs : list X) (body : X -> M E unit) :
  (forall x, In x xs -> respects R (body x)) -> respects R (for_each xs body).
Proof.
  induction xs as [|x xs IH]; intros Hb; simpl.
  - apply (respects_ret R okev).
  - apply (respects_bind R okev).
    + apply Hb. left. reflexivity.
    + intros _. apply IH. intros y Hy. apply Hb. right. exact Hy.
Qed.

Lemma for_each_returned {X} (xs : list X) (body : X -> M E unit) (x : X) :
  (forall y, In y xs -> respects R (body y)) ->
  In x xs ->
  forall s s', for_each xs body s = (Ok tt, s') ->
               exists s1 s2, R s s1 /\ body x s1 = (Ok tt, s2) /\ R s2 s'.
Proof.
  induction xs as [|y ys IH]; intros Hb Hin s s' H; [destruct Hin|].
  simpl in H. unfold bind in H. pose proof (Hb y (or_introl eq_refl) s) as Hy.
  assert (Hb' : forall z, In z ys -> respects R (body z))
    by (intros z Hz; apply Hb; right; exact Hz).
  destruct (body y s) as [[[]|e|c|] s1] eqn:Hrun; try discriminate. simpl in Hy.
  destruct Hin as [->|Hin].
  - exists s, s1. split; [apply fr_refl|]. split; [exact Hrun|].
    pose proof (respects_for_each_In ys body Hb' s1) as Hr. rewrite H in Hr. exact Hr.
  - destruct (IH Hb' Hin s1 s' H) as (sa & sb & Ha & Hbody & Hb2).
    exists sa, sb. split; [eapply fr_trans; eassumption | auto].
Qed.

Lemma withBackoff_loop_returned {A} (fn : M E A) (n : nat) :
  (forall ms, okev (ESleep ms)) -> respects R fn ->
  forall d s a s', withBackoff_loop n fn d s = (Ok a, s') ->
                   exists s1, R s s1 /\ fn s1 = (Ok a, s').
Proof.
  intros Hsl Hfn. induction n as [|n IH]; intros d s a s' H; simpl in H.
  - discriminate.
  - pose proof (Hfn s) as Hs. destruct (fn s) as [[a'|e|c|] s1] eqn:Hrun; try discriminate.
    + inversion H; subst. exists s. split; [apply fr_refl | exact Hrun].
    + simpl in Hs. destruct (retryable e); [|discriminate].
      unfold bind, sleep, emit in H. simpl in H.
      apply IH in H. destruct H as (s2 & H2 & Hfn2). exists s2. split; [|exact Hfn2].
      eapply fr_trans; [exact Hs|]. eapply fr_trans; [|exact H2].
      apply (fr_event (Frame:=Frame0)). apply Hsl.
Qed.

End Returns.

#[export] Instance grows_Frame {E : Env} (okev : Event -> Prop) : Frame (grows (E:=E) okev) okev.
Proof.
  constructor.
  - intros s. exists []. split; [symmetry; apply app_nil_r | constructor].
  - intros a b c (t & Ht & Hf) (t' & Ht' & Hf'). exists (t ++ t').
    split; [rewrite Ht', Ht, app_assoc; reflexivity | apply Forall_app; auto].
  - intros s w. exists []. simpl. split; [symmetry; apply app_nil_r | constructor].
  - intros s w ev H. exists [ev]. simpl. split; [reflexivity | constructor; [exact H | constructor]].
Qed.

#[export] Instance grows_FrameCon {E : Env} (okev : Event -> Prop) : FrameCon (grows (E:=E) okev).
Proof.
  intros s c. exists []. simpl. split; [symmetry; apply app_nil_r | constructor].
Qed.

#[export] Instance grows_FrameUsed {E : Env} (okev : Event -> Prop) : FrameUsed (grows (E:=E) okev).
Proof.
  intros s t. exists []. simpl. split; [symmetry; apply app_nil_r | constructor].
Qed.

(** *** Frames with the caches fixed *)

Section Still.

Context {E : Env} (okev : Event -> Prop) (c0 : list (string * Contacts)).

#[export] Instance still_Frame : Frame (still (E:=E) okev c0) okev.
Proof.
  constructor.
  - intros s Hc. split; [exact Hc|]. exists []. split; [symmetry; apply app_nil_r | constructor].
  - intros a b c Hab Hbc Ha. destruct (Hab Ha) as (Hb & t & Ht & Hf).
    destruct (Hbc Hb) as (Hc & t' & Ht' & Hf'). split; [exact Hc|].
    exists (t ++ t'). split; [rewrite Ht', Ht, app_assoc; reflexivity|].
    apply Forall_app. split; assumption.
  - intros s w Hc. split; [exact Hc|]. exists []. simpl.
    split; [symmetry; apply app_nil_r | constructor].
  - intros s w ev H Hc. split; [exact Hc|]. exists [ev]. simpl. split; [reflexivity|].
    constructor; [exact H | constructor].
Qed.

#[export] Instance still_FrameUsed : FrameUsed (still (E:=E) okev c0).
Proof.
  intros s t Hc. split; [exact Hc|]. exists []. simpl.
  split; [symmetry; apply app_nil_r | constructor].
Qed.

(** What a step reads from the caches is what [c0] holds. *)
Lemma still_account {A} (u : string) (k : Contacts -> M E A) :
  respects (still okev c0) (k (lookup_account u c0)) ->
  respects (still okev c0) (bind (account E u) k).
Proof.
  intros Hk s Hc. unfold bind, account, get_con, ret. simpl. rewrite Hc.
  apply Hk. exact Hc.
Qed.

Lemma still_lift_account {A B} (u : string) (f : Contacts -> Result A) (k : A -> M E B) :
  (forall a, f (lookup_account u c0) = Return a -> respects (still okev c0) (k a)) ->
  respects (still okev c0) (bind (bind (account E u) (fun c => lift E (f c))) k).
Proof.
  intros Hk s Hc. unfold bind, account, get_con, ret, lift. simpl. rewrite Hc.
  destruct (f (lookup_account u c0)) as [a|e] eqn:Hf; simpl.
  - apply (Hk a eq_refl). exact Hc.
  - apply (fr_refl (Frame:=still_Frame)). exact Hc.
Qed.

End Still.

Section FineFrames.

Context {E : Env} (fuel : nat) (R : St E -> St E -> Prop) (okev : Event -> Prop)
        `{!Frame R okev} `{!AllowsReads okev}.

(** What [get] returns went through [stripPersonForUpdate]. *)
Lemma respects_after_get {A} (u rn : string) (k : Json -> M E A) :
  (forall res, respects R (k (stripPersonForUpdate res))) ->
  respects R (bind (Contacts_get E fuel u rn) k).
Proof.
  intros Hk. unfold Contacts_get.
  assert (Hw : respects R (withBackoff fuel
                (bind (call E u (PeopleGet rn (join "," allPersonFields)))
                      (fun p => withTimeout E p
                                  ("Timeout getting contact " ++ rn ++ " for " ++ u))))).
  { frame_step. frame_step; [apply (respects_read R okev); reflexivity | frame]. }
  intros s. specialize (Hw s). unfold bind at 1. unfold bind at 1.
  destruct (withBackoff fuel _ s) as [[res|e|c|] s1]; simpl in *; try exact Hw.
  eapply fr_trans; [exact Hw | apply Hk].
Qed.

Lemma respects_updateTag_fine (u rn t : string) :
  (forall b, okev (ECall u (UpdateContact rn "clientData" b))) ->
  respects R (updateTag E fuel u rn t).
Proof.
  intros Hw. unfold updateTag. frame_step.
  frame_step; [apply (respects_read R okev); reflexivity|]. frame_step; [frame|]. cbv zeta.
  frame_step; [frame|]. destruct (cached_etag _ _); [|frame].
  frame_step; [apply (respects_call R okev); apply Hw | frame].
Qed.

Lemma respects_Contacts_add_fine (u : string) (body : Json) :
  okev (ECall u (CreateContact body)) -> respects R (Contacts_add E fuel u body).
Proof.
  intros Hw. unfold Contacts_add. frame_step.
  frame_step; [apply (respects_call R okev); exact Hw | frame].
Qed.

Lemma respects_Contacts_update_fine (u t : string) (body : Json) :
  (forall rn et, okev (ECall u (UpdateContact rn (join "," allUpdatePersonFields)
                                              (JObj (obj_set "etag" (JStr et) (entries body)))))) ->
  respects R (Contacts_update E fuel u t body).
Proof.
  intros Hw. unfold Contacts_update. frame_step; [frame|]. frame_step; [frame|].
  destruct a0 as [rn|]; [|frame]. destruct (rn =? ""); [frame|].
  frame_step. frame_step; [frame|]. destruct (cached_etag _ _); [|frame]. cbv zeta.
  frame_step; [apply (respects_call R okev); apply Hw | frame].
Qed.

End FineFrames.

(** A computation that leaves the caches alone. *)
Lemma still_keeps_con {E : Env} {A : Type} (m : M E A) (s : St E) :
  respects (still not_config_write (con s)) m -> con (snd (m s)) = con s.
Proof. intros H. exact (proj1 (H s eq_refl)). Qed.

Lemma added_events_app {E : Env} (s s' : St E) (t : list Event) :
  events s' = events s ++ t -> added_events s s' = t.
Proof.
  intros H. unfold added_events. rewrite H. rewrite skipn_app, Nat.sub_diag, skipn_all.
  reflexivity.
Qed.

Lemma respects_run {E : Env} {A : Type} (R : St E -> St E -> Prop) (m : M E A)
      (s : St E) (r : Outcome A) (s' : St E) :
  respects R m -> m s = (r, s') -> R s s'.
Proof. intros H Heq. specialize (H s). rewrite Heq in H. exact H. Qed.

(** *** What the calls of a turn return *)

Section Access.

Context {E : Env} (fuel : nat).

(** What [get] returned is what the service answered, stripped. *)
Lemma Contacts_get_returned (u rn : string) (s s' : St E) (fetched : Json) :
  Contacts_get E fuel u rn s = (Ok fetched, s') ->
  exists res s0 w',
    still not_config_write (con s) s s0
    /\ api E u (PeopleGet rn (join "," allPersonFields)) (world s0) = (Resolved res, w')
    /\ fetched = stripPersonForUpdate res
    /\ con s' = con s0
    /\ events s' = events s0 ++ [ECall u (PeopleGet rn (join "," allPersonFields))].
Proof.
  unfold Contacts_get. unfold bind at 1. intros H.
  destruct (withBackoff fuel _ s) as [[res|e|c|] s1] eqn:Hw; try discriminate.
  unfold ret in H. inversion H; subst. clear H.
  apply (withBackoff_loop_returned (still not_config_write (con s)) not_config_write) in Hw;
    [|intros; reflexivity|].
  - destruct Hw as (s0 & H0 & Hfn). unfold bind, call in Hfn.
    destruct (api E u (PeopleGet rn (join "," allPersonFields)) (world s0)) as [[d|e|] w] eqn:Ha;
      cbn [withTimeout throw ret] in Hfn; try discriminate.
    inversion Hfn; subst. exists res, s0, w. cbn [con events]. auto.
  - frame_step; [apply (respects_read (still not_config_write (con s)) not_config_write);
                 reflexivity | frame].
Qed.

Lemma account_run (u : string) (s : St E) : account E u s = (Ok (acct s u), s).
Proof. reflexivity. Qed.

Lemma translated_for_run (other : string) (gts : list (option string)) (contact : Json)
      (s : St E) :
  translated_for E other gts contact s
  = match body_for (infoGroup (acct s other)) gts contact with
    | Return b => (Ok b, s)
    | Raise e => (Throw e, s)
    end.
Proof.
  unfold translated_for, bind, account, bind, get_con, ret, lift. cbn [fst snd].
  fold (acct s other). destruct (body_for _ _ _); reflexivity.
Qed.

Lemma Contacts_update_run (u t : string) (body : Json) (s : St E) :
  Contacts_update E fuel u t body s
  = match tagToRn (info (acct s u)) t with
    | Return (Some rn) =>
        if rn =? "" then (Ok tt, s) else withBackoff fuel (update_request u rn body) s
    | Return None => (Ok tt, s)
    | Raise e => (Throw e, s)
    end.
Proof.
  unfold Contacts_update, bind at 1, account, bind at 1, get_con, ret. cbn [fst snd].
  fold (acct s u). unfold bind at 1, lift.
  destruct (tagToRn (info (acct s u)) t) as [[rn|]|e]; try reflexivity.
  unfold ret. destruct (rn =? ""); reflexivity.
Qed.

Lemma update_request_returned (u rn : string) (body : Json) (s s' : St E) :
  update_request u rn body s = (Ok tt, s') ->
  exists et,
    cached_etag (info (acct s u)) rn = Some et
    /\ con s' = con s
    /\ events s' = events s ++ [ECall u (UpdateContact rn (join "," allUpdatePersonFields)
                                           (JObj (obj_set "etag" (JStr et) (entries body))))].
Proof.
  unfold update_request, bind at 1, account, bind at 1, get_con, ret. cbn [fst snd].
  fold (acct s u).
  destruct (cached_etag (info (acct s u)) rn) as [et|]; [|discriminate].
  unfold bind, call.
  destruct (api E u _ (world s)) as [[d|e|] w]; cbn [withTimeout throw ret];
    try discriminate.
  intros H. inversion H; subst. exists et. auto.
Qed.

End Access.
(* ================================================================== *)
(** ** The guard of the init mode *)
(* ================================================================== *)

Lemma set_add_not_nil (s : list string) (x : string) : set_add s x <> [].
Proof.
  unfold set_add. destruct (set_has s x) eqn:H.
  - intros ->. discriminate.
  - destruct s; discriminate.
Qed.

Lemma duplicates_loop_keeps (items seen dups : list string) :
  dups <> [] -> duplicates_loop items seen dups <> [].
Proof.
  revert seen dups. induction items as [|x items IH]; intros seen dups H; simpl.
  - exact H.
  - destruct (set_has seen x); apply IH; [apply set_add_not_nil | exact H].
Qed.

Lemma duplicates_loop_nil (items seen : list string) :
  duplicates_loop items seen [] = [] <-> (NoDup items /\ forall x, In x items -> ~ In x seen).
Proof.
  revert seen. induction items as [|x items IH]; intros seen; simpl.
  - split; [intros _; split; [constructor | intros x []] | reflexivity].
  - destruct (set_has seen x) eqn:Hx.
    + split.
      * intros H. exfalso. revert H. apply duplicates_loop_keeps, set_add_not_nil.
      * intros [_ H]. exfalso. apply (H x); [left; reflexivity | apply set_has_In; exact Hx].
    + rewrite IH. apply set_has_false in Hx.
      assert (Hadd : set_add seen x = seen ++ [x]).
      { unfold set_add. apply set_has_false in Hx. rewrite Hx. reflexivity. }
      rewrite Hadd. split.
      * intros [Hnd Hdis]. split.
        -- constructor; [|exact Hnd]. intros Hin. apply (Hdis x Hin).
           apply in_or_app. right. left. reflexivity.
        -- intros y [<-|Hy]; [exact Hx|]. intros Hin. apply (Hdis y Hy).
           apply in_or_app. left. exact Hin.
      * intros [Hnd Hdis]. inversion Hnd as [|? ? Hnx Hnd']; subst. split; [exact Hnd'|].
        intros y Hy Hin. apply in_app_or in Hin. destruct Hin as [Hin|[<-|[]]].
        -- apply (Hdis y); [right; exact Hy | exact Hin].
        -- exact (Hnx Hy).
Qed.

Lemma duplicates_nil (items : list string) : duplicates items = [] <-> NoDup items.
Proof.
  unfold duplicates. rewrite duplicates_loop_nil. split; [tauto|].
  intros H. split; [exact H | intros x _ []].
Qed.

Lemma init_guard_halts {E : Env} (users : list string) (s : St E) :
  (exists email, In email users /\ ~ NoDup (names_of (info (acct s email)))) ->
  init_guard E users s = (Exit 1, s).
Proof.
  unfold init_guard. induction users as [|u users IH]; intros (email & Hin & Hdup).
  - destruct Hin.
  - cbn [for_each]. unfold bind at 1. unfold bind at 1. unfold account, bind, get_con, ret.
    fold (acct s u).
    destruct (duplicates (map (fun kv => name (snd kv)) (info (acct s u)))) as [|d ds] eqn:Hd.
    + simpl. apply IH. exists email. split; [|exact Hdup].
      destruct Hin as [<-|Hin]; [|exact Hin].
      exfalso. apply Hdup. apply duplicates_nil. exact Hd.
    + reflexivity.
Qed.

Lemma init_guard_passes {E : Env} (users : list string) (s : St E) :
  (forall email, In email users -> NoDup (names_of (info (acct s email)))) ->
  init_guard E users s = (Ok tt, s).
Proof.
  unfold init_guard. induction users as [|u users IH]; intros H.
  - reflexivity.
  - cbn [for_each]. unfold bind at 1. unfold bind at 1. unfold account, bind, get_con, ret.
    fold (acct s u).
    assert (Hd : duplicates (map (fun kv => name (snd kv)) (info (acct s u))) = []).
    { apply duplicates_nil. apply H. left. reflexivity. }
    rewrite Hd. simpl. apply IH. intros email Hin. apply H. right. exact Hin.
Qed.

(** C4.  In an init-mode run whose accounts were loaded, if one account
    holds two entities with the same display name, the run ends in
    [process.exit(1)] in the very state the loading left: nothing was done
    since, and the events of the run hold no remote write (no tag
    assignment, no content update, no creation, no deletion) on any
    account. *)
Theorem bootstrap_duplicate_guard (E : Env) (fuel : nat) (opts : SyncOptions)
        (w : World E) (config : Json) (s1 : St E) :
  init opts = true ->
  load E fuel (start E w config) = (Ok tt, s1) ->
  (exists email, In email (map fst (con s1))
                 /\ ~ NoDup (names_of (info (acct s1 email)))) ->
  runSync E fuel opts (start E w config) = (Exit 1, s1)
  /\ Forall not_remote_write (events s1).
Proof.
  intros Hinit Hload Hdup. split.
  - unfold runSync, bind. rewrite Hload. unfold sync, con_keys, bind, get_con, ret.
    rewrite Hinit. rewrite (init_guard_halts _ _ Hdup). reflexivity.
  - pose proof (respects_load fuel (quiet not_remote_write) not_remote_write
                              (start E w config)) as H.
    rewrite Hload in H. destruct H as (_ & _ & t & Ht & Hf). simpl in Ht.
    rewrite Ht. exact Hf.
Qed.

Lemma bootstrap_duplicate_guard_witness :
  runSync Sim.env 5 (mkOpts true None) (start Sim.env dup_world demo_config)
  = (Exit 1, dup_loaded)
  /\ Forall not_remote_write (events dup_loaded).
Proof.
  apply bootstrap_duplicate_guard.
  - reflexivity.
  - reflexivity.
  - exists "a". split; [left; reflexivity|].
    intros H. inversion H as [|? ? Hn _]. apply Hn. left. reflexivity.
Defined.
(* ================================================================== *)
(** ** The watermark *)
(* ================================================================== *)

Lemma prop_set_prop_same (k : string) (v : Json) (kvs : list (string * Json)) :
  prop k (set_prop k v (JObj kvs)) = v.
Proof. simpl. rewrite assoc_obj_set, String.eqb_refl. reflexivity. Qed.

Lemma prop_set_prop_other (k k' : string) (v o : Json) :
  k' <> k -> prop k (set_prop k' v o) = prop k o.
Proof.
  intros H. destruct o; try reflexivity. simpl. rewrite assoc_obj_set.
  apply String.eqb_neq in H. rewrite H. reflexivity.
Qed.

Lemma saved_data_last (E : Env) (t : Z) (kvs : list (string * Json)) :
  prop "last" (saved_data E t (JObj kvs)) = JStr (toISOString E (t + 5000)).
Proof.
  unfold saved_data. cbv zeta.
  set (d1 := set_prop "last" (JStr (toISOString E (t + 5000))) (JObj kvs)).
  assert (H1 : prop "last" d1 = JStr (toISOString E (t + 5000)))
    by apply prop_set_prop_same.
  set (d2 := if is_number (prop "backupdays" d1) then d1
             else set_prop "backupdays" (JNum 0) d1).
  assert (H2 : prop "last" d2 = JStr (toISOString E (t + 5000))).
  { unfold d2. destruct (is_number _); [exact H1|].
    rewrite prop_set_prop_other by discriminate. exact H1. }
  destruct (prop "accounts" d2); try exact H2;
    rewrite prop_set_prop_other by discriminate; exact H2.
Qed.

Lemma ends_with_save_last {E : Env} : ends_with_save (saveConfigLastRun E).
Proof.
  intros s r s' H.
  assert (Hr : r = Ok tt).
  { unfold saveConfigLastRun, bind, now, get_cfg, write_config in H.
    destruct (Date_now E (world s)). inversion H. reflexivity. }
  subst r. exists s. split; [apply quiet_refl | exact H].
Qed.

Lemma ends_with_save_bind {E : Env} {A : Type} (m : M E A) (k : A -> M E unit) :
  respects (quiet not_config_write) m -> (forall a, ends_with_save (k a)) ->
  ends_with_save (bind m k).
Proof.
  intros Hm Hk s r s' H. unfold bind in H. specialize (Hm s).
  destruct (m s) as [[a|e|c|] s1]; simpl in Hm;
    try (inversion H; subst; exact Hm).
  apply Hk in H. destruct r.
  - destruct H as (s2 & Hq & Hs). exists s2. split; [|exact Hs].
    eapply quiet_trans; eassumption.
  - eapply quiet_trans; eassumption.
  - eapply quiet_trans; eassumption.
  - eapply quiet_trans; eassumption.
Qed.

Lemma sync_ends_with_save (E : Env) (fuel : nat) (opts : SyncOptions) :
  ends_with_save (sync E fuel opts).
Proof.
  unfold sync. apply ends_with_save_bind; [apply (respects_con_keys _ not_config_write)|].
  intros users. destruct (init opts).
  - apply ends_with_save_bind;
      [apply (respects_init_guard (quiet not_config_write) not_config_write)|].
    intros _. unfold init_mode. apply ends_with_save_bind.
    + apply (respects_init_pushes fuel (quiet not_config_write) not_config_write).
    + intros _. apply ends_with_save_last.
  - apply ends_with_save_bind.
    + apply (respects_reconcile fuel (quiet not_config_write) not_config_write).
    + intros _. apply ends_with_save_last.
Qed.

Lemma runSync_ends_with_save (E : Env) (fuel : nat) (opts : SyncOptions) :
  ends_with_save (runSync E fuel opts).
Proof.
  unfold runSync. apply ends_with_save_bind.
  - apply (respects_load fuel (quiet not_config_write) not_config_write).
  - intros _. apply sync_ends_with_save.
Qed.

Lemma runSync_returns_config_object (E : Env) (fuel : nat) (opts : SyncOptions)
      (s s' : St E) :
  runSync E fuel opts s = (Ok tt, s') -> exists kvs, cfg_data s = JObj kvs.
Proof.
  unfold runSync, load, bind, get_cfg. simpl.
  destruct (cfg_data s); try discriminate. eauto.
Qed.

(** *** The writes of the loader *)

Lemma migrated_last (E : Env) (legacy : Ini) :
  prop "last" (migrateIniToJson E legacy) = JStr (legacy_last legacy).
Proof.
  unfold migrateIniToJson, legacy_last. cbv zeta. cbn [prop assoc String.eqb Ascii.eqb].
  cbn. destruct (assoc "DEFAULT" legacy) as [def|]; [|reflexivity].
  destruct (assoc "last" def) as [v|]; [|reflexivity].
  destruct v; reflexivity.
Qed.

Lemma loader_writes (E : Env) (join : string -> string -> string) (cdir : string)
      (json : option Json) (ini : option Ini) :
  match loadConfigOrCreateDefault E join cdir json ini with
  | Config data written =>
      (json = Some data /\ written = None)
      \/ (json = None /\ written = Some data
          /\ exists legacy, ini = Some legacy /\ data = migrateIniToJson E legacy
                            /\ prop "last" data = JStr (legacy_last legacy))
  | ConfigError => json <> None
  | ConfigExit code written =>
      json = None
      /\ ((code = 2%Z /\ written = None /\ ini <> None)
          \/ (code = 1%Z /\ written = Some (defaultJsonConfig join cdir) /\ ini = None))
  end.
Proof.
  unfold loadConfigOrCreateDefault.
  destruct json as [data|].
  - destruct (prop "accounts" data); try discriminate. left. auto.
  - destruct ini as [legacy|].
    + destruct (assoc "account-FIXME" legacy).
      * split; [reflexivity|]. left. split; [reflexivity|]. split; [reflexivity|]. discriminate.
      * right. split; [reflexivity|]. split; [reflexivity|].
        exists legacy. split; [reflexivity|]. split; [reflexivity|]. apply migrated_last.
    + split; [reflexivity|]. right. auto.
Qed.

Lemma config_writes_app (t1 t2 : list Event) :
  config_writes (t1 ++ t2) = config_writes t1 ++ config_writes t2.
Proof. unfold config_writes. apply flat_map_app. Qed.

Lemma config_writes_none (t : list Event) :
  Forall not_config_write t -> config_writes t = [].
Proof.
  induction 1 as [|e t He _ IH]; [reflexivity|].
  unfold config_writes in *. simpl. rewrite IH.
  destruct e; try reflexivity. discriminate He.
Qed.

(** *** The run, once the configuration is loaded *)

Lemma runSync_saves_once (E : Env) (fuel : nat) (opts : SyncOptions)
      (s : St E) (r : Outcome unit) (s' : St E) :
  runSync E fuel opts s = (r, s') ->
  match r with
  | Ok _ =>
      exists (s1 : St E),
        config_file s1 = config_file s /\ cfg_data s1 = cfg_data s
        /\ (exists t, events s1 = events s ++ t /\ Forall not_config_write t)
        /\ saveConfigLastRun E s1 = (Ok tt, s')
        /\ events s' = events s1 ++ [EWriteConfig (config_file s')]
        /\ config_file s' = saved_data E (fst (Date_now E (world s1))) (cfg_data s)
        /\ prop "last" (config_file s')
           = JStr (toISOString E (fst (Date_now E (world s1)) + 5000))
  | _ => config_file s' = config_file s
         /\ exists t, events s' = events s ++ t /\ Forall not_config_write t
  end.
Proof.
  intros H. pose proof (runSync_ends_with_save E fuel opts _ _ _ H) as Hq.
  destruct r as [[]|e|c|].
  - destruct (runSync_returns_config_object E fuel opts s s' H) as [kvs Hobj].
    destruct Hq as (s1 & (Hc & Hf & t & Ht & Hall) & Hs).
    exists s1. split; [exact Hf|]. split; [exact Hc|].
    split; [exists t; auto|]. split; [exact Hs|].
    unfold saveConfigLastRun, bind, now, get_cfg, write_config in Hs.
    destruct (Date_now E (world s1)) as [t0 w0]. inversion Hs; subst s'. simpl.
    rewrite Hc. split; [reflexivity|]. split; [reflexivity|].
    rewrite Hobj. apply saved_data_last.
  - destruct Hq as (_ & Hf & t & Ht & Hall). split; [exact Hf|]. exists t. auto.
  - destruct Hq as (_ & Hf & t & Ht & Hall). split; [exact Hf|]. exists t. auto.
  - destruct Hq as (_ & Hf & t & Ht & Hall). split; [exact Hf|]. exists t. auto.
Qed.

(** *** The run, from the files on *)

Lemma runSync_from_disk_writes (E : Env) (fuel : nat) (join : string -> string -> string)
      (cdir : string) (opts : SyncOptions) (w : World E)
      (json : option Json) (ini : option Ini) :
  let run := runSync_from_disk E fuel join cdir opts w json ini in
  let first := config_writes (loader_events (loader_written E join cdir json ini)) in
  match outcome run with
  | Ok _ =>
      exists (data : Json) (n : Z) (pre : list Event),
        trace run = pre ++ [EWriteConfig (saved_data E n data)]
        /\ config_writes (trace run) = first ++ [saved_data E n data]
        /\ config_json run = Some (saved_data E n data)
        /\ prop "last" (saved_data E n data) = JStr (toISOString E (n + 5000))
  | _ =>
      config_writes (trace run) = first
      /\ config_json run = match loader_written E join cdir json ini with
                           | Some d => Some d
                           | None => json
                           end
  end.
Proof.
  cbv zeta. unfold runSync_from_disk, loader_written.
  pose proof (loader_writes E join cdir json ini) as Hl.
  destruct (loadConfigOrCreateDefault E join cdir json ini) as [data written| |code written].
  - cbn [outcome trace config_json].
    destruct (runSync E fuel opts (mkSt E w [] [] data data (loader_events written)))
      as [r s'] eqn:Hrun.
    pose proof (runSync_saves_once E fuel opts _ _ _ Hrun) as Hs. cbn [fst snd].
    assert (Hfile : match written with Some d => Some d | None => json end = Some data).
    { destruct Hl as [[-> ->]|(-> & -> & _)]; reflexivity. }
    destruct r as [[]|e|c|].
    + destruct Hs as (s1 & Hf1 & Hc1 & (t & Ht & Hall) & Hsave & Hev & Hfile' & Hlast).
      cbn [cfg_data config_file events] in *.
      exists data, (fst (Date_now E (world s1))), (events s1).
      rewrite Hfile' in Hev. split; [exact Hev|].
      split; [|split; [rewrite Hfile'; reflexivity | rewrite <- Hfile'; exact Hlast]].
      rewrite Hev, Ht, !config_writes_app, (config_writes_none t Hall), app_nil_r.
      reflexivity.
    + destruct Hs as (Hf & t & Ht & Hall). cbn [cfg_data config_file events] in *.
      rewrite Ht, config_writes_app, (config_writes_none t Hall), app_nil_r, Hf, Hfile. auto.
    + destruct Hs as (Hf & t & Ht & Hall). cbn [cfg_data config_file events] in *.
      rewrite Ht, config_writes_app, (config_writes_none t Hall), app_nil_r, Hf, Hfile. auto.
    + destruct Hs as (Hf & t & Ht & Hall). cbn [cfg_data config_file events] in *.
      rewrite Ht, config_writes_app, (config_writes_none t Hall), app_nil_r, Hf, Hfile. auto.
  - cbn [outcome trace config_json loader_events]. auto.
  - cbn [outcome trace config_json]. auto.
Qed.

(** C7.  The watermark is written by [saveConfigLastRun] only, once the
    configuration is loaded: a run that returns ran it as its last step,
    in a state [s1] reached without any other write of the file, and it
    wrote [last = toISOString(Date.now() + 5000)], the clock being read in
    that step; a run that ends otherwise (a thrown error, a
    [process.exit], no end at all) leaves the file as the loader left it.
    The loader leaves an existing [config.json] alone.  Without
    [config.json] it writes the file before the run proper: migrated from
    [config.ini], with the watermark of the legacy file, or, with neither
    file, the default configuration, and the process exits with code 1.
    So a run that returns wrote the file once when [config.json] was
    there, and twice when it was migrated. *)
Theorem watermark_atomicity :
  (forall (E : Env) (join : string -> string -> string) (cdir : string)
          (json : option Json) (ini : option Ini),
      match loadConfigOrCreateDefault E join cdir json ini with
      | Config data written =>
          (json = Some data /\ written = None)
          \/ (json = None /\ written = Some data
              /\ exists legacy, ini = Some legacy /\ data = migrateIniToJson E legacy
                                /\ prop "last" data = JStr (legacy_last legacy))
      | ConfigError => json <> None
      | ConfigExit code written =>
          json = None
          /\ ((code = 2%Z /\ written = None /\ ini <> None)
              \/ (code = 1%Z /\ written = Some (defaultJsonConfig join cdir) /\ ini = None))
      end)
  /\ (forall (E : Env) (fuel : nat) (opts : SyncOptions)
             (s : St E) (r : Outcome unit) (s' : St E),
         runSync E fuel opts s = (r, s') ->
         match r with
         | Ok _ =>
             exists (s1 : St E),
               config_file s1 = config_file s /\ cfg_data s1 = cfg_data s
               /\ (exists t, events s1 = events s ++ t /\ Forall not_config_write t)
               /\ saveConfigLastRun E s1 = (Ok tt, s')
               /\ events s' = events s1 ++ [EWriteConfig (config_file s')]
               /\ config_file s' = saved_data E (fst (Date_now E (world s1))) (cfg_data s)
               /\ prop "last" (config_file s')
                  = JStr (toISOString E (fst (Date_now E (world s1)) + 5000))
         | _ => config_file s' = config_file s
                /\ exists t, events s' = events s ++ t /\ Forall not_config_write t
         end)
  /\ (forall (E : Env) (fuel : nat) (join : string -> string -> string) (cdir : string)
             (opts : SyncOptions) (w : World E) (json : option Json) (ini : option Ini),
         let run := runSync_from_disk E fuel join cdir opts w json ini in
         let first := config_writes (loader_events (loader_written E join cdir json ini)) in
         match outcome run with
         | Ok _ =>
             exists (data : Json) (n : Z) (pre : list Event),
               trace run = pre ++ [EWriteConfig (saved_data E n data)]
               /\ config_writes (trace run) = first ++ [saved_data E n data]
               /\ config_json run = Some (saved_data E n data)
               /\ prop "last" (saved_data E n data) = JStr (toISOString E (n + 5000))
         | _ =>
             config_writes (trace run) = first
             /\ config_json run = match loader_written E join cdir json ini with
                                  | Some d => Some d
                                  | None => json
                                  end
         end)
  /\ (forall (E : Env) (fuel : nat) (join : string -> string -> string) (cdir : string)
             (opts : SyncOptions) (w : World E) (json : option Json) (ini : option Ini),
         let run := runSync_from_disk E fuel join cdir opts w json ini in
         match outcome run with
         | Ok _ => List.length (config_writes (trace run))
                   = match json with Some _ => 1%nat | None => 2%nat end
         | _ => json <> None -> config_writes (trace run) = [] /\ config_json run = json
         end).
Proof.
  split; [exact loader_writes|]. split; [exact runSync_saves_once|].
  split; [exact runSync_from_disk_writes|].
  intros E fuel join cdir opts w json ini. cbv zeta.
  pose proof (runSync_from_disk_writes E fuel join cdir opts w json ini) as Hw.
  pose proof (loader_writes E join cdir json ini) as Hl.
  cbv zeta in Hw. unfold loader_written in Hw.
  assert (Hrun : forall data written,
             loadConfigOrCreateDefault E join cdir json ini = Config data written ->
             List.length (config_writes (loader_events written))
             = match json with Some _ => 0%nat | None => 1%nat end).
  { intros data written Heq. rewrite Heq in Hl.
    destruct Hl as [[-> ->]|(-> & -> & _)]; reflexivity. }
  destruct (outcome (runSync_from_disk E fuel join cdir opts w json ini)) as [[]|e|c|] eqn:Ho.
  - destruct Hw as (data & n & pre & _ & Hcw & _). rewrite Hcw.
    unfold runSync_from_disk in Ho.
    destruct (loadConfigOrCreateDefault E join cdir json ini) as [d wr| |code wr] eqn:Hld;
      try discriminate.
    rewrite length_app, (Hrun d wr eq_refl). destruct json; reflexivity.
  - intros Hj. destruct Hw as [Hcw Hfile].
    destruct (loadConfigOrCreateDefault E join cdir json ini) as [d wr| |code wr] eqn:Hld.
    + destruct Hl as [[-> ->]|(-> & _)]; [auto | congruence].
    + auto.
    + destruct Hl as [-> _]. congruence.
  - intros Hj. destruct Hw as [Hcw Hfile].
    destruct (loadConfigOrCreateDefault E join cdir json ini) as [d wr| |code wr] eqn:Hld.
    + destruct Hl as [[-> ->]|(-> & _)]; [auto | congruence].
    + auto.
    + destruct Hl as [-> _]. congruence.
  - intros Hj. destruct Hw as [Hcw Hfile].
    destruct (loadConfigOrCreateDefault E join cdir json ini) as [d wr| |code wr] eqn:Hld.
    + destruct Hl as [[-> ->]|(-> & _)]; [auto | congruence].
    + auto.
    + destruct Hl as [-> _]. congruence.
Qed.

Lemma watermark_atomicity_witness :
  (runSync Sim.env 5 (mkOpts false None) (start Sim.env demo_world demo_config)
   = (Ok tt, demo_synced)
   /\ exists s1 : St Sim.env,
       config_file s1 = demo_config /\ cfg_data s1 = demo_config
       /\ (exists t, events s1 = [] ++ t /\ Forall not_config_write t)
       /\ saveConfigLastRun Sim.env s1 = (Ok tt, demo_synced)
       /\ events demo_synced = events s1 ++ [EWriteConfig (config_file demo_synced)]
       /\ config_file demo_synced
          = saved_data Sim.env (fst (Date_now Sim.env (world s1))) demo_config
       /\ prop "last" (config_file demo_synced)
          = JStr (toISOString Sim.env (fst (Date_now Sim.env (world s1)) + 5000)))
  /\ (outcome plain_run = Ok tt /\ List.length (config_writes (trace plain_run)) = 1%nat)
  /\ (outcome migrating_run = Ok tt
      /\ List.length (config_writes (trace migrating_run)) = 2%nat
      /\ hd_error (config_writes (trace migrating_run))
         = Some (migrateIniToJson Sim.env legacy_config))
  /\ (outcome first_run = Exit 1
      /\ config_writes (trace first_run) = [defaultJsonConfig String.append "cfg/"]).
Proof.
  destruct watermark_atomicity as (_ & Hsave & Hwrites & Hcount).
  split.
  { split; [reflexivity|].
    apply (Hsave Sim.env 5%nat (mkOpts false None) (start Sim.env demo_world demo_config)
                 (Ok tt) demo_synced).
    reflexivity. }
  split.
  { split; [reflexivity|].
    pose proof (Hcount Sim.env 5%nat String.append "cfg/" (mkOpts false None) demo_world
                       (Some demo_config) None) as H.
    cbv zeta in H.
    assert (Hr : runSync_from_disk Sim.env 5 String.append "cfg/" (mkOpts false None)
                                   demo_world (Some demo_config) None = plain_run)
      by reflexivity.
    rewrite Hr in H. exact H. }
  split.
  { split; [reflexivity|].
    pose proof (Hcount Sim.env 5%nat String.append "cfg/" (mkOpts false None) demo_world
                       None (Some legacy_config)) as H.
    cbv zeta in H.
    assert (Hr : runSync_from_disk Sim.env 5 String.append "cfg/" (mkOpts false None)
                                   demo_world None (Some legacy_config) = migrating_run)
      by reflexivity.
    rewrite Hr in H. split; [exact H | reflexivity]. }
  split; [reflexivity|].
  pose proof (Hwrites Sim.env 5%nat String.append "cfg/" (mkOpts false None) demo_world
                      None None) as H.
  cbv zeta in H.
  assert (Hr : runSync_from_disk Sim.env 5 String.append "cfg/" (mkOpts false None)
                                 demo_world None None = first_run) by reflexivity.
  rewrite Hr in H. exact (proj1 H).
Defined.

(** C7 as stated fails for a run that starts from a legacy [config.ini]:
    it returns after two writes of [config.json], the migrated
    configuration by the loader and the watermark at the end. *)
Lemma watermark_written_once_counterexample :
  ~ (forall (E : Env) (fuel : nat) (join : string -> string -> string) (cdir : string)
            (opts : SyncOptions) (w : World E) (json : option Json) (ini : option Ini),
        outcome (runSync_from_disk E fuel join cdir opts w json ini) = Ok tt ->
        List.length (config_writes (trace (runSync_from_disk E fuel join cdir opts w json ini)))
        = 1%nat).
Proof.
  intros H.
  specialize (H Sim.env 5%nat String.append "cfg/" (mkOpts false None) demo_world
                None (Some legacy_config)).
  assert (Hr : runSync_from_disk Sim.env 5 String.append "cfg/" (mkOpts false None)
                                 demo_world None (Some legacy_config) = migrating_run)
    by reflexivity.
  rewrite Hr in H. specialize (H eq_refl). discriminate H.
Qed.
(* ================================================================== *)
(** ** Membership translation *)
(* ================================================================== *)

Lemma memberships_set (l : list Json) (kvs : list (string * Json)) :
  memberships (set_prop "memberships" (JArr l) (JObj kvs)) = l.
Proof.
  unfold memberships. simpl. rewrite assoc_obj_set, String.eqb_refl. reflexivity.
Qed.

Lemma stripPersonForUpdate_object (res : Json) : exists kvs, stripPersonForUpdate res = JObj kvs.
Proof. unfold stripPersonForUpdate. eauto. Qed.

Lemma keep_myContacts_object (kvs : list (string * Json)) :
  exists kvs', keep_myContacts (JObj kvs) = JObj kvs'
               /\ memberships (JObj kvs')
                  = filter (fun grp => str_eq (membership_rn grp) MY_CONTACTS)
                           (memberships (JObj kvs)).
Proof.
  unfold keep_myContacts. eexists. split; [reflexivity|].
  apply (memberships_set _ kvs).
Qed.

Lemma push_membership_object (m : Json) (kvs : list (string * Json)) :
  exists kvs', push_membership m (JObj kvs) = JObj kvs'
               /\ memberships (JObj kvs') = memberships (JObj kvs) ++ [m].
Proof.
  unfold push_membership. eexists. split; [reflexivity|].
  apply (memberships_set _ kvs).
Qed.

Lemma push_memberships_object (dst : Info) (groupTags : list (option string)) :
  forall (kvs : list (string * Json)) (body : Json),
    push_memberships dst groupTags (JObj kvs) = Return body ->
    exists kvs', body = JObj kvs'
                 /\ memberships body = memberships (JObj kvs) ++ translations dst groupTags.
Proof.
  induction groupTags as [|gt gts IH]; intros kvs body; cbn [push_memberships translations flat_map].
  - intros H. inversion H; subst. exists kvs. rewrite app_nil_r. auto.
  - destruct gt as [t|]; [|apply IH].
    destruct (t =? ""); [apply IH|].
    destruct (tagToRnContactGroup dst t) as [[rnOther|]|e]; [| apply IH | discriminate].
    destruct (rnOther =? ""); [apply IH|].
    destruct (push_membership_object (membership_to rnOther) kvs) as (kvs1 & -> & Hm1).
    intros H. apply IH in H. destruct H as (kvs' & -> & Hm). exists kvs'. split; [reflexivity|].
    rewrite Hm, Hm1. rewrite <- app_assoc. reflexivity.
Qed.

Lemma push_memberships_returns (dst : Info) (groupTags : list (option string)) :
  (forall t, In (Some t) groupTags -> exists r, tagToRnContactGroup dst t = Return r) ->
  forall copy, exists body, push_memberships dst groupTags copy = Return body.
Proof.
  induction groupTags as [|gt gts IH]; intros H copy; cbn [push_memberships].
  - eauto.
  - assert (H' : forall t, In (Some t) gts -> exists r, tagToRnContactGroup dst t = Return r)
      by (intros t Ht; apply H; right; exact Ht).
    destruct gt as [t|]; [|apply IH; exact H'].
    destruct (t =? ""); [apply IH; exact H'|].
    destruct (H t (or_introl eq_refl)) as [r Hr]. rewrite Hr.
    destruct r as [rnOther|]; [|apply IH; exact H'].
    destruct (rnOther =? ""); apply IH; exact H'.
Qed.

Lemma translations_none (dst : Info) (groupTags : list (option string)) :
  filter truthy_str groupTags = [] -> translations dst groupTags = [].
Proof.
  induction groupTags as [|gt gts IH]; simpl; [reflexivity|].
  destruct gt as [t|]; simpl.
  - destruct (t =? ""); simpl; [exact IH | discriminate].
  - exact IH.
Qed.

Lemma body_for_memberships (src dst : Info) (res body : Json) :
  body_for dst (groupTags_of src (stripPersonForUpdate res))
           (keep_myContacts (stripPersonForUpdate res)) = Return body ->
  memberships body
  = filter (fun grp => str_eq (membership_rn grp) MY_CONTACTS)
           (memberships (stripPersonForUpdate res))
    ++ translations dst (groupTags_of src (stripPersonForUpdate res)).
Proof.
  destruct (stripPersonForUpdate_object res) as [kvs ->].
  destruct (keep_myContacts_object kvs) as (kvs' & -> & Hk).
  unfold body_for.
  destruct (filter truthy_str (groupTags_of src (JObj kvs))) eqn:Hf; simpl.
  - intros H. inversion H; subst. rewrite translations_none by exact Hf.
    rewrite app_nil_r. exact Hk.
  - intros H. apply push_memberships_object in H. destruct H as (kvs'' & _ & H).
    rewrite H, Hk. reflexivity.
Qed.

Lemma translations_ok (src dst : Info) (fetched m : Json) :
  In m (translations dst (groupTags_of src fetched)) ->
  exists groupRn t rnOther,
    In groupRn (groupRns_of fetched)
    /\ rnToTagContactGroup src groupRn = Some t
    /\ tagToRnContactGroup dst t = Return (Some rnOther)
    /\ m = membership_to rnOther.
Proof.
  unfold translations, groupTags_of. rewrite in_flat_map.
  intros (gt & Hgt & Hm). apply in_map_iff in Hgt. destruct Hgt as (groupRn & Hrn & Hin).
  destruct gt as [t|]; [|destruct Hm].
  destruct (t =? ""); [destruct Hm|].
  destruct (tagToRnContactGroup dst t) as [[rnOther|]|e] eqn:Hl; try destruct Hm.
  destruct (rnOther =? ""); [destruct Hm|]. destruct Hm as [<-|[]].
  exists groupRn, t, rnOther. auto.
Qed.

Lemma body_for_memberships_ok (src dst : Info) (res body m : Json) :
  body_for dst (groupTags_of src (stripPersonForUpdate res))
           (keep_myContacts (stripPersonForUpdate res)) = Return body ->
  In m (memberships body) ->
  membership_ok src dst (stripPersonForUpdate res) m.
Proof.
  intros H Hm. rewrite (body_for_memberships _ _ _ _ H) in Hm.
  apply in_app_or in Hm. destruct Hm as [Hm|Hm].
  - left. apply filter_In in Hm. destruct Hm as [Hin Heq]. split; [exact Hin|].
    unfold str_eq in Heq. destruct (membership_rn m); try discriminate.
    apply String.eqb_eq in Heq. subst. reflexivity.
  - right. apply translations_ok with (1 := Hm).
Qed.

Lemma body_for_returns (dst : Info) (groupTags : list (option string)) (contact : Json) :
  (forall t, In (Some t) groupTags -> exists r, tagToRnContactGroup dst t = Return r) ->
  exists body, body_for dst groupTags contact = Return body.
Proof.
  intros H. unfold body_for. destruct (0 <? _)%nat; [|eauto].
  apply push_memberships_returns. exact H.
Qed.


#[export] Instance copies_of_reads (c0 : list (string * Contacts)) (source : string)
         (fetched : Json) : AllowsReads (copies_of c0 source fetched).
Proof.
  constructor; intros; try exact I. destruct r; try discriminate; reflexivity.
Qed.

#[export] Instance tag_write_reads (u rn : string) : AllowsReads (tag_write u rn).
Proof.
  constructor; intros; try exact I. destruct r; try discriminate; reflexivity.
Qed.

(** *** The turns that copy a contact, after the fetch *)

Section CopyTurns.

Context {E : Env} (fuel : nat) (c0 : list (string * Contacts)) (source : string)
        (fetched : Json).

Let okev := copies_of c0 source fetched.
Let R := still (E:=E) okev c0.

Lemma still_translated_for {A} (other : string) (k : Json -> M E A) :
  (forall body, copy_for c0 source fetched other = Return body -> respects R (k body)) ->
  respects R (bind (translated_for E other
                      (groupTags_of (infoGroup (lookup_account source c0)) fetched)
                      (keep_myContacts fetched)) k).
Proof.
  intros Hk. unfold translated_for.
  apply (still_lift_account okev c0 other
           (fun oacc => body_for (infoGroup oacc)
                          (groupTags_of (infoGroup (lookup_account source c0)) fetched)
                          (keep_myContacts fetched))).
  intros body Hb. apply Hk. exact Hb.
Qed.

Lemma created_copies (active : list string) (added : list (string * string)) :
  respects R
    (bind (account E source)
          (fun acc =>
             foldM active added
               (fun added other =>
                  if other =? source then ret added
                  else
                    bind (translated_for E other (groupTags_of (infoGroup acc) fetched)
                                         (keep_myContacts fetched))
                         (fun body =>
                            bind (Contacts_add E fuel other body)
                                 (fun created =>
                                    ret (match str_field "resourceName" created with
                                         | Some crn =>
                                             if crn =? "" then added
                                             else added ++ [(other, crn)]
                                         | None => added
                                         end)))))).
Proof.
  apply still_account. frame_step. destruct (_ =? _); [frame|].
  apply still_translated_for. intros body Hb.
  frame_step; [apply (respects_Contacts_add_fine fuel R okev); exact Hb | frame].
Qed.

Lemma updated_copies (active : list string) (t : string) :
  respects R
    (bind (account E source)
          (fun src =>
             for_each active
               (fun other =>
                  if other =? source then ret tt
                  else
                    bind (translated_for E other (groupTags_of (infoGroup src) fetched)
                                         (keep_myContacts fetched))
                         (fun body => Contacts_update E fuel other t body)))).
Proof.
  apply still_account. frame_step. destruct (_ =? _); [frame|].
  apply still_translated_for. intros body Hb.
  apply (respects_Contacts_update_fine fuel R okev).
  intros rn et. split; [reflexivity|]. exists body, et. auto.
Qed.

Lemma seeded_copies (newCon : list string) :
  respects R
    (bind (account E source)
          (fun src =>
             for_each newCon
               (fun other =>
                  bind (translated_for E other (groupTags_of (infoGroup src) fetched)
                                       (keep_myContacts fetched))
                       (fun body => bind (Contacts_add E fuel other body)
                                         (fun _ => ret tt))))).
Proof.
  apply still_account. frame_step.
  apply still_translated_for. intros body Hb.
  frame_step; [apply (respects_Contacts_add_fine fuel R okev); exact Hb | frame].
Qed.

End CopyTurns.

(** What a fetch leaves: the caches, and no remote write. *)
Lemma Contacts_get_fetched {E : Env} (fuel : nat) (u rn : string) (s s1 : St E)
      (fetched : Json) :
  Contacts_get E fuel u rn s = (Ok fetched, s1) ->
  (exists res, fetched = stripPersonForUpdate res)
  /\ con s1 = con s
  /\ grows not_remote_write s s1.
Proof.
  intros H. split; [|split].
  - destruct (Contacts_get_returned fuel u rn s s1 fetched H) as (res & s0 & w0 & _ & _ & Hf & _).
    exists res. exact Hf.
  - pose proof (still_keeps_con (Contacts_get E fuel u rn) s
                  (respects_Contacts_get fuel _ not_config_write u rn)) as Hc.
    rewrite H in Hc. exact Hc.
  - exact (respects_run _ _ _ _ _
             (respects_Contacts_get fuel (grows not_remote_write) not_remote_write u rn) H).
Qed.

Lemma add_contact_copies {E : Env} (fuel : nat) (active : list string) (email : string)
      (added : list (string * string)) (e : string * ContactInfo)
      (s sa sb s1 : St E) (t : string) (fetched : Json) :
  newTag E fuel s = (Ok t, sa) ->
  updateTag E fuel email (fst e) t sa = (Ok tt, sb) ->
  Contacts_get E fuel email (fst e) sb = (Ok fetched, s1) ->
  (exists res, fetched = stripPersonForUpdate res)
  /\ con s1 = con s
  /\ grows (tag_write email (fst e)) s s1
  /\ copied (con s) email fetched s1 (snd (add_contact E fuel active email added e s)).
Proof.
  intros H1 H2 H3.
  assert (Hc1 : con s1 = con s).
  { pose proof (still_keeps_con (newTag E fuel) s
                  (respects_newTag_loop _ not_config_write fuel)) as Ha.
    rewrite H1 in Ha. cbn [snd] in Ha.
    pose proof (still_keeps_con (updateTag E fuel email (fst e) t) sa
                  (respects_updateTag fuel _ not_config_write email (fst e) t)) as Hb.
    rewrite H2 in Hb. cbn [snd] in Hb.
    destruct (Contacts_get_fetched fuel _ _ _ _ _ H3) as (_ & Hc & _). congruence. }
  split; [exact (proj1 (Contacts_get_fetched fuel _ _ _ _ _ H3))|].
  split; [exact Hc1|].
  split.
  - set (okev := tag_write email (fst e)).
    pose proof (respects_run _ _ _ _ _ (respects_newTag_loop (grows okev) okev fuel) H1) as Ga.
    assert (Gb : grows okev sa sb).
    { refine (respects_run _ _ _ _ _
                (respects_updateTag_fine fuel (grows okev) okev email (fst e) t _) H2).
      intros b. split; [reflexivity|]. split; reflexivity. }
    pose proof (respects_run _ _ _ _ _
                  (respects_Contacts_get fuel (grows okev) okev email (fst e)) H3) as Gc.
    exact (fr_trans _ _ _ Ga (fr_trans _ _ _ Gb Gc)).
  - unfold add_contact. cbv zeta. unfold bind at 1. rewrite H1.
    unfold bind at 1. rewrite H2. unfold bind at 1. rewrite H3.
    exact (created_copies fuel (con s) email fetched active (added ++ [(email, fst e)]) s1 Hc1).
Qed.

Lemma propagate_update_copies {E : Env} (fuel : nat) (active : list string) (t : string)
      (val : list Cand) (nw : Cand) (s s1 : St E) (fetched : Json) :
  newest val = Some nw ->
  Contacts_get E fuel (cand_acc nw) (cand_rn nw) s = (Ok fetched, s1) ->
  (exists res, fetched = stripPersonForUpdate res)
  /\ con s1 = con s
  /\ grows not_remote_write s s1
  /\ copied (con s) (cand_acc nw) fetched s1 (snd (propagate_update E fuel active (t, val) s)).
Proof.
  intros Hnw H.
  destruct (Contacts_get_fetched fuel _ _ _ _ _ H) as (Hres & Hc1 & Hg).
  split; [exact Hres|]. split; [exact Hc1|]. split; [exact Hg|].
  unfold propagate_update. cbn [snd fst]. rewrite Hnw. unfold bind at 1. rewrite H.
  exact (updated_copies fuel (con s) (cand_acc nw) fetched active t s1 Hc1).
Qed.

Lemma seed_contact_copies {E : Env} (fuel : nat) (source : string) (newCon : list string)
      (e : string * ContactInfo) (s s1 : St E) (fetched : Json) :
  Contacts_get E fuel source (fst e) s = (Ok fetched, s1) ->
  (exists res, fetched = stripPersonForUpdate res)
  /\ con s1 = con s
  /\ grows not_remote_write s s1
  /\ copied (con s) source fetched s1 (snd (seed_contact E fuel source newCon e s)).
Proof.
  intros H.
  destruct (Contacts_get_fetched fuel _ _ _ _ _ H) as (Hres & Hc1 & Hg).
  split; [exact Hres|]. split; [exact Hc1|]. split; [exact Hg|].
  unfold seed_contact. unfold bind at 1. rewrite H.
  exact (seeded_copies fuel (con s) source fetched newCon s1 Hc1).
Qed.

(** The memberships of the body made for a destination. *)
Lemma copy_for_memberships (c0 : list (string * Contacts)) (source other : string)
      (fetched body : Json) :
  (exists res, fetched = stripPersonForUpdate res) ->
  copy_for c0 source fetched other = Return body ->
  memberships body
  = filter (fun grp => str_eq (membership_rn grp) MY_CONTACTS) (memberships fetched)
    ++ translations (infoGroup (lookup_account other c0))
                    (groupTags_of (infoGroup (lookup_account source c0)) fetched)
  /\ forall m, In m (memberships body) ->
               membership_ok (infoGroup (lookup_account source c0))
                             (infoGroup (lookup_account other c0)) fetched m.
Proof.
  intros [res ->] H. unfold copy_for in H. split.
  - apply body_for_memberships. exact H.
  - intros m Hm. eapply body_for_memberships_ok; eassumption.
Qed.

(** The three steps leave the caches as they are. *)
Lemma copy_steps_keep_caches {E : Env} (fuel : nat) (active newCon : list string)
      (added : list (string * string)) (lastUpdate : Date) (source : string) (s : St E) :
  con (snd (add_contacts E fuel active s)) = con s
  /\ con (snd (update_contacts E fuel active added lastUpdate s)) = con s
  /\ con (snd (seed_contacts E fuel source newCon s)) = con s.
Proof.
  split; [|split]; apply still_keeps_con.
  - apply (respects_add_contacts fuel _ not_config_write).
  - apply (respects_update_contacts fuel _ not_config_write).
  - unfold seed_contacts.
    apply (respects_bind _ not_config_write); [apply (respects_account _ not_config_write)|].
    intros src. apply (respects_for_each _ not_config_write). intros e.
    apply (respects_seed_contact fuel _ not_config_write).
Qed.


(* ================================================================== *)
(** ** Deletion propagation *)
(* ================================================================== *)


(** *** The tag sets *)

Lemma In_tags_of (i : Info) (t : string) :
  In t (tags_of i) <-> exists rn ci, In (rn, ci) i /\ tag ci = Some t /\ t <> "".
Proof.
  unfold tags_of. rewrite in_flat_map. split.
  - intros ([rn ci] & Hin & Ht). simpl in Ht. destruct (tag ci) as [t'|] eqn:Htag; [|destruct Ht].
    destruct (t' =? "") eqn:He; [destruct Ht|]. destruct Ht as [->|[]].
    exists rn, ci. apply String.eqb_neq in He. auto.
  - intros (rn & ci & Hin & Ht & Hne). exists (rn, ci). split; [exact Hin|]. simpl.
    rewrite Ht. apply String.eqb_neq in Hne. rewrite Hne. left. reflexivity.
Qed.

Lemma In_all_tags_from (infos : list Info) (acc : list string) (t : string) :
  In t (fold_left (fun all i => fold_left set_add (tags_of i) all) infos acc)
  <-> In t acc \/ exists i, In i infos /\ In t (tags_of i).
Proof.
  revert acc. induction infos as [|i infos IH]; intros acc; simpl.
  - split; [auto | intros [H|(i & [] & _)]; exact H].
  - rewrite IH, In_fold_set_add. split.
    + intros [[H|H]|(j & Hj & Ht)]; eauto.
    + intros [H|(j & [<-|Hj] & Ht)]; eauto.
Qed.

Lemma In_all_tags (infos : list Info) (t : string) :
  In t (all_tags infos) <-> exists i, In i infos /\ In t (tags_of i).
Proof.
  unfold all_tags. rewrite In_all_tags_from. split; [intros [[]|H]; exact H | auto].
Qed.

Lemma In_missing_in (all : list string) (i : Info) (t : string) :
  In t (missing_in all i) <-> In t all /\ ~ In t (tags_of i).
Proof.
  unfold missing_in. rewrite filter_In, negb_true_iff, set_has_false, In_set_of. tauto.
Qed.

Lemma In_to_delete_from (all : list string) (infos : list Info) (acc : list string) (t : string) :
  In t (fold_left (fun del i => fold_left set_add (missing_in all i) del) infos acc)
  <-> In t acc \/ exists i, In i infos /\ In t all /\ ~ In t (tags_of i).
Proof.
  revert acc. induction infos as [|i infos IH]; intros acc; simpl.
  - split; [auto | intros [H|(i & [] & _)]; exact H].
  - rewrite IH, In_fold_set_add, In_missing_in. split.
    + intros [[H|H]|(j & Hj & Ht)]; eauto.
    + intros [H|(j & [<-|Hj] & Ht)]; eauto.
Qed.

Lemma In_to_delete (infos : list Info) (t : string) :
  In t (to_delete infos) <->
  (exists i, In i infos /\ In t (tags_of i)) /\ (exists i, In i infos /\ ~ In t (tags_of i)).
Proof.
  unfold to_delete. rewrite In_to_delete_from. split.
  - intros [[]|(i & Hi & Hall & Hn)]. apply In_all_tags in Hall. split; eauto.
  - intros [Hall (i & Hi & Hn)]. apply In_all_tags in Hall. right. eauto.
Qed.

(** *** The deletion step *)

Lemma infos_of_from {E : Env} (users : list string) (s : St E) :
  forall l, foldM users l (fun l u => bind (account E u) (fun c => ret (l ++ [(u, info c)]))) s
            = (Ok (l ++ map (fun u => (u, info (acct s u))) users), s).
Proof.
  induction users as [|u users IH]; intros l; simpl.
  - rewrite app_nil_r. reflexivity.
  - unfold bind at 1. unfold bind at 1. unfold account, bind, get_con, ret. simpl.
    rewrite IH. rewrite <- app_assoc. reflexivity.
Qed.

Lemma infos_of_run {E : Env} (users : list string) (s : St E) :
  infos_of E users s = (Ok (map (fun u => (u, info (acct s u))) users), s).
Proof. unfold infos_of. exact (infos_of_from users s []). Qed.

#[export] Instance deletes_reads (c0 : list (string * Contacts)) (D : list string) :
  AllowsReads (deletes c0 D).
Proof.
  constructor; intros; try exact I. destruct r; try discriminate; reflexivity.
Qed.

Section DeleteStep.

Context {E : Env} (fuel : nat) (c0 : list (string * Contacts)) (D : list string).

Let R := still (E:=E) (deletes c0 D) c0.

Lemma delete_request_deletes (u t rn : string) :
  In t D -> tagToRn (info (lookup_account u c0)) t = Return (Some rn) ->
  respects R (delete_request u rn).
Proof.
  intros Hin Hl. unfold delete_request.
  frame_step; [|frame]. apply (respects_call R (deletes c0 D)). simpl. eauto.
Qed.

Lemma Contacts_delete_deletes (u t : string) :
  In t D -> respects R (Contacts_delete E fuel u t).
Proof.
  intros Hin. unfold Contacts_delete. apply still_account.
  destruct (tagToRn (info (lookup_account u c0)) t) as [[rn|]|e] eqn:Hl.
  - intros s. unfold bind at 1. unfold lift, ret. destruct (rn =? ""); [apply fr_refl|].
    apply (respects_withBackoff_loop R (deletes c0 D)); [intros; exact I|].
    apply (delete_request_deletes u t rn Hin Hl).
  - intros s. apply fr_refl.
  - intros s. apply fr_refl.
Qed.

Lemma delete_loops_deletes (active : list string) :
  respects R (for_each active (fun email => for_each D (fun t => Contacts_delete E fuel email t))).
Proof.
  frame_step. apply (respects_for_each_In R (deletes c0 D)).
  intros t Ht. apply Contacts_delete_deletes. exact Ht.
Qed.

Lemma delete_loops_returned (active : list string) (u tg rn : string) (s s' : St E) :
  con s = c0 ->
  for_each active (fun email => for_each D (fun t => Contacts_delete E fuel email t)) s
  = (Ok tt, s') ->
  In u active -> In tg D ->
  tagToRn (info (lookup_account u c0)) tg = Return (Some rn) -> rn <> "" ->
  exists t, events s' = events s ++ t /\ In (ECall u (DeleteContact rn)) t.
Proof.
  intros Hc Hrun Hu Htg Hl Hrn.
  destruct (for_each_returned R (deletes c0 D) active _ u
              (fun y _ => respects_for_each_In R (deletes c0 D) D _
                            (fun t Ht => Contacts_delete_deletes y t Ht))
              Hu s s' Hrun) as (s1 & s2 & H1 & Hrun1 & H2).
  destruct (H1 Hc) as (Hc1 & t1 & Ht1 & _).
  (* the turn of [tg] in the inner loop *)
  assert (Hinner : exists s3 s4, R s1 s3 /\ Contacts_delete E fuel u tg s3 = (Ok tt, s4) /\ R s4 s2).
  { apply (for_each_returned R (deletes c0 D) D (fun t => Contacts_delete E fuel u t) tg
             (fun t Ht => Contacts_delete_deletes u t Ht) Htg s1 s2 Hrun1). }
  destruct Hinner as (s3 & s4 & H3 & Hd & H4).
  destruct (H3 Hc1) as (Hc3 & t3 & Ht3 & _).
  (* the attempt that succeeded *)
  unfold Contacts_delete, bind at 1, account, bind at 1, get_con, ret in Hd. simpl in Hd.
  rewrite Hc3, Hl in Hd. unfold bind at 1, lift, ret in Hd.
  apply String.eqb_neq in Hrn. rewrite Hrn in Hd.
  destruct (withBackoff_loop_returned R (deletes c0 D) _ fuel (fun _ => I)
              (delete_request_deletes u tg rn Htg Hl) _ _ _ _ Hd) as (s5 & H5 & Hreq).
  destruct (H5 Hc3) as (Hc5 & t5 & Ht5 & _).
  assert (Hev : events s4 = events s5 ++ [ECall u (DeleteContact rn)]).
  { unfold delete_request, bind, call in Hreq.
    destruct (api E u (DeleteContact rn) (world s5)) as [[d|e|] w]; simpl in Hreq;
      try discriminate; inversion Hreq; reflexivity. }
  assert (Hc4 : con s4 = c0).
  { unfold delete_request, bind, call in Hreq.
    destruct (api E u (DeleteContact rn) (world s5)) as [[d|e|] w]; simpl in Hreq;
      try discriminate; inversion Hreq; exact Hc5. }
  destruct (H4 Hc4) as (Hc2 & t4 & Ht4 & _).
  destruct (H2 Hc2) as (_ & t2 & Ht2 & _).
  exists (t1 ++ t3 ++ t5 ++ [ECall u (DeleteContact rn)] ++ t4 ++ t2). split.
  - rewrite Ht2, Ht4, Hev, Ht5, Ht3, Ht1. rewrite <- !app_assoc. reflexivity.
  - apply in_or_app. right. apply in_or_app. right. apply in_or_app. right.
    left. reflexivity.
Qed.

End DeleteStep.

(** C1.  A tag is scheduled for deletion exactly when some active account
    carries it and some active account does not: the set is the union, over
    the active accounts, of the union of all tags minus the account's own.
    The deletion step sends no other remote write than the deletion of
    contacts that carry a scheduled tag in their account; and when the step
    returns, every active account that holds a scheduled tag (on one
    entity) had that entity deleted in the step. *)
Theorem deletion_propagation :
  (forall (infos : list Info) (t : string),
      (In t (all_tags infos) <-> exists i, In i infos /\ In t (tags_of i))
      /\ (In t (to_delete infos) <->
          (exists i, In i infos /\ In t (tags_of i))
          /\ (exists i, In i infos /\ ~ In t (tags_of i)))
      /\ (In t (to_delete infos) <->
          exists i, In i infos /\ In t (all_tags infos) /\ ~ In t (tags_of i)))
  /\ (forall (E : Env) (fuel : nat) (active : list string) (s : St E),
         grows (deletes (con s) (to_delete (map (fun u => info (acct s u)) active)))
               s (snd (delete_contacts E fuel active s)))
  /\ (forall (E : Env) (fuel : nat) (active : list string) (s s' : St E) (u tg rn : string),
         delete_contacts E fuel active s = (Ok tt, s') ->
         In u active ->
         In tg (to_delete (map (fun u => info (acct s u)) active)) ->
         tagToRn (info (acct s u)) tg = Return (Some rn) -> rn <> "" ->
         exists t, events s' = events s ++ t /\ In (ECall u (DeleteContact rn)) t).
Proof.
  split; [|split].
  - intros infos t. split; [apply In_all_tags|]. split; [apply In_to_delete|].
    rewrite In_to_delete. split.
    + intros [Hall (i & Hi & Hn)]. exists i. rewrite In_all_tags. auto.
    + intros (i & Hi & Hall & Hn). rewrite In_all_tags in Hall. eauto.
  - intros E fuel active s. unfold delete_contacts, bind at 1. rewrite infos_of_run.
    rewrite map_map. cbn [snd]. cbv zeta.
    set (D := to_delete (map (fun u => info (acct s u)) active)).
    destruct (0 <? List.length D)%nat; [|apply (fr_refl (Frame:=grows_Frame _))].
    unfold bind.
    pose proof (delete_loops_deletes fuel (con s) D active s eq_refl) as (Hc & t & Ht & Hf).
    destruct (for_each active _ s) as [[[]|e|c|] s1]; simpl in *;
      try (exists t; split; assumption).
    pose proof (respects_for_each (grows (deletes (con s) D)) (deletes (con s) D) active
                  (getInfo E fuel)
                  (respects_getInfo fuel (grows (deletes (con s) D)) (deletes (con s) D)) s1)
      as (t2 & Ht2 & Hf2).
    exists (t ++ t2). split; [rewrite Ht2, Ht, app_assoc; reflexivity|].
    apply Forall_app. auto.
  - intros E fuel active s s' u tg rn Hrun Hu Htg Hl Hrn.
    unfold delete_contacts, bind at 1 in Hrun. rewrite infos_of_run in Hrun.
    rewrite map_map in Hrun. cbn [snd] in Hrun. cbv zeta in Hrun.
    set (D := to_delete (map (fun u => info (acct s u)) active)) in *.
    assert (Hlen : (0 <? List.length D)%nat = true).
    { destruct D; [destruct Htg | reflexivity]. }
    rewrite Hlen in Hrun. unfold bind in Hrun.
    destruct (for_each active _ s) as [[[]|e|c|] s1] eqn:Hloops; try discriminate.
    destruct (delete_loops_returned fuel (con s) D active u tg rn s s1 eq_refl Hloops
                Hu Htg Hl Hrn) as (t & Ht & Hin).
    pose proof (respects_for_each (grows not_config_write) not_config_write active
                  (getInfo E fuel)
                  (respects_getInfo fuel (grows not_config_write) not_config_write) s1)
      as (t2 & Ht2 & _).
    rewrite Hrun in Ht2. simpl in Ht2.
    exists (t ++ t2). split; [rewrite Ht2, Ht, app_assoc; reflexivity|].
    apply in_or_app. left. exact Hin.
Qed.

Lemma deletion_propagation_witness :
  delete_contacts Sim.env 5 ["a"; "b"] del_loaded = (Ok tt, del_done)
  /\ In "t2" (to_delete (map (fun u => info (acct del_loaded u)) ["a"; "b"]))
  /\ exists t, events del_done = events del_loaded ++ t
               /\ In (ECall "a" (DeleteContact "people/a2")) t.
Proof.
  split; [reflexivity|]. split; [left; reflexivity|].
  apply (proj2 (proj2 deletion_propagation) Sim.env 5%nat ["a"; "b"] del_loaded del_done
               "a" "t2" "people/a2").
  - reflexivity.
  - left. reflexivity.
  - left. reflexivity.
  - reflexivity.
  - discriminate.
Defined.
(* ================================================================== *)
(** ** Update propagation *)
(* ================================================================== *)

(** *** The candidates *)

Lemma merge_merge (o : option (list Cand)) (l1 l2 : list Cand) :
  merge (merge o l1) l2 = merge o (l1 ++ l2).
Proof.
  destruct l1 as [|a l1]; [reflexivity|].
  destruct l2 as [|b l2]; simpl.
  - rewrite app_nil_r. reflexivity.
  - rewrite <- app_assoc. reflexivity.
Qed.

Lemma assoc_note_update (added : list (string * string)) (lastUpdate : Date) (u t : string)
      (updates : list (string * list Cand)) (kv : string * ContactInfo) :
  assoc t (note_update added lastUpdate u updates kv)
  = merge (assoc t updates)
          (if is_candidate added lastUpdate u t kv
           then [mkCand u (fst kv) (updated (snd kv))] else []).
Proof.
  unfold note_update, is_candidate. destruct (tag (snd kv)) as [t'|]; [|reflexivity].
  destruct (t' =? "") eqn:He; simpl.
  - rewrite andb_false_r. reflexivity.
  - rewrite andb_true_r.
    destruct (date_gt (updated (snd kv)) lastUpdate && negb (wasAdded added u (fst kv))) eqn:Hc.
    + rewrite assoc_obj_set. rewrite <- andb_assoc, Hc, andb_true_r.
      destruct (t' =? t) eqn:Ht; [|reflexivity].
      apply String.eqb_eq in Ht. subst t'. simpl. reflexivity.
    + rewrite <- andb_assoc, Hc, andb_false_r. reflexivity.
Qed.

Lemma assoc_note_updates (added : list (string * string)) (lastUpdate : Date) (u t : string)
      (entries : Info) :
  forall updates,
    assoc t (fold_left (note_update added lastUpdate u) entries updates)
    = merge (assoc t updates)
            (map (fun kv => mkCand u (fst kv) (updated (snd kv)))
                 (filter (is_candidate added lastUpdate u t) entries)).
Proof.
  induction entries as [|kv entries IH]; intros updates; simpl; [reflexivity|].
  rewrite IH, assoc_note_update, merge_merge.
  destruct (is_candidate added lastUpdate u t kv); reflexivity.
Qed.

Lemma assoc_collect_updates_from (added : list (string * string)) (lastUpdate : Date)
      (t : string) (caches : list (string * Info)) :
  forall updates,
    assoc t (fold_left (fun updates ui =>
                          fold_left (note_update added lastUpdate (fst ui)) (snd ui) updates)
                       caches updates)
    = merge (assoc t updates) (candidates added lastUpdate t caches).
Proof.
  induction caches as [|ui caches IH]; intros updates; simpl; [reflexivity|].
  rewrite IH, assoc_note_updates, merge_merge. reflexivity.
Qed.

Lemma assoc_collect_updates (added : list (string * string)) (lastUpdate : Date)
      (t : string) (caches : list (string * Info)) :
  assoc t (collect_updates added lastUpdate caches)
  = merge None (candidates added lastUpdate t caches).
Proof. unfold collect_updates. apply assoc_collect_updates_from. Qed.

Lemma In_keys_obj_set {A} (k k' : string) (v : A) (m : list (string * A)) :
  In k' (map fst (obj_set k v m)) <-> k' = k \/ In k' (map fst m).
Proof.
  induction m as [|[k0 v0] m IH]; simpl.
  - intuition.
  - destruct (k0 =? k) eqn:H; simpl.
    + apply String.eqb_eq in H. subst. intuition.
    + rewrite IH. intuition.
Qed.

Lemma NoDup_keys_obj_set {A} (k : string) (v : A) (m : list (string * A)) :
  NoDup (map fst m) -> NoDup (map fst (obj_set k v m)).
Proof.
  induction m as [|[k0 v0] m IH]; simpl; intros H.
  - constructor; [intros [] | constructor].
  - inversion H as [|? ? Hn Hd]; subst. destruct (k0 =? k) eqn:He; simpl.
    + apply String.eqb_eq in He. subst. constructor; assumption.
    + constructor; [|apply IH; exact Hd].
      rewrite In_keys_obj_set. intros [->|Hin]; [|exact (Hn Hin)].
      rewrite String.eqb_refl in He. discriminate.
Qed.

Lemma NoDup_keys_assoc {A} (k : string) (v : A) (m : list (string * A)) :
  NoDup (map fst m) -> In (k, v) m -> assoc k m = Some v.
Proof.
  induction m as [|[k0 v0] m IH]; simpl; intros H Hin; [destruct Hin|].
  inversion H as [|? ? Hn Hd]; subst. destruct Hin as [Heq|Hin].
  - inversion Heq; subst. rewrite String.eqb_refl. reflexivity.
  - destruct (k0 =? k) eqn:He; [|apply IH; assumption].
    apply String.eqb_eq in He. subst. exfalso. apply Hn.
    apply in_map_iff. exists (k, v). auto.
Qed.

Lemma NoDup_keys_note_update (added : list (string * string)) (lastUpdate : Date) (u : string)
      (updates : list (string * list Cand)) (kv : string * ContactInfo) :
  NoDup (map fst updates) -> NoDup (map fst (note_update added lastUpdate u updates kv)).
Proof.
  intros H. unfold note_update. destruct (tag (snd kv)); [|exact H].
  destruct (_ =? ""); [exact H|]. destruct (_ && _); [|exact H].
  apply NoDup_keys_obj_set. exact H.
Qed.

Lemma NoDup_keys_note_updates (added : list (string * string)) (lastUpdate : Date) (u : string)
      (entries : Info) :
  forall updates,
    NoDup (map fst updates) ->
    NoDup (map fst (fold_left (note_update added lastUpdate u) entries updates)).
Proof.
  induction entries as [|kv entries IH]; intros updates H; simpl; [exact H|].
  apply IH. apply NoDup_keys_note_update. exact H.
Qed.

Lemma NoDup_keys_collect_updates (added : list (string * string)) (lastUpdate : Date)
      (caches : list (string * Info)) :
  NoDup (map fst (collect_updates added lastUpdate caches)).
Proof.
  unfold collect_updates.
  assert (H : NoDup (map fst (@nil (string * list Cand)))) by constructor.
  revert H. generalize (@nil (string * list Cand)) as updates.
  induction caches as [|ui caches IH]; intros updates H; simpl; [exact H|].
  apply IH. apply NoDup_keys_note_updates. exact H.
Qed.

Lemma collect_updates_candidates (added : list (string * string)) (lastUpdate : Date)
      (caches : list (string * Info)) (t : string) (val : list Cand) :
  In (t, val) (collect_updates added lastUpdate caches) ->
  val = candidates added lastUpdate t caches /\ val <> [].
Proof.
  intros Hin. apply NoDup_keys_assoc in Hin; [|apply NoDup_keys_collect_updates].
  rewrite assoc_collect_updates in Hin. unfold merge in Hin.
  destruct (candidates added lastUpdate t caches) as [|c l]; [discriminate|].
  simpl in Hin. inversion Hin. split; [reflexivity | discriminate].
Qed.

Lemma In_candidates (added : list (string * string)) (lastUpdate : Date) (t : string)
      (caches : list (string * Info)) (c : Cand) :
  In c (candidates added lastUpdate t caches) <->
  exists i ci,
    In (cand_acc c, i) caches /\ In (cand_rn c, ci) i
    /\ cand_updated c = updated ci
    /\ tag ci = Some t /\ t <> ""
    /\ date_gt (updated ci) lastUpdate = true
    /\ wasAdded added (cand_acc c) (cand_rn c) = false.
Proof.
  unfold candidates. rewrite in_flat_map. split.
  - intros ([u i] & Hui & Hc). apply in_map_iff in Hc. destruct Hc as ([rn ci] & <- & Hf).
    apply filter_In in Hf. destruct Hf as [Hin Hcand]. simpl in *.
    unfold is_candidate in Hcand. simpl in Hcand.
    destruct (tag ci) as [t'|] eqn:Ht; [|discriminate].
    apply andb_true_iff in Hcand. destruct Hcand as [Hcand Hw].
    apply andb_true_iff in Hcand. destruct Hcand as [Hcand Hd].
    apply andb_true_iff in Hcand. destruct Hcand as [He Hne].
    apply String.eqb_eq in He. subst t'. apply negb_true_iff in Hne, Hw.
    apply String.eqb_neq in Hne. exists i, ci. auto 10.
  - intros (i & ci & Hui & Hin & Hu & Ht & Hne & Hd & Hw).
    exists (cand_acc c, i). split; [exact Hui|]. apply in_map_iff.
    exists (cand_rn c, ci). simpl. split; [destruct c; simpl in *; subst; reflexivity|].
    apply filter_In. split; [exact Hin|]. unfold is_candidate. simpl.
    rewrite Ht, String.eqb_refl, Hd, Hw. apply String.eqb_neq in Hne. rewrite Hne. reflexivity.
Qed.

(** *** The newest candidate *)

Lemma date_ge_refl (d : Date) : d <> None -> date_ge d d = true.
Proof. destruct d; [intros _; simpl; apply Z.leb_refl | congruence]. Qed.

Lemma date_not_ge (a b : Date) :
  a <> None -> b <> None -> date_ge a b = false -> date_gt b a = true.
Proof.
  destruct a, b; simpl; try congruence. intros _ _ H.
  apply Z.leb_gt in H. apply Z.ltb_lt. exact H.
Qed.

Lemma date_gt_ge_trans (a b c : Date) :
  date_gt a b = true -> date_ge b c = true -> date_gt a c = true.
Proof.
  destruct a, b, c; simpl; try discriminate. rewrite !Z.ltb_lt, Z.leb_le. lia.
Qed.

Lemma date_gt_ge (a b : Date) : date_gt a b = true -> date_ge a b = true.
Proof. destruct a, b; simpl; try discriminate. rewrite Z.ltb_lt, Z.leb_le. lia. Qed.

Lemma date_ge_trans (a b c : Date) :
  date_ge a b = true -> date_ge b c = true -> date_ge a c = true.
Proof. destruct a, b, c; simpl; try discriminate. rewrite !Z.leb_le. lia. Qed.

Lemma fold_newer_first (rest : list Cand) :
  forall (pre : list Cand) (c : Cand),
    (forall c', In c' (pre ++ rest) -> cand_updated c' <> None) ->
    first_newest pre c ->
    first_newest (pre ++ rest) (fold_left newer rest c).
Proof.
  induction rest as [|b rest IH]; intros pre c Hv Hf; simpl.
  - rewrite app_nil_r. exact Hf.
  - replace (pre ++ b :: rest) with ((pre ++ [b]) ++ rest) in *
      by (rewrite <- app_assoc; reflexivity).
    apply IH; [exact Hv|].
    destruct Hf as (l1 & l2 & -> & H1 & H2).
    assert (Hc : cand_updated c <> None).
    { apply Hv. apply in_or_app. left. apply in_or_app. left.
      apply in_or_app. right. left. reflexivity. }
    assert (Hb : cand_updated b <> None).
    { apply Hv. apply in_or_app. left. apply in_or_app. right. left. reflexivity. }
    unfold newer. destruct (date_ge (cand_updated c) (cand_updated b)) eqn:Hge.
    + exists l1, (l2 ++ [b]). split; [rewrite <- app_assoc; reflexivity|].
      split; [exact H1|]. intros c' Hin. apply in_app_or in Hin.
      destruct Hin as [Hin|[<-|[]]]; [apply H2; exact Hin | exact Hge].
    + pose proof (date_not_ge _ _ Hc Hb Hge) as Hgt.
      exists (l1 ++ c :: l2), []. split; [reflexivity|].
      split; [|intros c' []]. intros c' Hin. apply in_app_or in Hin.
      destruct Hin as [Hin|[<-|Hin]].
      * eapply date_gt_ge_trans; [exact Hgt|]. apply date_gt_ge. apply H1. exact Hin.
      * exact Hgt.
      * eapply date_gt_ge_trans; [exact Hgt|]. apply H2. exact Hin.
Qed.

Lemma newest_first (val : list Cand) :
  val <> [] -> (forall c, In c val -> cand_updated c <> None) ->
  exists c, newest val = Some c /\ first_newest val c.
Proof.
  destruct val as [|a rest]; [congruence|]. intros _ Hv.
  exists (fold_left newer rest a). split; [reflexivity|].
  apply (fold_newer_first rest [a] a Hv).
  exists [], []. split; [reflexivity|]. split; intros c' [].
Qed.

Lemma first_newest_latest (val : list Cand) (c : Cand) :
  first_newest val c -> cand_updated c <> None ->
  In c val /\ forall c', In c' val -> date_ge (cand_updated c) (cand_updated c') = true.
Proof.
  intros (l1 & l2 & -> & H1 & H2) Hc. split.
  - apply in_or_app. right. left. reflexivity.
  - intros c' Hin. apply in_app_or in Hin. destruct Hin as [Hin|[<-|Hin]].
    + apply date_gt_ge. apply H1. exact Hin.
    + apply date_ge_refl. exact Hc.
    + apply H2. exact Hin.
Qed.

Lemma candidates_dated (added : list (string * string)) (lastUpdate : Date) (t : string)
      (caches : list (string * Info)) (c : Cand) :
  In c (candidates added lastUpdate t caches) -> cand_updated c <> None.
Proof.
  intros H. apply In_candidates in H.
  destruct H as (i & ci & _ & _ & Hu & _ & _ & Hd & _). rewrite Hu.
  destruct (updated ci); [discriminate | discriminate].
Qed.

(** *** The update step *)

Section UpdateStep.

Context {E : Env} (fuel : nat) (c0 : list (string * Contacts)).

Let R := still (E:=E) not_config_write c0.

Lemma update_request_respects (other rn : string) (body : Json) :
  respects R (update_request other rn body).
Proof.
  unfold update_request. frame_step; [frame|].
  destruct (cached_etag _ _) as [et|]; [|frame].
  frame_step; [|frame]. apply (respects_call R not_config_write). reflexivity.
Qed.

Lemma update_turn_respects (source other t : string) (fetched : Json) :
  respects R
    (if other =? source then ret tt
     else bind (translated_for E other
                  (groupTags_of (infoGroup (lookup_account source c0)) fetched)
                  (keep_myContacts fetched))
               (fun body => Contacts_update E fuel other t body)).
Proof.
  destruct (_ =? _); [frame|].
  frame_step; [apply (respects_translated_for R not_config_write)|].
  apply (respects_Contacts_update fuel R not_config_write).
Qed.

Lemma update_turn_returned (source other t rn : string) (fetched : Json) (s s' : St E) :
  con s = c0 ->
  tag_once t (info (lookup_account other c0)) rn -> rn <> "" ->
  bind (translated_for E other
          (groupTags_of (infoGroup (lookup_account source c0)) fetched)
          (keep_myContacts fetched))
       (fun body => Contacts_update E fuel other t body) s = (Ok tt, s') ->
  exists body et tr,
    copy_for c0 source fetched other = Return body
    /\ cached_etag (info (lookup_account other c0)) rn = Some et
    /\ con s' = c0
    /\ events s' = events s ++ tr
    /\ In (ECall other (UpdateContact rn (join "," allUpdatePersonFields)
                                      (JObj (obj_set "etag" (JStr et) (entries body))))) tr.
Proof.
  intros Hc Honce Hrn.
  assert (Hl : tagToRn (info (lookup_account other c0)) t = Return (Some rn))
    by (apply (proj1 (proj2 (lookup_outcomes _ _))); exact Honce).
  unfold bind at 1. rewrite translated_for_run. unfold acct. rewrite Hc.
  unfold copy_for.
  destruct (body_for _ _ _) as [body|e] eqn:Hb; [|discriminate].
  rewrite Contacts_update_run. unfold acct. rewrite Hc, Hl.
  apply String.eqb_neq in Hrn. rewrite Hrn. intros Hw.
  apply (withBackoff_loop_returned R not_config_write) in Hw; [|intros; reflexivity|].
  - destruct Hw as (s1 & H1 & Hreq). destruct (H1 Hc) as (Hc1 & t1 & Ht1 & _).
    apply update_request_returned in Hreq. destruct Hreq as (et & Het & Hc' & Hev).
    unfold acct in Het. rewrite Hc1 in Het.
    exists body, et, (t1 ++ [ECall other (UpdateContact rn (join "," allUpdatePersonFields)
                                        (JObj (obj_set "etag" (JStr et) (entries body))))]).
    split; [reflexivity|]. split; [exact Het|]. split; [congruence|].
    split; [rewrite Hev, Ht1, app_assoc; reflexivity|].
    apply in_or_app. right. left. reflexivity.
  - apply update_request_respects.
Qed.

Lemma propagate_update_returned (active : list string) (t : string) (val : list Cand)
      (nw : Cand) (s s' : St E) :
  con s = c0 ->
  newest val = Some nw ->
  propagate_update E fuel active (t, val) s = (Ok tt, s') ->
  exists fetched s1 tr,
    Contacts_get E fuel (cand_acc nw) (cand_rn nw) s = (Ok fetched, s1)
    /\ events s' = events s1 ++ tr
    /\ forall other rn,
        In other active -> other <> cand_acc nw ->
        tag_once t (info (lookup_account other c0)) rn -> rn <> "" ->
        exists body et,
          copy_for c0 (cand_acc nw) fetched other = Return body
          /\ cached_etag (info (lookup_account other c0)) rn = Some et
          /\ In (ECall other (UpdateContact rn (join "," allUpdatePersonFields)
                                            (JObj (obj_set "etag" (JStr et) (entries body)))))
                tr.
Proof.
  intros Hc Hnw. unfold propagate_update. cbn [snd fst]. rewrite Hnw.
  unfold bind at 1.
  destruct (Contacts_get E fuel (cand_acc nw) (cand_rn nw) s) as [[fetched|e|c|] s1] eqn:Hget;
    try discriminate.
  pose proof (still_keeps_con (Contacts_get E fuel (cand_acc nw) (cand_rn nw)) s
                (respects_Contacts_get fuel _ not_config_write _ _)) as Hc1.
  rewrite Hget in Hc1. cbn [snd] in Hc1. rewrite Hc in Hc1.
  unfold bind at 1. rewrite account_run. unfold acct. rewrite Hc1. cbv zeta.
  intros Hloop.
  pose proof (respects_for_each R not_config_write active _
                (fun other => update_turn_respects (cand_acc nw) other t fetched) s1) as Hr.
  rewrite Hloop in Hr. destruct (Hr Hc1) as (Hc' & t2 & Ht2 & _). cbn [snd] in Hc', Ht2.
  exists fetched, s1, t2.
  split; [reflexivity|]. split; [exact Ht2|].
  intros other rn Hin Hne Honce Hrn.
  destruct (for_each_returned R not_config_write active _ other
              (fun y _ => update_turn_respects (cand_acc nw) y t fetched) Hin s1 s' Hloop)
    as (sa & sb & Ha & Hturn & Hb).
  destruct (Ha Hc1) as (Hca & ta & Hta & _).
  apply String.eqb_neq in Hne. rewrite Hne in Hturn.
  destruct (update_turn_returned (cand_acc nw) other t rn fetched sa sb Hca Honce Hrn Hturn)
    as (body & et & tr & Hbody & Het & Hcb & Htr & Hintr).
  destruct (Hb Hcb) as (_ & tb & Htb & _).
  exists body, et. split; [exact Hbody|]. split; [exact Het|].
  (* the event lies in the part added after [s1] *)
  assert (Ht2' : t2 = ta ++ tr ++ tb).
  { apply (app_inv_head (events s1)). rewrite <- Ht2, Htb, Htr, Hta.
    rewrite <- !app_assoc. reflexivity. }
  rewrite Ht2'. rewrite !in_app_iff. right. left. exact Hintr.
Qed.

End UpdateStep.

Lemma assoc_In {A} (k : string) (v : A) (m : list (string * A)) :
  assoc k m = Some v -> In (k, v) m.
Proof.
  induction m as [|[k0 v0] m IH]; simpl; [discriminate|].
  destruct (k0 =? k) eqn:He.
  - apply String.eqb_eq in He. intros H. inversion H; subst. left. reflexivity.
  - intros H. right. apply IH. exact H.
Qed.

(** When the update step returns, every entry of [contactUpdates] had its
    turn, and the turn returned. *)
Lemma update_contacts_returned {E : Env} (fuel : nat) (active : list string)
      (added : list (string * string)) (lastUpdate : Date) (s s' : St E)
      (tv : string * list Cand) :
  update_contacts E fuel active added lastUpdate s = (Ok tt, s') ->
  In tv (collect_updates added lastUpdate (map (fun u => (u, info (acct s u))) active)) ->
  exists sa sb,
    con sa = con s
    /\ (exists t1, events sa = events s ++ t1)
    /\ propagate_update E fuel active tv sa = (Ok tt, sb)
    /\ (exists t2, events s' = events sb ++ t2).
Proof.
  unfold update_contacts, bind at 1. rewrite infos_of_run. intros Hrun Hin.
  assert (Hturns : forall y, In y (collect_updates added lastUpdate
                                     (map (fun u => (u, info (acct s u))) active)) ->
                             respects (still not_config_write (con s))
                                      (propagate_update E fuel active y)).
  { intros y _. unfold propagate_update. destruct (newest _); [|frame].
    frame_step; [apply (respects_Contacts_get fuel _ not_config_write)|].
    frame_step; [frame|]. cbv zeta.
    frame_step. destruct (_ =? _); [frame|].
    frame_step; [apply (respects_translated_for _ not_config_write)|].
    apply (respects_Contacts_update fuel _ not_config_write). }
  destruct (for_each_returned (still not_config_write (con s)) not_config_write _ _ tv
              Hturns Hin s s' Hrun) as (s1 & s2 & H1 & Hturn & H2).
  destruct (H1 eq_refl) as (Hc1 & t1 & Ht1 & _).
  pose proof (Hturns tv Hin s1) as H12. rewrite Hturn in H12. cbn [snd] in H12.
  destruct (H12 Hc1) as (Hc2 & _).
  destruct (H2 Hc2) as (_ & t2 & Ht2 & _).
  exists s1, s2. split; [exact Hc1|]. split; [exists t1; exact Ht1|].
  split; [exact Hturn|]. exists t2. exact Ht2.
Qed.



(* ================================================================== *)
(** ** Further properties of the sources *)
(* ================================================================== *)

(** *** duplicates *)

Lemma NoDup_set_add (s : list string) (x : string) : NoDup s -> NoDup (set_add s x).
Proof.
  intros H. unfold set_add. destruct (set_has s x) eqn:Hx; [exact H|].
  apply set_has_false in Hx. apply NoDup_app; [exact H | constructor; [intros []|constructor] |].
  intros y Hy [<-|[]]. exact (Hx Hy).
Qed.

Lemma NoDup_duplicates_loop (items : list string) :
  forall seen dups, NoDup dups -> NoDup (duplicates_loop items seen dups).
Proof.
  induction items as [|x items IH]; intros seen dups H; simpl; [exact H|].
  destruct (set_has seen x); apply IH; [apply NoDup_set_add|]; exact H.
Qed.

Lemma In_duplicates_loop (items : list string) (x : string) :
  forall seen dups,
    In x (duplicates_loop items seen dups) <->
    In x dups \/ (In x seen /\ In x items) \/ (2 <= count_occ string_dec items x)%nat.
Proof.
  induction items as [|y items IH]; intros seen dups; simpl.
  - split; [auto | intros [H|[[_ []]|H]]; [exact H | lia]].
  - destruct (set_has seen y) eqn:Hy.
    + apply set_has_In in Hy. rewrite IH, In_set_add.
      destruct (string_dec y x) as [->|Hne].
      * split; intros _; [right; left; split; [exact Hy | left]| left; right]; reflexivity.
      * assert (Hne2 : x <> y) by congruence. tauto.
    + assert (Hadd : set_add seen y = seen ++ [y]).
      { unfold set_add. rewrite Hy. reflexivity. }
      apply set_has_false in Hy. rewrite IH.
      rewrite Hadd, in_app_iff. simpl.
      pose proof (count_occ_In string_dec items x) as Hc.
      destruct (string_dec y x) as [->|Hne].
      * split.
        -- intros [H|[[_ H]|H]]; [tauto| |]; right; right; [apply Hc in H|]; lia.
        -- intros [H|[[H _]|H]]; [tauto|contradiction|].
           right. left. split; [auto|]. apply Hc. lia.
      * tauto.
Qed.

(** X1.  duplicates(items) returns a set without repetition that holds exactly the
    items occurring at least twice in the list; it is empty exactly when the
    list has no repetition. *)
Theorem duplicates_twice :
  forall items : list string,
    NoDup (duplicates items)
    /\ (forall x, In x (duplicates items) <-> (2 <= count_occ string_dec items x)%nat)
    /\ (duplicates items = [] <-> NoDup items).
Proof.
  intros items. split; [apply NoDup_duplicates_loop; constructor|].
  split; [|apply duplicates_nil].
  intros x. unfold duplicates. rewrite In_duplicates_loop. simpl.
  split; [intros [[]|[[[] _]|H]]; exact H | auto].
Qed.

(** *** removePrefix *)

Lemma removePrefix_prefix (pre : string) :
  forall text, prefix pre text = true -> (pre ++ removePrefix text pre)%string = text.
Proof.
  unfold removePrefix. induction pre as [|c pre IH]; intros text H.
  - simpl. rewrite Nat.sub_0_r.
    assert (Hs : forall t, substring 0 (String.length t) t = t).
    { induction t as [|a t IHt]; simpl; [reflexivity | rewrite IHt; reflexivity]. }
    destruct text; [reflexivity|]. simpl. f_equal. apply Hs.
  - destruct text as [|a text]; [discriminate|].
    rewrite H. simpl in H. destruct (ascii_dec c a) as [->|]; [|discriminate].
    specialize (IH text H). rewrite H in IH. simpl. f_equal. exact IH.
Qed.

Lemma removePrefix_other (pre text : string) :
  prefix pre text = false -> removePrefix text pre = text.
Proof. unfold removePrefix. intros ->. reflexivity. Qed.

Lemma prefix_append (pre rest : string) : prefix pre (pre ++ rest)%string = true.
Proof.
  induction pre as [|c pre IH]; simpl; [destruct rest; reflexivity|].
  destruct (ascii_dec c c); [exact IH | congruence].
Qed.

Lemma append_inj (pre a b : string) : (pre ++ a)%string = (pre ++ b)%string -> a = b.
Proof.
  induction pre as [|c pre IH]; simpl; [auto|]. intros H. inversion H. auto.
Qed.

(** X2.  removePrefix gives back the rest of a text that starts with the prefix and
    leaves any other text unchanged; hence the membership pushed for the group
    contactGroups/<id> has the group id <id> and the full resource name. *)
Theorem removePrefix_strips :
  (forall pre rest : string, removePrefix (pre ++ rest)%string pre = rest)
  /\ (forall pre text : string, prefix pre text = false -> removePrefix text pre = text)
  /\ (forall gid : string,
         membership_to ("contactGroups/" ++ gid)%string
         = JObj [("contactGroupMembership",
                  JObj [("contactGroupId", JStr gid);
                        ("contactGroupResourceName", JStr ("contactGroups/" ++ gid)%string)])]).
Proof.
  assert (H1 : forall pre rest : string, removePrefix (pre ++ rest)%string pre = rest).
  { intros pre rest. apply (append_inj pre). apply removePrefix_prefix. apply prefix_append. }
  split; [exact H1|]. split; [exact removePrefix_other|].
  intros gid. unfold membership_to. rewrite H1. reflexivity.
Qed.

(** *** stripPersonForUpdate *)

Lemma assoc_obj_delete {A : Type} (k : string) (kvs : list (string * A)) :
  assoc k (obj_delete k kvs) = None.
Proof.
  induction kvs as [|[k' v] kvs IH]; simpl; [reflexivity|].
  destruct (k' =? k) eqn:Hk; simpl; [exact IH | rewrite Hk; exact IH].
Qed.

Lemma no_metadata_drop (v : Json) : no_metadata (drop_metadata v).
Proof. destruct v; simpl; auto. apply assoc_obj_delete. Qed.

Lemma clean_strip_field (v : Json) : clean (strip_field v).
Proof.
  destruct v; simpl; auto; [|apply assoc_obj_delete].
  apply Forall_forall. intros x Hx. apply in_map_iff in Hx as [y [<- _]].
  apply no_metadata_drop.
Qed.

Lemma In_obj_set {A : Type} (k : string) (v : A) (kvs : list (string * A)) (kv : string * A) :
  In kv (obj_set k v kvs) -> kv = (k, v) \/ In kv kvs.
Proof.
  induction kvs as [|[k' v'] kvs IH]; simpl.
  - intros [H|[]]; auto.
  - destruct (k' =? k); simpl; intros [H|H]; auto. destruct (IH H); auto.
Qed.

Section KeepFirst.
Variable P : string * Json -> Prop.
Hypothesis P_first : forall k x rest, P (k, JArr (x :: rest)) -> P (k, JArr [x]).

Lemma Forall_keep_first (k : string) (kvs : list (string * Json)) :
  Forall P kvs -> Forall P (keep_first k kvs).
Proof.
  intros H. unfold keep_first. destruct (assoc k kvs) as [[| | | | |[|x xs]|]|] eqn:Hk; auto.
  apply Forall_forall. intros kv Hkv. apply In_obj_set in Hkv as [->|Hkv].
  - apply (P_first k x xs). apply assoc_In in Hk.
    rewrite Forall_forall in H. exact (H _ Hk).
  - rewrite Forall_forall in H. exact (H _ Hkv).
Qed.
End KeepFirst.

Lemma at_most_one_keep_first (k : string) (kvs : list (string * Json)) :
  at_most_one (prop k (JObj (keep_first k kvs))).
Proof.
  unfold keep_first. simpl.
  destruct (assoc k kvs) as [[| | | | |[|x xs]|]|] eqn:Hk; try (rewrite Hk; simpl; auto).
  rewrite assoc_obj_set, String.eqb_refl. simpl. auto.
Qed.

Lemma prop_keep_first_other (k k' : string) (kvs : list (string * Json)) :
  k <> k' -> prop k' (JObj (keep_first k kvs)) = prop k' (JObj kvs).
Proof.
  intros Hne. unfold keep_first. simpl.
  destruct (assoc k kvs) as [[| | | | |[|x xs]|]|] eqn:Hk; try reflexivity.
  rewrite assoc_obj_set. apply String.eqb_neq in Hne. rewrite Hne. reflexivity.
Qed.

Lemma sendable_first (k : string) (x : Json) (rest : list Json) :
  sendable (k, JArr (x :: rest)) -> sendable (k, JArr [x]).
Proof.
  unfold sendable. cbn [fst snd clean]. intros [H1 [H2 H3]]. split; [exact H1|].
  split; [exact H2|]. inversion H3. constructor; [assumption|constructor].
Qed.

Lemma strip_toKeep_eq :
  strip_toKeep = ltac:(let v := eval vm_compute in strip_toKeep in exact v).
Proof. reflexivity. Qed.

Lemma In_strip_toKeep (k : string) :
  set_has strip_toKeep k = true -> In k allPersonFields /\ ~ In k strip_bad.
Proof.
  intros Hk. apply set_has_In in Hk. rewrite strip_toKeep_eq in Hk. simpl in Hk.
  repeat (destruct Hk as [<-|Hk];
          [split; [apply set_has_In; reflexivity | apply set_has_false; reflexivity]|]).
  destruct Hk.
Qed.

Lemma sendable_kept (kvs : list (string * Json)) :
  Forall sendable (map (fun kv => (fst kv, strip_field (snd kv)))
                       (filter (fun kv => set_has strip_toKeep (fst kv)) kvs)).
Proof.
  apply Forall_forall. intros kv Hkv.
  apply in_map_iff in Hkv as [[k v] [<- Hkv]]. apply filter_In in Hkv as [_ Hk].
  destruct (In_strip_toKeep k Hk) as [H1 H2].
  split; [exact H1|]. split; [exact H2|]. apply clean_strip_field.
Qed.

(** X3.  Every field of the body that stripPersonForUpdate returns is a person field
    other than metadata, coverPhotos, photos, resourceName and etag; no object
    field and no item of an array field keeps a metadata key; and names, genders
    and birthdays hold at most one item. *)
Theorem stripPersonForUpdate_sendable :
  forall body : Json,
    Forall sendable (entries (stripPersonForUpdate body))
    /\ at_most_one (prop "names" (stripPersonForUpdate body))
    /\ at_most_one (prop "genders" (stripPersonForUpdate body))
    /\ at_most_one (prop "birthdays" (stripPersonForUpdate body)).
Proof.
  intros body. unfold stripPersonForUpdate. cbv zeta.
  split; [|split; [|split]].
  - cbn [entries]. repeat apply (Forall_keep_first sendable sendable_first).
    apply sendable_kept.
  - rewrite (prop_keep_first_other "birthdays" "names") by discriminate.
    rewrite (prop_keep_first_other "genders" "names") by discriminate.
    apply at_most_one_keep_first.
  - rewrite (prop_keep_first_other "birthdays" "genders") by discriminate.
    apply at_most_one_keep_first.
  - apply at_most_one_keep_first.
Qed.

(** *** the tag written is the tag read *)

Lemma filter_filter_neg {A : Type} (f : A -> bool) (l : list A) :
  filter f (filter (fun x => negb (f x)) l) = [].
Proof.
  induction l as [|x l IH]; simpl; [reflexivity|].
  destruct (f x) eqn:Hx; simpl; [exact IH | rewrite Hx; exact IH].
Qed.

Lemma filter_idem {A : Type} (f : A -> bool) (l : list A) :
  filter f (filter f l) = filter f l.
Proof.
  induction l as [|x l IH]; simpl; [reflexivity|].
  destruct (f x) eqn:Hx; simpl; [rewrite Hx, IH; reflexivity | exact IH].
Qed.

Lemma tagls_with_tag (cd : Json) (t : string) (e : list (string * Json)) :
  tagls (JObj (obj_set "clientData" (with_tag cd t) e)) = [t].
Proof.
  unfold tagls, with_tag. cbn [prop].
  rewrite assoc_obj_set, String.eqb_refl. cbn [coalesce nullish items].
  rewrite filter_app.
  rewrite (filter_filter_neg (fun kv => str_eq (prop "key" kv) SYNC_TAG)).
  reflexivity.
Qed.

(** X4.  The clientData that updateTag writes for a tag t is read back by getInfo as
    the single sync tag t, whatever sync tags the entity carried before; the
    entries of clientData with another key are kept in their order. *)
Theorem written_tag_is_read :
  forall (cd : Json) (t : string) (e : list (string * Json)),
    tagls (JObj (obj_set "clientData" (with_tag cd t) e)) = [t]
    /\ filter not_sync (items (with_tag cd t))
       = filter not_sync (items (coalesce cd (JArr []))).
Proof.
  intros cd t e. split; [apply tagls_with_tag|].
  unfold with_tag. cbn [items]. rewrite filter_app. unfold not_sync at 1 2. rewrite filter_idem.
    cbn. rewrite app_nil_r. reflexivity.
Qed.

(** *** the caches that getInfo builds *)

Section Store.
Variable entry : Json -> option (string * ContactInfo).

Lemma NoDup_keys_build_info (listing : list Json) :
  NoDup (map fst (build_info entry listing)).
Proof.
  unfold build_info.
  assert (H : NoDup (map fst (@nil (string * ContactInfo)))) by constructor.
  revert H. generalize (@nil (string * ContactInfo)) as acc.
  induction listing as [|x listing IH]; intros acc H; simpl; [exact H|].
  apply IH. destruct (entry x) as [[rn ci]|]; [apply NoDup_keys_obj_set|]; exact H.
Qed.

Lemma In_build_info (listing : list Json) (kv : string * ContactInfo) :
  In kv (build_info entry listing) -> exists x, In x listing /\ entry x = Some kv.
Proof.
  unfold build_info.
  assert (H : forall acc,
             In kv (fold_left (fun acc x => match entry x with
                                            | Some (rn, ci) => obj_set rn ci acc
                                            | None => acc
                                            end) listing acc) ->
             In kv acc \/ exists x, In x listing /\ entry x = Some kv).
  { induction listing as [|x listing IH]; intros acc Hin; simpl in *; [auto|].
    destruct (IH _ Hin) as [Hacc|[y [Hy He]]]; [|right; exists y; auto].
    destruct (entry x) as [[rn ci]|] eqn:Hx; [|auto].
    apply In_obj_set in Hacc as [->|Hacc]; [right; exists x|]; auto. }
  intros Hin. destruct (H [] Hin) as [[]|Hx]. exact Hx.
Qed.
End Store.

Lemma wellformed_build_info (entry : Json -> option (string * ContactInfo))
      (listing : list Json) :
  (forall x rn ci, entry x = Some (rn, ci) -> rn <> "" /\ etag ci <> "" /\ name ci <> "") ->
  wellformed (build_info entry listing).
Proof.
  intros Hentry. split; [apply NoDup_keys_build_info|].
  intros rn ci Hin. pose proof (NoDup_keys_build_info entry listing) as Hnd.
  destruct (In_build_info entry listing _ Hin) as [x [_ Hx]].
  destruct (Hentry x rn ci Hx) as [Hrn [Het Hnm]].
  repeat split; try assumption.
  - apply NoDup_keys_assoc; assumption.
  - unfold cached_etag. rewrite (NoDup_keys_assoc rn ci _ Hnd Hin).
    apply String.eqb_neq in Het. rewrite Het. reflexivity.
Qed.

Lemma wellformed_contacts (parse : string -> option Z) (listing : list Json) :
  wellformed (build_info (contact_entry parse) listing).
Proof.
  apply wellformed_build_info. intros x rn ci Hx.
  apply contact_entry_stored in Hx as [nm [et [_ [Hnm [_ [Hrn [_ [Het ->]]]]]]]].
  simpl. auto.
Qed.

Lemma wellformed_groups (parse : string -> option Z) (listing : list Json) :
  wellformed (build_info (group_entry parse) listing).
Proof.
  apply wellformed_build_info. intros x rn ci Hx.
  apply group_entry_stored in Hx as [et [nm [_ [_ [Hrn [_ [Het [_ [Hnm ->]]]]]]]]].
  simpl. auto.
Qed.

(** X5.  The caches that getInfo builds from a listing (info for contacts, infoGroup
    for groups) have one entry per resource name, and no entry has an empty
    resource name, etag or display name; so the etag of every cached entry is
    found under its resource name. *)
Theorem cache_wellformed :
  forall (parse : string -> option Z) (listing : list Json),
    wellformed (build_info (contact_entry parse) listing)
    /\ wellformed (build_info (group_entry parse) listing).
Proof.
  intros parse listing. split; [apply wellformed_contacts | apply wellformed_groups].
Qed.

(** *** lookups by tag and by resource name *)

Lemma In_rns_with_tag (i : Info) (t rn : string) :
  In rn (rns_with_tag i t) <-> exists ci, In (rn, ci) i /\ tag ci = Some t.
Proof.
  unfold rns_with_tag. rewrite in_map_iff. split.
  - intros [[rn' ci] [<- H]]. apply filter_In in H as [Hin Hc]. exists ci. split; [exact Hin|].
    unfold carries in Hc. simpl in *. destruct (tag ci) as [t'|]; [|discriminate].
    apply String.eqb_eq in Hc. subst. reflexivity.
  - intros [ci [Hin Ht]]. exists (rn, ci). split; [reflexivity|]. apply filter_In.
    split; [exact Hin|]. unfold carries. simpl. rewrite Ht. apply String.eqb_refl.
Qed.

(** X7.  In a group cache with one entry per resource name, the group that
    tagToRnContactGroup finds for a tag is mapped back to that tag by
    rnToTagContactGroup; and a tag that rnToTagContactGroup gives for a group is
    found again by tagToRnContactGroup, as that group or as an ambiguity error. *)
Theorem group_lookup_round_trip :
  forall (g : Info) (t rn : string),
    NoDup (map fst g) ->
    (tagToRnContactGroup g t = Return (Some rn) -> rnToTagContactGroup g rn = Some t)
    /\ (rnToTagContactGroup g rn = Some t ->
        tagToRnContactGroup g t = Return (Some rn)
        \/ exists e, tagToRnContactGroup g t = Raise e).
Proof.
  intros g t rn Hnd. unfold tagToRnContactGroup, rnToTagContactGroup. split.
  - intros H.
    assert (Hin : In rn (rns_with_tag g t)).
    { destruct (rns_with_tag g t) as [|x [|y l]]; try discriminate.
      inversion H. left. reflexivity. }
    apply In_rns_with_tag in Hin as [ci [Hin Ht]].
    rewrite (NoDup_keys_assoc rn ci g Hnd Hin). exact Ht.
  - destruct (assoc rn g) as [v|] eqn:Hv; [|discriminate]. intros Ht.
    assert (Hin : In rn (rns_with_tag g t)).
    { apply In_rns_with_tag. exists v. split; [apply assoc_In; exact Hv | exact Ht]. }
    destruct (rns_with_tag g t) as [|x [|y l]].
    + destruct Hin.
    + left. destruct Hin as [->|[]]. reflexivity.
    + right. eexists. reflexivity.
Qed.

Lemma group_lookup_round_trip_witness :
  let g := [("contactGroups/ga", mkInfo "e4" (Some "g1") (Some 10%Z) "Fam");
            ("contactGroups/gb", mkInfo "e5" None (Some 10%Z) "Work")] in
  NoDup (map fst g)
  /\ tagToRnContactGroup g "g1" = Return (Some "contactGroups/ga")
  /\ rnToTagContactGroup g "contactGroups/ga" = Some "g1".
Proof.
  intros g.
  assert (Hnd : NoDup (map fst g)).
  { repeat constructor; simpl; intuition discriminate. }
  split; [exact Hnd|]. split; [reflexivity|].
  apply (proj1 (group_lookup_round_trip g "g1" "contactGroups/ga" Hnd)). reflexivity.
Defined.

(** *** getInfo *)

Lemma lookup_account_set_same (u : string) (c : Contacts) (l : list (string * Contacts)) :
  lookup_account u (obj_set u c l) = c.
Proof. unfold lookup_account. rewrite assoc_obj_set, String.eqb_refl. reflexivity. Qed.

Lemma lookup_account_set_other (u v : string) (c : Contacts) (l : list (string * Contacts)) :
  v <> u -> lookup_account v (obj_set u c l) = lookup_account v l.
Proof.
  intros H. unfold lookup_account. rewrite assoc_obj_set.
  destruct (u =? v) eqn:He; [|reflexivity]. apply String.eqb_eq in He. congruence.
Qed.

Lemma getAllContacts_keeps_con {E : Env} (n : nat) (u : string) (fields : list string)
      (s : St E) :
  con (snd (getAllContacts E n u fields s)) = con s.
Proof.
  apply still_keeps_con. unfold getAllContacts.
  apply (respects_getAllContacts_loop _ not_config_write).
Qed.

Lemma getContactGroups_keeps_con {E : Env} (n : nat) (u : string) (s : St E) :
  con (snd (getContactGroups E n u s)) = con s.
Proof.
  apply still_keeps_con. unfold getContactGroups.
  apply (respects_getContactGroups_loop n _ not_config_write).
Qed.

Lemma same_accounts_but_refl {E : Env} (u : string) (s : St E) : same_accounts_but u s s.
Proof. repeat split; reflexivity. Qed.

Lemma same_accounts_but_trans {E : Env} (u : string) (a b c : St E) :
  same_accounts_but u a b -> same_accounts_but u b c -> same_accounts_but u a c.
Proof.
  intros [H1 [H2 [H3 H4]]] [K1 [K2 [K3 K4]]]. repeat split; try congruence.
  intros v Hv. rewrite K1, H1 by exact Hv. reflexivity.
Qed.

Lemma same_accounts_but_con {E : Env} (u : string) (s s' : St E) :
  con s' = con s -> same_accounts_but u s s'.
Proof. intros H. unfold same_accounts_but, acct. rewrite H. repeat split; reflexivity. Qed.

Lemma set_info_run {E : Env} (u : string) (i : Info) (s : St E) :
  exists s', set_info E u i s = (Ok tt, s')
             /\ same_accounts_but u s s'
             /\ info (acct s' u) = i /\ infoGroup (acct s' u) = infoGroup (acct s u).
Proof.
  eexists. split; [reflexivity|]. unfold same_accounts_but, acct. cbn [con].
  rewrite lookup_account_set_same. cbn [user keyfile credfile info infoGroup].
  repeat split; try reflexivity. intros v Hv. apply lookup_account_set_other. exact Hv.
Qed.

Lemma set_infoGroup_run {E : Env} (u : string) (g : Info) (s : St E) :
  exists s', set_infoGroup E u g s = (Ok tt, s')
             /\ same_accounts_but u s s'
             /\ info (acct s' u) = info (acct s u) /\ infoGroup (acct s' u) = g.
Proof.
  eexists. split; [reflexivity|]. unfold same_accounts_but, acct. cbn [con].
  rewrite lookup_account_set_same. cbn [user keyfile credfile info infoGroup].
  repeat split; try reflexivity. intros v Hv. apply lookup_account_set_other. exact Hv.
Qed.

Lemma getInfo_returned {E : Env} (fuel : nat) (u : string) (s : St E) (r : Outcome unit)
      (s' : St E) :
  getInfo E fuel u s = (r, s') ->
  same_accounts_but u s s'
  /\ match r with
     | Ok _ =>
         exists contacts groups,
           info (acct s' u) = build_info (contact_entry (Date_parse E)) contacts
           /\ infoGroup (acct s' u) = build_info (group_entry (Date_parse E)) groups
     | _ => info (acct s' u) = [] \/ infoGroup (acct s' u) = []
     end.
Proof.
  unfold getInfo. intros H. unfold bind at 1 in H.
  destruct (set_info_run u [] s) as (s1 & Hr1 & Hs1 & Hi1 & _). rewrite Hr1 in H.
  unfold bind at 1 in H.
  pose proof (getAllContacts_keeps_con fuel u
                ["names"; "organizations"; "clientData"; "metadata"] s1) as Hc1.
  destruct (getAllContacts E fuel u _ s1) as [r1 s2]. cbn [snd] in Hc1.
  assert (Hs2 : same_accounts_but u s s2).
  { apply (same_accounts_but_trans u s s1); [exact Hs1 | apply same_accounts_but_con, Hc1]. }
  assert (Hi2 : info (acct s2 u) = []) by (unfold acct in *; rewrite Hc1; exact Hi1).
  destruct r1 as [contacts|e|c|];
    try (inversion H; subst; split; [exact Hs2 | left; exact Hi2]).
  unfold bind at 1 in H.
  destruct (set_info_run u (build_info (contact_entry (Date_parse E)) contacts) s2)
    as (s3 & Hr3 & Hs3 & Hi3 & _). rewrite Hr3 in H.
  unfold bind at 1 in H.
  destruct (set_infoGroup_run u [] s3) as (s4 & Hr4 & Hs4 & Hi4 & Hg4). rewrite Hr4 in H.
  unfold bind at 1 in H.
  pose proof (getContactGroups_keeps_con fuel u s4) as Hc2.
  destruct (getContactGroups E fuel u s4) as [r2 s5]. cbn [snd] in Hc2.
  assert (Hs5 : same_accounts_but u s s5).
  { apply (same_accounts_but_trans u s s2); [exact Hs2|].
    apply (same_accounts_but_trans u s2 s3); [exact Hs3|].
    apply (same_accounts_but_trans u s3 s4); [exact Hs4|].
    apply same_accounts_but_con, Hc2. }
  assert (Hg5 : infoGroup (acct s5 u) = []) by (unfold acct in *; rewrite Hc2; exact Hg4).
  assert (Hi5 : info (acct s5 u) = build_info (contact_entry (Date_parse E)) contacts).
  { unfold acct in *. rewrite Hc2, Hi4. exact Hi3. }
  destruct r2 as [groups|e|c|];
    try (inversion H; subst; split; [exact Hs5 | right; exact Hg5]).
  destruct (set_infoGroup_run u (build_info (group_entry (Date_parse E)) groups) s5)
    as (s6 & Hrun & Hs6 & Hi6 & Hg6).
  rewrite Hrun in H. inversion H; subst. split.
  - apply (same_accounts_but_trans u s s5); assumption.
  - exists contacts, groups. split; [rewrite Hi6; exact Hi5 | exact Hg6].
Qed.

(** X6.  getInfo only touches the caches of its own account: the other accounts and
    the account's credentials stay as they are. When it returns, both caches are
    well formed; when it fails, the contact cache or the group cache of the
    account is left empty. *)
Theorem getInfo_rebuilds :
  forall (E : Env) (fuel : nat) (u : string) (s : St E),
    let r := fst (getInfo E fuel u s) in
    let s' := snd (getInfo E fuel u s) in
    same_accounts_but u s s'
    /\ match r with
       | Ok _ =>
           wellformed (info (acct s' u)) /\ wellformed (infoGroup (acct s' u))
       | _ => info (acct s' u) = [] \/ infoGroup (acct s' u) = []
       end.
Proof.
  intros E fuel u s. cbv zeta.
  destruct (getInfo E fuel u s) as [r s'] eqn:H. cbn [fst snd].
  destruct (getInfo_returned fuel u s r s' H) as [Hs Hr]. split; [exact Hs|].
  destruct r; try exact Hr.
  destruct Hr as (contacts & groups & -> & ->).
  split; [apply wellformed_contacts | apply wellformed_groups].
Qed.

(** *** A listing that fails *)

(** X8.  The listing of contacts is not retried: when the first page request of
    getInfo is rejected, even with a rate-limit error, getInfo throws that error
    after this one request and leaves the contact cache of the account empty. *)
Theorem contact_listing_not_retried :
  forall (E : Env) (n : nat) (u : string) (s : St E) (e : Json) (w' : World E),
    api E u (ConnectionsList None "names,organizations,clientData,metadata") (world s)
    = (Rejected e, w') ->
    let s' := snd (getInfo E (S n) u s) in
    fst (getInfo E (S n) u s) = Throw e
    /\ events s' = events s
                   ++ [ECall u (ConnectionsList None "names,organizations,clientData,metadata")]
    /\ info (acct s' u) = [].
Proof.
  intros E n u s e w' Hapi. cbv zeta.
  assert (Hrun : exists s', getInfo E (S n) u s = (Throw e, s')
                            /\ events s' = events s
                                 ++ [ECall u (ConnectionsList None
                                        "names,organizations,clientData,metadata")]
                            /\ info (acct s' u) = []).
  { unfold getInfo. unfold bind at 1 2.
    destruct (set_info_run u [] s) as (s1 & Hr1 & _ & Hi1 & _).
    assert (Hw : world s1 = world s /\ events s1 = events s).
    { unfold set_info, con_set, set_con, account, get_con, bind, ret in Hr1.
      inversion Hr1. split; reflexivity. }
    rewrite Hr1. destruct Hw as [Hw He].
    unfold getAllContacts. cbn [getAllContacts_loop]. unfold bind at 1 2, call.
    cbn [String.eqb].
    change (join "," ["names"; "organizations"; "clientData"; "metadata"])
      with "names,organizations,clientData,metadata".
    rewrite Hw, Hapi. cbn [withTimeout throw].
    eexists. split; [reflexivity|]. cbn [events]. split; [rewrite He; reflexivity|].
    unfold acct in *. cbn [con]. exact Hi1. }
  destruct Hrun as (s' & -> & He & Hi). cbn [fst snd]. auto.
Qed.

Lemma contact_listing_not_retried_witness :
  retryable (JObj [("code", JNum 429)]) = true
  /\ fst (getInfo Sim.env 1 "a" busy_once) = Throw (JObj [("code", JNum 429)])
  /\ events (snd (getInfo Sim.env 1 "a" busy_once))
     = [ECall "a" (ConnectionsList None "names,organizations,clientData,metadata")].
Proof.
  split; [reflexivity|].
  destruct (contact_listing_not_retried Sim.env 0 "a" busy_once (JObj [("code", JNum 429)])
              (Sim.mkService [] [] [] 0 0) eq_refl) as (H1 & H2 & _).
  split; [exact H1 | exact H2].
Defined.

(** *** A request that never settles *)

(** X9.  A createContact request that never settles makes add throw the timeout error
    of the account after this one request: the error is not retried. *)
Theorem contact_calls_time_out :
  forall (E : Env) (n : nat) (u : string) (body : Json) (s : St E) (w' : World E),
    api E u (CreateContact body) (world s) = (Pending, w') ->
    Contacts_add E (S n) u body s
    = (Throw (new_Error ("Timeout creating contact for " ++ u)),
       mkSt E w' (con s) (usedTags s) (cfg_data s) (config_file s)
            (events s ++ [ECall u (CreateContact body)])).
Proof.
  intros E n u body s w' Hapi. unfold Contacts_add, withBackoff. cbn [withBackoff_loop].
  unfold bind, call. rewrite Hapi. reflexivity.
Qed.

Lemma contact_calls_time_out_witness :
  fst (Contacts_add Sim.env 3 "a" (JObj []) stuck)
  = Throw (new_Error "Timeout creating contact for a").
Proof.
  rewrite (contact_calls_time_out Sim.env 2 "a" (JObj []) stuck (Sim.mkService [] [] [] 0 0)
             eq_refl).
  reflexivity.
Defined.

(** X10.  The group writes run without a timer: when the request of addContactGroup,
    or the request of deleteContactGroup for a cached group, never settles, the
    call never returns. *)
Theorem group_calls_have_no_timer :
  forall (E : Env) (n : nat) (u : string) (s : St E) (req : Request) (w' : World E),
    api E u req (world s) = (Pending, w') ->
    (forall body,
        req = GroupsCreate (set_prop "readGroupFields" (JStr readGroupFields) body) ->
        fst (addContactGroup E (S n) u body s) = Diverge)
    /\ (forall t rn,
           req = GroupsDelete rn -> rn <> "" ->
           tagToRnContactGroup (infoGroup (acct s u)) t = Return (Some rn) ->
           fst (deleteContactGroup E (S n) u t s) = Diverge).
Proof.
  intros E n u s req w' Hapi. split.
  - intros body ->. unfold addContactGroup, withBackoff. cbn [withBackoff_loop].
    unfold bind, call. rewrite Hapi. reflexivity.
  - intros t rn -> Hrn Ht. unfold deleteContactGroup.
    unfold bind at 1 2. unfold account, get_con, bind at 1, ret. fold (acct s u).
    rewrite Ht. cbn [lift ret]. apply String.eqb_neq in Hrn. rewrite Hrn.
    unfold withBackoff. cbn [withBackoff_loop].
    unfold bind, call. rewrite Hapi. reflexivity.
Qed.

Lemma group_calls_have_no_timer_witness :
  fst (addContactGroup Sim.env 3 "a" (JObj []) stuck) = Diverge.
Proof.
  apply (proj1 (group_calls_have_no_timer Sim.env 2 "a" stuck
                  (GroupsCreate (set_prop "readGroupFields" (JStr readGroupFields) (JObj [])))
                  (Sim.mkService [] [] [] 0 0) eq_refl) (JObj []) eq_refl).
Defined.

(** *** Runs that end at once *)

Lemma getAccounts_nil (data : Json) :
  (forall a, In a (items (coalesce (prop "accounts" data) (JArr []))) ->
             str_field "user" a = None \/ str_field "keyfile" a = None
             \/ str_field "credfile" a = None) ->
  getAccounts data = [].
Proof.
  unfold getAccounts. generalize (items (coalesce (prop "accounts" data) (JArr []))).
  induction l as [|a l IH]; intros H; [reflexivity|]. simpl.
  rewrite IH by (intros x Hx; apply H; right; exact Hx).
  destruct (H a (or_introl eq_refl)) as [->|[->| ->]]; try reflexivity.
  - destruct (str_field "user" a); reflexivity.
  - destruct (str_field "user" a); [|reflexivity]. destruct (str_field "keyfile" a); reflexivity.
Qed.

(** X14.  When no account of the configuration has its three string fields user,
    keyfile and credfile, runSync ends with process.exit(2) before it does
    anything: the state is the start state. *)
Theorem run_without_accounts :
  forall (E : Env) (fuel : nat) (opts : SyncOptions) (w : World E) (config : Json),
    (forall a, In a (items (coalesce (prop "accounts" config) (JArr []))) ->
               str_field "user" a = None \/ str_field "keyfile" a = None
               \/ str_field "credfile" a = None) ->
    runSync E fuel opts (start E w config) = (Exit 2, start E w config).
Proof.
  intros E fuel opts w config H. unfold runSync, load, bind, get_cfg. cbn [cfg_data start].
  rewrite (getAccounts_nil config H). reflexivity.
Qed.

Lemma run_without_accounts_witness :
  runSync Sim.env 5 (mkOpts false None) (start Sim.env demo_world no_account_config)
  = (Exit 2, start Sim.env demo_world no_account_config).
Proof.
  apply run_without_accounts. intros a [<-|[]]. right. right. reflexivity.
Defined.

Lemma classify_run {E : Env} (users : list string) (s : St E) :
  forall l,
    foldM users l (fun l u => bind (account E u) (fun c => ret (l ++ [(u, allNone c)]))) s
    = (Ok (l ++ map (fun u => (u, allNone (acct s u))) users), s).
Proof.
  induction users as [|u users IH]; intros l; simpl.
  - rewrite app_nil_r. reflexivity.
  - unfold bind at 1. unfold bind at 1. unfold account, bind, get_con, ret. simpl.
    rewrite IH. rewrite <- app_assoc. reflexivity.
Qed.

(** X15.  In a normal run, when no cached contact of any loaded account has a tag, the
    run ends with process.exit(2) right after loading: nothing is written
    remotely and the watermark is not saved. *)
Theorem run_without_synced_account :
  forall (E : Env) (fuel : nat) (opts : SyncOptions) (s : St E),
    init opts = false ->
    (forall u ci, In u (map fst (con s)) -> In ci (map snd (info (acct s u))) ->
                  tag ci = None) ->
    sync E fuel opts s = (Exit 2, s).
Proof.
  intros E fuel opts s Hinit Hnone. unfold sync, con_keys.
  unfold bind at 1. unfold bind at 1. unfold get_con, ret. rewrite Hinit.
  unfold bind at 1. unfold reconcile. unfold bind at 1.
  rewrite (classify_run (map fst (con s)) s []). cbn [app].
  assert (Hall : forall users,
             (forall u, In u users -> In u (map fst (con s))) ->
             filter (fun x : string * bool => negb (snd x))
                    (map (fun u => (u, allNone (acct s u))) users) = []).
  { induction users as [|u users IH]; intros Hin; [reflexivity|]. simpl.
    assert (Hu : allNone (acct s u) = true).
    { unfold allNone. apply forallb_forall. intros [rn ci] Hci. cbn [snd].
      rewrite (Hnone u ci); [reflexivity | apply Hin; left; reflexivity |].
      apply in_map_iff. exists (rn, ci). split; [reflexivity | exact Hci]. }
    rewrite Hu. simpl. apply IH. intros v Hv. apply Hin. right. exact Hv. }
  rewrite Hall by auto. reflexivity.
Qed.

Lemma run_without_synced_account_witness :
  sync Sim.env 5 (mkOpts false None) fresh_loaded = (Exit 2, fresh_loaded)
  /\ runSync Sim.env 5 (mkOpts false None) (start Sim.env fresh_world demo_config)
     = (Exit 2, fresh_loaded).
Proof.
  assert (H : sync Sim.env 5 (mkOpts false None) fresh_loaded = (Exit 2, fresh_loaded)).
  { apply run_without_synced_account; [reflexivity|].
    intros u ci [<-|[<-|[]]]; simpl; intros Hci; try contradiction.
    destruct Hci as [<-|[]]. reflexivity. }
  split; [exact H | reflexivity].
Defined.

(** *** The guard of the init mode *)

(** X16.  The guard of the init mode lets the run continue exactly when the cached
    display names of every account are pairwise different (compared as they are,
    case included); otherwise it ends the run with process.exit(1). It changes
    nothing. *)
Theorem init_guard_decides :
  forall (E : Env) (users : list string) (s : St E),
    (init_guard E users s = (Ok tt, s)
     <-> forall email, In email users -> NoDup (names_of (info (acct s email))))
    /\ (init_guard E users s = (Ok tt, s) \/ init_guard E users s = (Exit 1, s)).
Proof.
  intros E users s.
  assert (Hdec : (forall email, In email users -> NoDup (names_of (info (acct s email))))
                 \/ exists email, In email users /\ ~ NoDup (names_of (info (acct s email)))).
  { induction users as [|u users IH]; [left; intros ? []|].
    assert (Hu : NoDup (names_of (info (acct s u)))
                 \/ ~ NoDup (names_of (info (acct s u)))).
    { destruct (duplicates (names_of (info (acct s u)))) eqn:Hd.
      - left. apply duplicates_nil. exact Hd.
      - right. intros Hn. apply duplicates_nil in Hn. congruence. }
    destruct Hu as [Hu|Hu].
    - destruct IH as [IH|[e [He Hd]]].
      + left. intros email [<-|Hin]; auto.
      + right. exists e. split; [right|]; assumption.
    - right. exists u. split; [left; reflexivity | exact Hu]. }
  destruct Hdec as [Hall|Hdup].
  - rewrite (init_guard_passes users s Hall). split; [|left; reflexivity].
    split; [intros _; exact Hall | reflexivity].
  - rewrite (init_guard_halts users s Hdup). split; [|right; reflexivity].
    split; [discriminate|]. intros Hall. exfalso.
    destruct Hdup as [e [He Hd]]. exact (Hd (Hall e He)).
Qed.

(** *** Accounts that hold the same tags *)

Lemma to_delete_nil (infos : list Info) :
  to_delete infos = []
  <-> forall i j t, In i infos -> In j infos -> In t (tags_of i) -> In t (tags_of j).
Proof.
  split.
  - intros H i j t Hi Hj Ht.
    destruct (in_dec string_dec t (tags_of j)) as [Hin|Hn]; [exact Hin|].
    exfalso. assert (Hd : In t (to_delete infos)) by (apply In_to_delete; split; [exists i | exists j]; auto).
    rewrite H in Hd. destruct Hd.
  - intros H. destruct (to_delete infos) as [|t l] eqn:Hd; [reflexivity|].
    exfalso. assert (Ht : In t (to_delete infos)) by (rewrite Hd; left; reflexivity).
    apply In_to_delete in Ht as [(i & Hi & Hti) (j & Hj & Hn)]. apply Hn.
    exact (H i j t Hi Hj Hti).
Qed.

(** X22.  When all active accounts hold the same contact tags, no tag is scheduled for
    deletion and the deletion step of the contacts does nothing: it sends no
    request and does not refresh the caches. *)
Theorem deletion_step_idle :
  forall (E : Env) (fuel : nat) (active : list string) (s : St E),
    (forall u v t, In u active -> In v active ->
                   In t (tags_of (info (acct s u))) -> In t (tags_of (info (acct s v)))) ->
    to_delete (map (fun u => info (acct s u)) active) = []
    /\ delete_contacts E fuel active s = (Ok tt, s).
Proof.
  intros E fuel active s H.
  assert (Hd : to_delete (map (fun u => info (acct s u)) active) = []).
  { apply to_delete_nil. intros i j t Hi Hj Ht.
    apply in_map_iff in Hi as [u [<- Hu]]. apply in_map_iff in Hj as [v [<- Hv]].
    exact (H u v t Hu Hv Ht). }
  split; [exact Hd|].
  unfold delete_contacts, bind at 1. rewrite infos_of_run. rewrite map_map. cbn [snd].
  cbv zeta. rewrite Hd. reflexivity.
Qed.

Lemma deletion_step_idle_witness :
  delete_contacts Sim.env 5 ["a"; "b"] demo_loaded = (Ok tt, demo_loaded).
Proof.
  apply (deletion_step_idle Sim.env 5 ["a"; "b"] demo_loaded).
  intros u v t [<-|[<-|[]]] [<-|[<-|[]]] Ht; exact Ht.
Defined.

(** *** The init mode: a contact matched by name *)

#[export] Instance any_event_reads : AllowsReads any_event.
Proof. constructor; intros; exact I. Qed.

#[export] Instance any_event_calls : AllowsCalls any_event.
Proof. intros u r. exact I. Qed.

Lemma updateTag_keeps_con {E : Env} (fuel : nat) (u rn t : string) (s : St E) :
  con (snd (updateTag E fuel u rn t s)) = con s.
Proof.
  pose proof (respects_updateTag fuel (still any_event (con s)) any_event u rn t s eq_refl)
    as [H _].
  exact H.
Qed.

(** X17.  In the init mode, when the contact that another account holds under the same
    name is found and no cached entry of that account carries the tag yet,
    updateTag followed by update does what updateTag alone does: the contact
    receives the tag and its content is not overwritten, because updateTag
    leaves the cache without the tag. *)
Theorem init_match_only_tagged :
  forall (E : Env) (fuel : nat) (other orn t : string) (body : Json) (s : St E),
    (forall rn ci, In (rn, ci) (info (acct s other)) -> tag ci <> Some t) ->
    bind (updateTag E fuel other orn t) (fun _ => Contacts_update E fuel other t body) s
    = updateTag E fuel other orn t s.
Proof.
  intros E fuel other orn t body s Hno. unfold bind at 1.
  pose proof (updateTag_keeps_con fuel other orn t s) as Hc.
  destruct (updateTag E fuel other orn t s) as [[[]|e|c|] s1]; try reflexivity.
  cbn [snd] in Hc. unfold Contacts_update.
  unfold bind at 1 2. unfold account, get_con, bind at 1, ret. rewrite Hc. fold (acct s other).
  assert (Hl : tagToRn (info (acct s other)) t = Return None).
  { unfold tagToRn. destruct (rns_with_tag (info (acct s other)) t) as [|rn l] eqn:Hr;
      [reflexivity|].
    exfalso. assert (Hin : In rn (rns_with_tag (info (acct s other)) t))
      by (rewrite Hr; left; reflexivity).
    apply In_rns_with_tag in Hin as [ci [Hin Ht]]. exact (Hno rn ci Hin Ht). }
  rewrite Hl. reflexivity.
Qed.

Lemma init_match_only_tagged_witness :
  bind (updateTag Sim.env 5 "b" "people/b1" "fresh")
       (fun _ => Contacts_update Sim.env 5 "b" "fresh" (JObj [("names", JArr [])])) case_loaded
  = updateTag Sim.env 5 "b" "people/b1" "fresh" case_loaded.
Proof.
  apply init_match_only_tagged.
  intros rn ci [H|[H|[]]]; inversion H; discriminate.
Defined.

(** *** The used tags *)

#[export] Instance used_grows_Frame {E : Env} : Frame (used_grows (E:=E)) any_event.
Proof.
  constructor.
  - intros s. split; [apply incl_refl | auto].
  - intros a b c [H1 H2] [K1 K2]. split; [eapply incl_tran; eassumption | auto].
  - intros s w. split; [apply incl_refl | auto].
  - intros s w ev _. split; [apply incl_refl | auto].
Qed.

#[export] Instance used_grows_FrameCon {E : Env} : FrameCon (used_grows (E:=E)).
Proof. intros s c. split; [apply incl_refl | auto]. Qed.

#[export] Instance used_grows_FrameUsed {E : Env} : FrameUsed (used_grows (E:=E)).
Proof.
  intros s t. cbn [usedTags]. split.
  - intros x Hx. apply In_set_add. left. exact Hx.
  - apply NoDup_set_add.
Qed.

Lemma used_grows_save {E : Env} : respects used_grows (saveConfigLastRun E).
Proof.
  intros s. unfold saveConfigLastRun, bind, now, get_cfg, write_config.
  destruct (Date_now E (world s)). cbn [snd usedTags]. split; [apply incl_refl | auto].
Qed.

(** X19.  Over a whole run, usedTags only grows: every tag that is in the set when the
    run starts is still in it when the run ends, however it ends, and a set
    without repetition stays without repetition. *)
Theorem used_tags_only_grow :
  forall (E : Env) (fuel : nat) (opts : SyncOptions) (s : St E),
    used_grows s (snd (runSync E fuel opts s)).
Proof.
  intros E fuel opts. change (respects used_grows (runSync E fuel opts)).
  unfold runSync. frame_step; [apply (respects_load fuel used_grows any_event)|].
  unfold sync. frame_step; [frame|]. destruct (init opts).
  - frame_step; [apply (respects_init_guard used_grows any_event)|].
    unfold init_mode. frame_step; [|apply used_grows_save].
    apply (respects_init_pushes fuel used_grows any_event).
  - frame_step; [|apply used_grows_save].
    apply (respects_reconcile fuel used_grows any_event).
Qed.

(** *** The seeding of new accounts *)

#[export] Instance seeds_reads (newCon : list string) : AllowsReads (seeds newCon).
Proof. constructor; intros; try exact I. left. assumption. Qed.

Lemma respects_addContactGroup_fine {E : Env} (fuel : nat) (R : St E -> St E -> Prop)
      (okev : Event -> Prop) `{!Frame R okev} `{!AllowsReads okev} (u : string) (body : Json) :
  okev (ECall u (GroupsCreate (set_prop "readGroupFields" (JStr readGroupFields) body))) ->
  respects R (addContactGroup E fuel u body).
Proof.
  intros Hw. unfold addContactGroup. frame_step.
  frame_step; [apply (respects_call R okev); exact Hw | frame].
Qed.

(** X23.  The seeding of new accounts sends no other remote write than the creation of
    contacts and of contact groups in the accounts being seeded; every other
    request is a read. *)
Theorem seeding_only_creates :
  forall (E : Env) (fuel : nat) (active newCon : list string) (s : St E),
    grows (seeds newCon) s (snd (seed_new E fuel active newCon s)).
Proof.
  intros E fuel active newCon.
  change (respects (grows (seeds newCon)) (seed_new E fuel active newCon)).
  unfold seed_new. destruct newCon as [|n0 newCon]; [frame|].
  destruct active as [|source active]; [frame|].
  set (N := n0 :: newCon).
  frame_step; [apply (respects_getInfo fuel (grows (seeds N)) (seeds N))|].
  frame_step; [frame|].
  frame_step.
  { frame_step. frame_step; [apply (respects_getContactGroup fuel (grows (seeds N)) (seeds N))|].
    apply (respects_for_each_In (grows (seeds N)) (seeds N)). intros other Hother. cbv zeta.
    frame_step; [|frame].
    apply (respects_addContactGroup_fine fuel (grows (seeds N)) (seeds N)).
    right. split; [exact Hother | exact I]. }
  frame_step.
  { frame_step. apply (respects_getInfo fuel (grows (seeds N)) (seeds N)). }
  unfold seed_contacts. frame_step; [frame|].
  frame_step. unfold seed_contact.
  frame_step; [apply (respects_Contacts_get fuel (grows (seeds N)) (seeds N))|].
  frame_step; [frame|]. cbv zeta.
  apply (respects_for_each_In (grows (seeds N)) (seeds N)). intros other Hother.
  frame_step; [apply (respects_translated_for (grows (seeds N)) (seeds N))|].
  frame_step; [|frame].
  apply (respects_Contacts_add_fine fuel (grows (seeds N)) (seeds N)).
  right. split; [exact Hother | exact I].
Qed.

(** *** What [saveConfigLastRun] writes *)

(** X26.  A backupdays written as a string in the configuration counts for the run
    (getBackupDays converts it), but saveConfigLastRun saves it as the number 0,
    so that the next run reads 0. *)
Theorem backupdays_string_is_reset :
  forall (E : Env) (t : Z) (kvs : list (string * Json)) (v : string),
    prop "backupdays" (JObj kvs) = JStr v ->
    prop "backupdays" (saved_data E t (JObj kvs)) = JNum 0
    /\ getBackupDays E (saved_data E t (JObj kvs)) = 0%Z
    /\ getBackupDays E (JObj kvs)
       = match Number_parse E v with Some n => n | None => 0%Z end.
Proof.
  intros E t kvs v Hv.
  assert (H0 : prop "backupdays" (saved_data E t (JObj kvs)) = JNum 0).
  { unfold saved_data. cbv zeta.
    set (d1 := set_prop "last" (JStr (toISOString E (t + 5000))) (JObj kvs)).
    assert (H1 : prop "backupdays" d1 = JStr v).
    { unfold d1. rewrite prop_set_prop_other by discriminate. exact Hv. }
    rewrite H1. cbn [is_number].
    assert (H2 : prop "backupdays" (set_prop "backupdays" (JNum 0) d1) = JNum 0)
      by apply prop_set_prop_same.
    destruct (prop "accounts" _); try exact H2;
      rewrite prop_set_prop_other by discriminate; exact H2. }
  split; [exact H0|]. split.
  - unfold getBackupDays. rewrite H0. reflexivity.
  - unfold getBackupDays. rewrite Hv. reflexivity.
Qed.

Lemma backupdays_string_is_reset_witness :
  getBackupDays Sim.env days_as_string = 3%Z
  /\ getBackupDays Sim.env (saved_data Sim.env 1000 days_as_string) = 0%Z.
Proof.
  destruct (backupdays_string_is_reset Sim.env 1000
              [("last", JStr "100"); ("backupdays", JStr "3"); ("accounts", JArr [])] "3"
              eq_refl) as (_ & H2 & H3).
  split; [exact H3 | exact H2].
Defined.

(** *** The deletion step of the contact groups *)

Lemma infoGroups_of_from {E : Env} (users : list string) (s : St E) :
  forall l, foldM users l (fun l u => bind (account E u)
                                           (fun c => ret (l ++ [(u, infoGroup c)]))) s
            = (Ok (l ++ map (fun u => (u, infoGroup (acct s u))) users), s).
Proof.
  induction users as [|u users IH]; intros l; simpl.
  - rewrite app_nil_r. reflexivity.
  - unfold bind at 1. unfold bind at 1. unfold account, bind, get_con, ret. simpl.
    rewrite IH. rewrite <- app_assoc. reflexivity.
Qed.

Lemma infoGroups_of_run {E : Env} (users : list string) (s : St E) :
  infoGroups_of E users s = (Ok (map (fun u => (u, infoGroup (acct s u))) users), s).
Proof. unfold infoGroups_of. exact (infoGroups_of_from users s []). Qed.

#[export] Instance deletes_groups_reads (c0 : list (string * Contacts)) (D : list string) :
  AllowsReads (deletes_groups c0 D).
Proof.
  constructor; intros; try exact I. destruct r; try discriminate; reflexivity.
Qed.

Section GroupDeleteStep.

Context {E : Env} (fuel : nat) (c0 : list (string * Contacts)) (D : list string).

Let R := still (E:=E) (deletes_groups c0 D) c0.

Lemma group_delete_request_deletes (u t rn : string) :
  In t D -> tagToRnContactGroup (infoGroup (lookup_account u c0)) t = Return (Some rn) ->
  respects R (group_delete_request u rn).
Proof.
  intros Hin Hl. unfold group_delete_request.
  frame_step; [|frame]. apply (respects_call R (deletes_groups c0 D)). simpl. eauto.
Qed.

Lemma deleteContactGroup_deletes (u t : string) :
  In t D -> respects R (deleteContactGroup E fuel u t).
Proof.
  intros Hin. unfold deleteContactGroup. apply still_account.
  destruct (tagToRnContactGroup (infoGroup (lookup_account u c0)) t) as [[rn|]|e] eqn:Hl.
  - intros s. unfold bind at 1. unfold lift, ret. destruct (rn =? ""); [apply fr_refl|].
    apply (respects_withBackoff_loop R (deletes_groups c0 D)); [intros; exact I|].
    apply (group_delete_request_deletes u t rn Hin Hl).
  - intros s. apply fr_refl.
  - intros s. apply fr_refl.
Qed.

Lemma group_delete_loops_deletes (active : list string) :
  respects R (for_each active
                (fun email => for_each D (fun t => deleteContactGroup E fuel email t))).
Proof.
  frame_step. apply (respects_for_each_In R (deletes_groups c0 D)).
  intros t Ht. apply deleteContactGroup_deletes. exact Ht.
Qed.

Lemma group_delete_loops_returned (active : list string) (u tg rn : string) (s s' : St E) :
  con s = c0 ->
  for_each active (fun email => for_each D (fun t => deleteContactGroup E fuel email t)) s
  = (Ok tt, s') ->
  In u active -> In tg D ->
  tagToRnContactGroup (infoGroup (lookup_account u c0)) tg = Return (Some rn) -> rn <> "" ->
  exists t, events s' = events s ++ t /\ In (ECall u (GroupsDelete rn)) t.
Proof.
  intros Hc Hrun Hu Htg Hl Hrn.
  destruct (for_each_returned R (deletes_groups c0 D) active _ u
              (fun y _ => respects_for_each_In R (deletes_groups c0 D) D _
                            (fun t Ht => deleteContactGroup_deletes y t Ht))
              Hu s s' Hrun) as (s1 & s2 & H1 & Hrun1 & H2).
  destruct (H1 Hc) as (Hc1 & t1 & Ht1 & _).
  assert (Hinner : exists s3 s4, R s1 s3 /\ deleteContactGroup E fuel u tg s3 = (Ok tt, s4)
                                 /\ R s4 s2).
  { apply (for_each_returned R (deletes_groups c0 D) D
             (fun t => deleteContactGroup E fuel u t) tg
             (fun t Ht => deleteContactGroup_deletes u t Ht) Htg s1 s2 Hrun1). }
  destruct Hinner as (s3 & s4 & H3 & Hd & H4).
  destruct (H3 Hc1) as (Hc3 & t3 & Ht3 & _).
  unfold deleteContactGroup, bind at 1, account, bind at 1, get_con, ret in Hd. simpl in Hd.
  rewrite Hc3, Hl in Hd. unfold bind at 1, lift, ret in Hd.
  apply String.eqb_neq in Hrn. rewrite Hrn in Hd.
  destruct (withBackoff_loop_returned R (deletes_groups c0 D) _ fuel (fun _ => I)
              (group_delete_request_deletes u tg rn Htg Hl) _ _ _ _ Hd) as (s5 & H5 & Hreq).
  destruct (H5 Hc3) as (Hc5 & t5 & Ht5 & _).
  assert (Hev : events s4 = events s5 ++ [ECall u (GroupsDelete rn)] /\ con s4 = c0).
  { unfold group_delete_request, bind, call in Hreq.
    destruct (api E u (GroupsDelete rn) (world s5)) as [[d|e|] w]; simpl in Hreq;
      try discriminate; inversion Hreq; split; [reflexivity | exact Hc5]. }
  destruct Hev as [Hev Hc4].
  destruct (H4 Hc4) as (Hc2 & t4 & Ht4 & _).
  destruct (H2 Hc2) as (_ & t2 & Ht2 & _).
  exists (t1 ++ t3 ++ t5 ++ [ECall u (GroupsDelete rn)] ++ t4 ++ t2). split.
  - rewrite Ht2, Ht4, Hev, Ht5, Ht3, Ht1. rewrite <- !app_assoc. reflexivity.
  - apply in_or_app. right. apply in_or_app. right. apply in_or_app. right.
    left. reflexivity.
Qed.

End GroupDeleteStep.

(** X20.  The deletion step of the contact groups sends no other remote write than the
    deletion of groups that carry, in their account, a tag that some active
    account holds and some other lacks; with no such tag it does nothing; and
    when it returns, every active account that holds such a tag on one group had
    this group deleted. *)
Theorem group_deletion_propagation :
  forall (E : Env) (fuel : nat) (active : list string) (s : St E),
    let D := to_delete (map (fun u => infoGroup (acct s u)) active) in
    grows (deletes_groups (con s) D) s (snd (delete_groups E fuel active s))
    /\ (D = [] -> delete_groups E fuel active s = (Ok tt, s))
    /\ forall s' u tg rn,
        delete_groups E fuel active s = (Ok tt, s') ->
        In u active -> In tg D ->
        tagToRnContactGroup (infoGroup (acct s u)) tg = Return (Some rn) -> rn <> "" ->
        exists t, events s' = events s ++ t /\ In (ECall u (GroupsDelete rn)) t.
Proof.
  intros E fuel active s D. split; [|split].
  - unfold delete_groups, bind at 1. rewrite infoGroups_of_run.
    rewrite map_map. cbn [snd]. cbv zeta. fold D.
    destruct (0 <? List.length D)%nat; [|apply (fr_refl (Frame:=grows_Frame _))].
    unfold bind.
    pose proof (group_delete_loops_deletes fuel (con s) D active s eq_refl)
      as (Hc & t & Ht & Hf).
    destruct (for_each active _ s) as [[[]|e|c|] s1]; simpl in *;
      try (exists t; split; assumption).
    pose proof (respects_for_each (grows (deletes_groups (con s) D)) (deletes_groups (con s) D)
                  active (getInfo E fuel)
                  (respects_getInfo fuel (grows (deletes_groups (con s) D))
                                    (deletes_groups (con s) D)) s1)
      as (t2 & Ht2 & Hf2).
    exists (t ++ t2). split; [rewrite Ht2, Ht, app_assoc; reflexivity|].
    apply Forall_app. auto.
  - intros Hd. unfold delete_groups, bind at 1. rewrite infoGroups_of_run.
    rewrite map_map. cbn [snd]. cbv zeta. fold D. rewrite Hd. reflexivity.
  - intros s' u tg rn Hrun Hu Htg Hl Hrn.
    unfold delete_groups, bind at 1 in Hrun. rewrite infoGroups_of_run in Hrun.
    rewrite map_map in Hrun. cbn [snd] in Hrun. cbv zeta in Hrun. fold D in Hrun.
    assert (Hlen : (0 <? List.length D)%nat = true).
    { destruct D; [destruct Htg | reflexivity]. }
    rewrite Hlen in Hrun. unfold bind in Hrun.
    destruct (for_each active _ s) as [[[]|e|c|] s1] eqn:Hloops; try discriminate.
    destruct (group_delete_loops_returned fuel (con s) D active u tg rn s s1 eq_refl Hloops
                Hu Htg Hl Hrn) as (t & Ht & Hin).
    pose proof (respects_for_each (grows not_config_write) not_config_write active
                  (getInfo E fuel)
                  (respects_getInfo fuel (grows not_config_write) not_config_write) s1)
      as (t2 & Ht2 & _).
    rewrite Hrun in Ht2. simpl in Ht2.
    exists (t ++ t2). split; [rewrite Ht2, Ht, app_assoc; reflexivity|].
    apply in_or_app. left. exact Hin.
Qed.

Lemma group_deletion_propagation_witness :
  delete_groups Sim.env 5 ["a"; "b"] gdel_loaded = (Ok tt, gdel_done)
  /\ In "g2" (to_delete (map (fun u => infoGroup (acct gdel_loaded u)) ["a"; "b"]))
  /\ exists t, events gdel_done = events gdel_loaded ++ t
               /\ In (ECall "a" (GroupsDelete "contactGroups/gc")) t.
Proof.
  split; [reflexivity|]. split; [left; reflexivity|].
  apply (proj2 (proj2 (group_deletion_propagation Sim.env 5%nat ["a"; "b"] gdel_loaded))
               gdel_done "a" "g2" "contactGroups/gc").
  - reflexivity.
  - left. reflexivity.
  - left. reflexivity.
  - reflexivity.
  - discriminate.
Defined.

(** *** The rotation of the backups *)

Lemma rotate_loop_spec (k : nat) :
  forall d : Backups,
    d (S k) = None ->
    rotate_loop k d 1%nat = None
    /\ (forall i, (1 <= i <= k)%nat -> rotate_loop k d (S i) = d i)
    /\ (forall j, j = O \/ (S k < j)%nat -> rotate_loop k d j = d j).
Proof.
  induction k as [|k IH]; intros d Hd; cbn [rotate_loop].
  - split; [exact Hd|]. split; [intros i Hi; lia | reflexivity].
  - set (d' := if fileExists (S k) d then fs_rename (S k) (S (S k)) d else d).
    assert (H1 : d' (S k) = None).
    { unfold d', fileExists. destruct (d (S k)) eqn:Hk; [|exact Hk].
      unfold fs_rename. rewrite (proj2 (Nat.eqb_neq (S k) (S (S k)))) by lia.
      rewrite Nat.eqb_refl. reflexivity. }
    assert (H2 : d' (S (S k)) = d (S k)).
    { unfold d', fileExists. destruct (d (S k)) eqn:Hk; [|rewrite Hd; reflexivity].
      unfold fs_rename. rewrite Nat.eqb_refl. exact Hk. }
    assert (H3 : forall j, j <> S k -> j <> S (S k) -> d' j = d j).
    { intros j Hj1 Hj2. unfold d'. destruct (fileExists (S k) d); [|reflexivity].
      unfold fs_rename. rewrite (proj2 (Nat.eqb_neq j (S (S k)))) by exact Hj2.
      rewrite (proj2 (Nat.eqb_neq j (S k))) by exact Hj1. reflexivity. }
    destruct (IH d' H1) as (I1 & I2 & I3). split; [exact I1|]. split.
    + intros i Hi. destruct (Nat.eq_dec i (S k)) as [->|Hne].
      * rewrite I3 by (right; lia). exact H2.
      * rewrite I2 by lia. apply H3; lia.
    + intros j Hj. rewrite I3 by lia. apply H3; lia.
Qed.

Lemma rotate_files_spec (n : Z) (d : Backups) :
  (0 < n)%Z ->
  rotate_files n d 1%nat = None
  /\ (forall i, (1 <= i)%nat -> (Z.of_nat i < n)%Z -> rotate_files n d (S i) = d i)
  /\ (forall j, j = O \/ (n < Z.of_nat j)%Z -> rotate_files n d j = d j).
Proof.
  intros Hn. unfold rotate_files. rewrite (proj2 (Z.leb_gt n 0)) by exact Hn. cbv zeta.
  set (k := Z.to_nat n).
  assert (Hk : (1 <= k)%nat /\ Z.of_nat k = n) by (unfold k; lia).
  set (d0 := if fileExists k d then fs_rm k d else d).
  assert (H1 : d0 k = None).
  { unfold d0, fileExists. destruct (d k) eqn:Hdk; [|exact Hdk].
    unfold fs_rm. rewrite Nat.eqb_refl. reflexivity. }
  assert (H2 : forall j, j <> k -> d0 j = d j).
  { intros j Hj. unfold d0. destruct (fileExists k d); [|reflexivity].
    unfold fs_rm. rewrite (proj2 (Nat.eqb_neq j k)) by exact Hj. reflexivity. }
  assert (Hk1 : S (k - 1) = k) by lia.
  destruct (rotate_loop_spec (k - 1) d0) as (I1 & I2 & I3); [rewrite Hk1; exact H1|].
  split; [exact I1|]. split.
  - intros i Hi1 Hi2. rewrite I2 by lia. apply H2. lia.
  - intros j Hj. rewrite I3 by lia. apply H2. lia.
Qed.

Lemma backups_after_leaves (t : list Event) (d : Backups) :
  Forall leaves_backups t -> backups_after t d = d.
Proof.
  unfold backups_after. revert d. induction t as [|e t IH]; intros d H; [reflexivity|].
  inversion H as [|? ? He Ht]; subst. cbn [fold_left].
  destruct e; try destruct He; apply IH; exact Ht.
Qed.

Section Listings.

Context {E : Env} (fuel : nat) (R : St E -> St E -> Prop) (okev : Event -> Prop)
        `{!Frame R okev}.
Hypothesis ok_reads : forall u r, is_write r = false -> okev (ECall u r).
Hypothesis ok_sleeps : forall ms, okev (ESleep ms).

Lemma getAllContacts_loop_reads (n : nat) (u : string) (fields : list string) :
  forall pageToken out, respects R (getAllContacts_loop E n u fields pageToken out).
Proof.
  induction n as [|n IH]; intros pageToken out; simpl; [frame|].
  frame_step; [apply (respects_call R okev); apply ok_reads; reflexivity|].
  frame_step; [frame|]. cbv zeta.
  destruct (str_field "nextPageToken" _); [apply IH | frame].
Qed.

Lemma getContactGroups_loop_reads (n : nat) (u : string) :
  forall pageToken out, respects R (getContactGroups_loop E fuel n u pageToken out).
Proof.
  induction n as [|n IH]; intros pageToken out; simpl; [frame|].
  frame_step.
  - apply (respects_withBackoff_loop R okev); [exact ok_sleeps|].
    frame_step; [apply (respects_call R okev); apply ok_reads; reflexivity | frame].
  - cbv zeta. destruct (str_field "nextPageToken" _); [apply IH | frame].
Qed.

End Listings.

Lemma backup_events {E : Env} (fuel : nat) (s : St E) (r : Outcome unit) (s' : St E) :
  (0 < getBackupDays E (cfg_data s))%Z ->
  backup E fuel s = (r, s') ->
  exists reads,
    Forall leaves_backups reads
    /\ match r with
       | Ok _ =>
           exists snap,
             isBackupV2 snap = true
             /\ events s' = events s ++ ERotateBackups (getBackupDays E (cfg_data s)) :: reads
                                       ++ [EWriteBackup snap]
       | _ => events s' = events s ++ ERotateBackups (getBackupDays E (cfg_data s)) :: reads
       end.
Proof.
  intros Hd. unfold backup. unfold bind at 1. unfold get_cfg. cbv zeta.
  rewrite (proj2 (Z.ltb_lt 0 _) Hd). unfold rotateBackups.
  rewrite (proj2 (Z.leb_gt _ 0) Hd). unfold bind at 1. unfold emit.
  set (s1 := mkSt E (world s) (con s) (usedTags s) (cfg_data s) (config_file s)
                  (events s ++ [ERotateBackups (getBackupDays E (cfg_data s))])).
  unfold bind at 1. unfold now. destruct (Date_now E (world s1)) as [t w].
  set (s2 := mkSt E w (con s1) (usedTags s1) (cfg_data s1) (config_file s1) (events s1)).
  unfold bind at 1. unfold con_keys, bind at 1, get_con. unfold ret at 1.
  unfold bind at 1.
  match goal with |- context [foldM ?xs ?b ?body s2] =>
    assert (Hr : respects (grows leaves_backups) (foldM xs b body));
    [| specialize (Hr s2); destruct (foldM xs b body s2) as [r1 s3] ]
  end.
  { apply (respects_foldM _ leaves_backups). intros accounts email.
    frame_step.
    - apply (getContactGroups_loop_reads fuel _ leaves_backups);
        [intros ? ? _; exact I | intros ?; exact I].
    - cbv zeta. frame_step; [|frame].
      apply (getAllContacts_loop_reads _ leaves_backups); intros ? ? _; exact I. }
  cbn [snd] in Hr. destruct Hr as (reads & Hev & Hreads). intros Hrun. exists reads.
  split; [exact Hreads|].
  assert (Hev' : events s3 = events s ++ ERotateBackups (getBackupDays E (cfg_data s)) :: reads).
  { rewrite Hev. unfold s2, s1. cbn [events]. rewrite <- app_assoc. reflexivity. }
  destruct r1 as [accounts|e|c|]; inversion Hrun; subst; try exact Hev'.
  eexists. split; [|cbn [events]; rewrite Hev', <- app_assoc; reflexivity].
  reflexivity.
Qed.

(** X24.  With backupdays = n > 0, the backup block moves the snapshot file of each
    slot i < n to slot i+1, drops what slot n held and leaves the slots above n
    alone; when the block returns, slot 1 holds the new snapshot, which
    isBackupV2 accepts; when a listing fails, the rotation has been done and
    slot 1 is empty. *)
Theorem backup_rotation :
  forall (E : Env) (fuel : nat) (s : St E) (dir : Backups),
    (0 < getBackupDays E (cfg_data s))%Z ->
    let days := getBackupDays E (cfg_data s) in
    let s' := snd (backup E fuel s) in
    let dir' := backups_after (added_events s s') dir in
    (forall i, (1 <= i)%nat -> (Z.of_nat i < days)%Z -> dir' (S i) = dir i)
    /\ (forall j, j = O \/ (days < Z.of_nat j)%Z -> dir' j = dir j)
    /\ match fst (backup E fuel s) with
       | Ok _ => exists snap, dir' 1%nat = Some snap /\ isBackupV2 snap = true
       | _ => dir' 1%nat = None
       end.
Proof.
  intros E fuel s dir Hd. cbv zeta.
  destruct (backup E fuel s) as [r s'] eqn:Hrun. cbn [fst snd].
  destruct (backup_events fuel s r s' Hd Hrun) as (reads & Hreads & Hev).
  destruct (rotate_files_spec _ dir Hd) as (R1 & R2 & R3).
  assert (Hrot : forall tail,
             backups_after (ERotateBackups (getBackupDays E (cfg_data s)) :: reads ++ tail) dir
             = backups_after tail (rotate_files (getBackupDays E (cfg_data s)) dir)).
  { intros tail. unfold backups_after. cbn [fold_left backups_step]. rewrite fold_left_app.
    change (fold_left backups_step reads (rotate_files (getBackupDays E (cfg_data s)) dir))
      with (backups_after reads (rotate_files (getBackupDays E (cfg_data s)) dir)).
    rewrite (backups_after_leaves reads _ Hreads). reflexivity. }
  destruct r as [[]|e|c|].
  - destruct Hev as (snap & Hsnap & Hev).
    rewrite (added_events_app _ _ _ Hev), Hrot.
    unfold backups_after. cbn [fold_left backups_step]. unfold fs_write.
    split; [|split].
    + intros i Hi1 Hi2. rewrite (proj2 (Nat.eqb_neq (S i) 1)) by lia. apply R2; assumption.
    + intros j Hj. destruct Hj as [->|Hj]; [cbn [Nat.eqb]; apply R3; left; reflexivity|].
      rewrite (proj2 (Nat.eqb_neq j 1)) by lia. apply R3. right. exact Hj.
    + exists snap. split; [reflexivity | exact Hsnap].
  - rewrite (added_events_app _ _ _ Hev).
    replace (ERotateBackups (getBackupDays E (cfg_data s)) :: reads)
      with (ERotateBackups (getBackupDays E (cfg_data s)) :: reads ++ [])
      by (rewrite app_nil_r; reflexivity).
    rewrite Hrot. unfold backups_after. cbn [fold_left]. auto.
  - rewrite (added_events_app _ _ _ Hev).
    replace (ERotateBackups (getBackupDays E (cfg_data s)) :: reads)
      with (ERotateBackups (getBackupDays E (cfg_data s)) :: reads ++ [])
      by (rewrite app_nil_r; reflexivity).
    rewrite Hrot. unfold backups_after. cbn [fold_left]. auto.
  - rewrite (added_events_app _ _ _ Hev).
    replace (ERotateBackups (getBackupDays E (cfg_data s)) :: reads)
      with (ERotateBackups (getBackupDays E (cfg_data s)) :: reads ++ [])
      by (rewrite app_nil_r; reflexivity).
    rewrite Hrot. unfold backups_after. cbn [fold_left]. auto.
Qed.

Lemma backup_rotation_witness :
  let dir' := backups_after (added_events backup_loaded (snd (backup Sim.env 5 backup_loaded)))
                            old_backups in
  dir' 2%nat = Some (JStr "yesterday")
  /\ dir' 3%nat = Some (JStr "the day before")
  /\ dir' 4%nat = None.
Proof.
  intros dir'.
  destruct (backup_rotation Sim.env 5 backup_loaded old_backups eq_refl) as (H1 & H2 & _).
  split; [apply (H1 1%nat); [lia | reflexivity]|].
  split; [apply (H1 2%nat); [lia | reflexivity]|].
  apply (H2 4%nat). right. reflexivity.
Defined.

(** *** Copies of contact groups *)

#[export] Instance group_copies_reads : AllowsReads group_copies.
Proof.
  constructor; intros; try exact I. destruct r; try discriminate; reflexivity.
Qed.

#[export] Instance group_renames_reads : AllowsReads group_renames.
Proof.
  constructor; intros; try exact I. destruct r; try discriminate; reflexivity.
Qed.

Section GroupFrames.

Context {E : Env} (fuel : nat) (R : St E -> St E -> Prop) (okev : Event -> Prop)
        `{!Frame R okev} `{!FrameCon R} `{!AllowsReads okev}.

(** What [getContactGroupWaitSyncTag] returns carries a sync tag. *)
Lemma respects_after_wait {A} (u rn : string) (k : Json -> M E A) (n : nat) :
  (forall group, has_sync_key group = true -> respects R (k group)) ->
  forall d, respects R (bind (getContactGroupWaitSyncTag_loop E fuel n u rn d) k).
Proof.
  intros Hk. induction n as [|n IH]; intros d s.
  - apply fr_refl.
  - cbn [getContactGroupWaitSyncTag_loop]. unfold bind at 1. unfold bind at 1.
    pose proof (respects_getContactGroup fuel R okev u rn s) as Hg.
    destruct (getContactGroup E fuel u rn s) as [[cont|e|c|] s1]; simpl in Hg |- *;
      try exact Hg.
    fold (has_sync_key cont). destruct (has_sync_key cont) eqn:Hs.
    + unfold ret. eapply fr_trans; [exact Hg | apply (Hk cont Hs)].
    + unfold bind at 1. unfold sleep, emit.
      eapply fr_trans; [exact Hg|].
      eapply fr_trans; [apply (fr_event (Frame:=Frame0)); apply ok_sleep|].
      apply (IH (next_delay d)).
Qed.

Lemma respects_updateContactGroupTag_fine (u rn t : string) :
  (forall b, prop "updateGroupFields" b = JStr "clientData" ->
             okev (ECall u (GroupsUpdate rn b))) ->
  respects R (updateContactGroupTag E fuel u rn t).
Proof.
  intros Hw. unfold updateContactGroupTag. frame_step. frame_step.
  - frame_step; [apply (respects_read R okev); reflexivity|].
    frame_step; [frame|]. cbv zeta.
    frame_step; [frame|]. destruct (cached_etag _ _); [|frame].
    frame_step; [apply (respects_call R okev); apply Hw; reflexivity | frame].
  - apply (respects_refresh_on_conflict fuel R okev).
Qed.

Lemma respects_updateContactGroup_fine (u t : string) (body : Json) :
  (forall rn et, okev (ECall u (GroupsUpdate rn
                    (JObj [("contactGroup", JObj [("etag", et); ("name", prop "name" body)]);
                           ("readGroupFields", JStr readGroupFields)])))) ->
  respects R (updateContactGroup E fuel u t body).
Proof.
  intros Hw. unfold updateContactGroup. frame_step; [frame|]. frame_step; [frame|].
  destruct a0 as [rn|]; [|frame]. destruct (rn =? ""); [frame|].
  frame_step. frame_step; [frame|]. cbv zeta.
  frame_step; [apply (respects_call R okev); apply Hw | frame].
Qed.

End GroupFrames.

(** X21.  The addition step of the contact groups creates groups with the name and the
    clientData of a group that carries a sync key, and nothing else, and
    otherwise only writes tags; the update step of the contact groups only sends
    updates made of an etag and a name. Neither step writes a contact or deletes
    anything. *)
Theorem group_steps_write_names_and_tags :
  forall (E : Env) (fuel : nat) (active : list string) (added : list (string * string))
         (lastUpdate : Date) (s : St E),
    grows group_copies s (snd (add_groups E fuel active s))
    /\ grows group_renames s (snd (update_groups E fuel active added lastUpdate s)).
Proof.
  intros E fuel active added lastUpdate s. split.
  - revert s. change (respects (grows group_copies) (add_groups E fuel active)).
    unfold add_groups. frame_step. frame_step; [frame|]. frame_step. cbv zeta.
    frame_step; [apply (respects_newTag_loop (grows group_copies) group_copies)|].
    frame_step.
    { apply (respects_updateContactGroupTag_fine fuel (grows group_copies) group_copies).
      intros rb Hb. exact Hb. }
    unfold getContactGroupWaitSyncTag.
    apply (respects_after_wait fuel (grows group_copies) group_copies).
    intros group Hgroup.
    frame_step. destruct (x1 =? x); [frame|]. cbv zeta.
    frame_step; [|frame].
    apply (respects_addContactGroup_fine fuel (grows group_copies) group_copies).
    exists group. split; [exact Hgroup | reflexivity].
  - revert s.
    change (respects (grows group_renames) (update_groups E fuel active added lastUpdate)).
    unfold update_groups.
    frame_step; [apply (respects_infoGroups_of (grows group_renames) group_renames)|].
    frame_step. destruct (newest _); [|frame].
    frame_step; [apply (respects_getContactGroup fuel (grows group_renames) group_renames)|].
    frame_step. destruct (_ =? _); [frame|].
    apply (respects_updateContactGroup_fine fuel (grows group_renames) group_renames).
    intros rn et. simpl. eauto.
Qed.

(** *** Conflicts on the etag *)

Lemma getContactGroup_keeps_con {E : Env} (fuel : nat) (u rn : string) (s : St E) :
  con (snd (getContactGroup E fuel u rn s)) = con s.
Proof.
  apply still_keeps_con. apply (respects_getContactGroup fuel _ not_config_write).
Qed.

(** X12.  When an attempt of updateContactGroupTag fails with a 409 whose reason names
    the etag, the catch block reads the group again, stores its current etag in
    the group cache while keeping the cached tag, and throws the same error
    again, which withBackoff retries. *)
Theorem group_conflict_refreshes_etag :
  forall (E : Env) (fuel : nat) (u rn : string) (e fresh : Json) (s s1 : St E)
         (et nm : string),
    num_eq (error_code e) 409 = true ->
    includes "etag" (js_String (coalesce (coalesce (prop "reason" (idx 0 (prop "errors" e)))
                                                   (prop "message" e)) (JStr ""))) = true ->
    getContactGroup E fuel u rn s = (Ok fresh, s1) ->
    str_field "resourceName" fresh = Some rn -> rn <> "" ->
    str_field "etag" fresh = Some et -> et <> "" ->
    str_field "name" fresh = Some nm -> nm <> "" ->
    exists s2,
      refresh_on_conflict E fuel u rn e s = (Throw e, s2)
      /\ retryable e = true
      /\ cached_etag (infoGroup (acct s2 u)) rn = Some et
      /\ rnToTagContactGroup (infoGroup (acct s2 u)) rn
         = rnToTagContactGroup (infoGroup (acct s u)) rn.
Proof.
  intros E fuel u rn e fresh s s1 et nm Hcode Hreason Hget Hrn Hrn0 Het Het0 Hnm Hnm0.
  pose proof (getContactGroup_keeps_con fuel u rn s) as Hc. rewrite Hget in Hc. cbn [snd] in Hc.
  unfold refresh_on_conflict. cbv zeta. rewrite Hcode, Hreason. cbn [andb].
  unfold bind at 1. rewrite Hget.
  unfold bind at 1. unfold account, get_con, bind at 1, ret.
  rewrite Hrn, Het, Hnm.
  apply String.eqb_neq in Hrn0, Het0, Hnm0. rewrite Hrn0, Het0, Hnm0. cbn [orb].
  unfold bind at 1.
  match goal with |- context [set_infoGroup E u ?g s1] =>
    destruct (set_infoGroup_run u g s1) as (s2 & Hrun & _ & _ & Hg) end.
  rewrite Hrun. exists s2. split; [reflexivity|]. split.
  - unfold retryable. destruct (error_code e); try discriminate.
    cbn [num_eq] in Hcode. apply Z.eqb_eq in Hcode. subst. reflexivity.
  - rewrite Hg. unfold cached_etag, rnToTagContactGroup.
    rewrite assoc_obj_set, String.eqb_refl. cbn [etag tag]. rewrite Het0.
    unfold acct. rewrite Hc. split; reflexivity.
Qed.

Lemma group_conflict_refreshes_etag_witness :
  cached_etag (infoGroup (acct stale_cache "a")) "contactGroups/ga" = Some "old"
  /\ exists s2,
      refresh_on_conflict Sim.env 5 "a" "contactGroups/ga" etag_conflict stale_cache
      = (Throw etag_conflict, s2)
      /\ retryable etag_conflict = true
      /\ cached_etag (infoGroup (acct s2 "a")) "contactGroups/ga" = Some "e4"
      /\ rnToTagContactGroup (infoGroup (acct s2 "a")) "contactGroups/ga" = Some "g1".
Proof.
  split; [reflexivity|].
  apply (group_conflict_refreshes_etag Sim.env 5 "a" "contactGroups/ga" etag_conflict
           (Sim.group "contactGroups/ga" "e4" "Fam" (Some "g1") "10") stale_cache
           (snd (getContactGroup Sim.env 5 "a" "contactGroups/ga" stale_cache)) "e4" "Fam");
    try reflexivity; discriminate.
Defined.

(** X11.  All attempts of one call of update send the same request, with the etag
    cached when the call started: the call leaves the caches as they are, and
    its events are this request and the sleeps between the attempts. *)
Theorem update_retries_same_request :
  forall (E : Env) (fuel : nat) (u t : string) (body : Json) (s : St E) (rn et : string),
    tagToRn (info (acct s u)) t = Return (Some rn) -> rn <> "" ->
    cached_etag (info (acct s u)) rn = Some et ->
    let req := UpdateContact rn (join "," allUpdatePersonFields)
                             (JObj (obj_set "etag" (JStr et) (entries body))) in
    let s' := snd (Contacts_update E fuel u t body s) in
    con s' = con s
    /\ exists tr, events s' = events s ++ tr /\ Forall (attempts_of u req) tr.
Proof.
  intros E fuel u t body s rn et Hl Hrn Het. cbv zeta.
  set (req := UpdateContact rn (join "," allUpdatePersonFields)
                            (JObj (obj_set "etag" (JStr et) (entries body)))).
  assert (H : respects (still (attempts_of u req) (con s)) (Contacts_update E fuel u t body)).
  { unfold Contacts_update. apply still_account. fold (acct s u). rewrite Hl.
    intros s0. unfold bind at 1. cbn [lift]. unfold ret at 1.
    apply String.eqb_neq in Hrn. rewrite Hrn.
    apply (respects_withBackoff_loop _ (attempts_of u req)); [intros ms; exact I|].
    apply still_account. fold (acct s u). rewrite Het. cbv zeta. fold req.
    frame_step; [|frame]. apply (respects_call _ (attempts_of u req)). split; reflexivity. }
  exact (H s eq_refl).
Qed.

Lemma update_retries_same_request_witness :
  let req := UpdateContact "people/b1" (join "," allUpdatePersonFields)
                           (JObj [("names", JArr []); ("etag", JStr "e3")]) in
  events (snd (Contacts_update Sim.env 5 "b" "t1" (JObj [("names", JArr [])]) conflicts_twice))
  = [ECall "b" req; ESleep 500; ECall "b" req; ESleep 1000; ECall "b" req]
  /\ exists tr,
      events (snd (Contacts_update Sim.env 5 "b" "t1" (JObj [("names", JArr [])])
                                   conflicts_twice))
      = events conflicts_twice ++ tr
      /\ Forall (attempts_of "b" req) tr.
Proof.
  intros req. split; [reflexivity|].
  apply (update_retries_same_request Sim.env 5 "b" "t1" (JObj [("names", JArr [])])
           conflicts_twice "people/b1" "e3"); [reflexivity | discriminate | reflexivity].
Defined.

(** *** The legacy configuration *)

Lemma getAccounts_migrated (E : Env) (iniData : Ini) :
  getAccounts (migrateIniToJson E iniData)
  = flat_map (fun sv =>
                if fst sv =? "DEFAULT" then []
                else if fst sv =? "account-FIXME" then []
                else match assoc "user" (snd sv), assoc "keyfile" (snd sv),
                           assoc "credfile" (snd sv) with
                     | Some u, Some k, Some c => [(u, (k, c))]
                     | _, _, _ => []
                     end) iniData.
Proof.
  unfold getAccounts, migrateIniToJson. cbv zeta.
  change (items (coalesce (prop "accounts" (JObj ?l)) (JArr [])))
    with (items (coalesce (prop "accounts" (JObj l)) (JArr []))).
  cbn [prop assoc String.eqb Ascii.eqb Bool.eqb coalesce nullish items].
  induction iniData as [|[section value] rest IH]; [reflexivity|].
  cbn [flat_map fst snd]. rewrite flat_map_app, IH. f_equal.
  destruct (section =? "DEFAULT"); [reflexivity|].
  destruct (section =? "account-FIXME"); [reflexivity|].
  destruct (assoc "user" value); [|reflexivity].
  destruct (assoc "keyfile" value); [|reflexivity].
  destruct (assoc "credfile" value); reflexivity.
Qed.

(** X27.  From the configuration that migrateIniToJson makes of a legacy file,
    getAccounts reads exactly the accounts of the sections other than DEFAULT
    and account-FIXME that have user, keyfile and credfile, and drops none of
    the migrated accounts; getLastRunIso is never empty; and saveConfigLastRun
    changes nothing but last. *)
Theorem migrated_config_reads_back :
  forall (E : Env) (iniData : Ini),
    let data := migrateIniToJson E iniData in
    (forall u k c,
        In (u, (k, c)) (getAccounts data)
        <-> exists section value,
            In (section, value) iniData
            /\ section <> "DEFAULT" /\ section <> "account-FIXME"
            /\ assoc "user" value = Some u /\ assoc "keyfile" value = Some k
            /\ assoc "credfile" value = Some c)
    /\ List.length (getAccounts data)
       = List.length (items (prop "accounts" data))
    /\ getLastRunIso data <> ""
    /\ (forall t, saved_data E t data
                  = set_prop "last" (JStr (toISOString E (t + 5000))) data).
Proof.
  intros E iniData. cbv zeta. split; [|split; [|split]].
  - intros u k c. rewrite getAccounts_migrated, in_flat_map. split.
    + intros ([section value] & Hin & Hx). cbn [fst snd] in Hx.
      destruct (section =? "DEFAULT") eqn:H1; [destruct Hx|].
      destruct (section =? "account-FIXME") eqn:H2; [destruct Hx|].
      destruct (assoc "user" value) as [u'|] eqn:Hu; [|destruct Hx].
      destruct (assoc "keyfile" value) as [k'|] eqn:Hk; [|destruct Hx].
      destruct (assoc "credfile" value) as [c'|] eqn:Hc; [|destruct Hx].
      destruct Hx as [Hx|[]]. inversion Hx; subst.
      exists section, value. apply String.eqb_neq in H1. apply String.eqb_neq in H2.
      repeat split; try assumption; reflexivity.
    + intros (section & value & Hin & H1 & H2 & Hu & Hk & Hc).
      exists (section, value). split; [exact Hin|]. cbn [fst snd].
      apply String.eqb_neq in H1. apply String.eqb_neq in H2.
      rewrite H1, H2, Hu, Hk, Hc. left. reflexivity.
  - rewrite getAccounts_migrated. unfold migrateIniToJson. cbv zeta.
    cbn [prop assoc String.eqb Ascii.eqb Bool.eqb items].
    induction iniData as [|[section value] rest IH]; [reflexivity|].
    cbn [flat_map fst snd]. rewrite !length_app, IH. f_equal.
    destruct (section =? "DEFAULT"); [reflexivity|].
    destruct (section =? "account-FIXME"); [reflexivity|].
    destruct (assoc "user" value); [|reflexivity].
    destruct (assoc "keyfile" value); [|reflexivity].
    destruct (assoc "credfile" value); reflexivity.
  - unfold getLastRunIso, migrateIniToJson. cbv zeta.
    cbn [prop assoc String.eqb Ascii.eqb Bool.eqb].
    destruct (assoc "last" _) as [v|]; [|discriminate].
    destruct (0 <? String.length v)%nat eqn:Hv; rewrite ?Hv; [|discriminate].
    intros ->. discriminate.
  - intros t. unfold saved_data, migrateIniToJson. cbv zeta. reflexivity.
Qed.

(** X28.  A configuration that loadConfigOrCreateDefault returns has an accounts
    array; it is the parsed config.json, with nothing written, or, without
    config.json, the migration of a config.ini that has no account-FIXME
    section, written to config.json. *)
Theorem loaded_config_has_accounts :
  forall (E : Env) (join : string -> string -> string) (cdir : string)
         (json : option Json) (ini : option Ini) (data : Json) (written : option Json),
    loadConfigOrCreateDefault E join cdir json ini = Config data written ->
    (exists xs, prop "accounts" data = JArr xs)
    /\ (json = Some data /\ written = None
        \/ json = None /\ written = Some data
           /\ exists legacy, ini = Some legacy
                             /\ assoc "account-FIXME" legacy = None
                             /\ data = migrateIniToJson E legacy).
Proof.
  intros E join cdir json ini data written. unfold loadConfigOrCreateDefault.
  destruct json as [d|].
  - destruct (prop "accounts" d) as [| | | | |xs|] eqn:Ha; try discriminate.
    intros H. inversion H; subst. split; [exists xs; exact Ha | left; auto].
  - destruct ini as [legacy|]; [|discriminate].
    destruct (assoc "account-FIXME" legacy) eqn:Hf; [discriminate|].
    cbv zeta. intros H. inversion H; subst. split.
    + eexists. reflexivity.
    + right. split; [reflexivity|]. split; [reflexivity|]. exists legacy. auto.
Qed.

Lemma loaded_config_has_accounts_witness :
  getAccounts (migrateIniToJson Sim.env legacy_ini) = [("a", ("key", "cred"))]
  /\ exists xs, prop "accounts" (migrateIniToJson Sim.env legacy_ini) = JArr xs.
Proof.
  split; [reflexivity|].
  apply (loaded_config_has_accounts Sim.env append "conf" None (Some legacy_ini)
           (migrateIniToJson Sim.env legacy_ini) (Some (migrateIniToJson Sim.env legacy_ini))
           eq_refl).
Defined.

(** *** The init mode *)

#[export] Instance init_copy_of_reads (fetched : Json) : AllowsReads (init_copy_of fetched).
Proof.
  constructor; intros; try exact I. destruct r; try discriminate; reflexivity.
Qed.

#[export] Instance init_tag_write_reads (u rn : string) : AllowsReads (init_tag_write u rn).
Proof.
  constructor; intros; try exact I. destruct r; try discriminate; reflexivity.
Qed.

(** The turn, after the fetch. *)
Lemma init_pushed_copies {E : Env} (fuel : nat) (opts : SyncOptions) (users : list string)
      (email : string) (done : list string) (p : ContactInfo) (t : string) (fetched : Json) :
  respects (grows (init_copy_of fetched))
    (bind (for_each users
             (fun other =>
                if other =? email then ret tt
                else
                  bind (account E other)
                       (fun otheracc =>
                          bind (lift E (nameToRn (toLowerCase E) (info otheracc) (name p)))
                               (fun otherRn =>
                                  match otherRn with
                                  | Some orn =>
                                      if orn =? ""
                                      then bind (Contacts_add E fuel other fetched)
                                                (fun _ => ret tt)
                                      else bind (updateTag E fuel other orn t)
                                                (fun _ => Contacts_update E fuel other t fetched)
                                  | None => bind (Contacts_add E fuel other fetched)
                                                 (fun _ => ret tt)
                                  end))))
          (fun _ =>
             bind (match rlimSeconds opts with
                   | Some r => if (0 <? r)%Z then sleep E (r * 1000) else ret tt
                   | None => ret tt
                   end)
                  (fun _ => ret (set_add done (name p))))).
Proof.
  set (okev := init_copy_of fetched).
  assert (Hadd : forall other, respects (grows okev) (Contacts_add E fuel other fetched)).
  { intros other. apply (respects_Contacts_add_fine fuel (grows okev) okev). reflexivity. }
  frame_step.
  { frame_step. destruct (_ =? _); [frame|].
    frame_step; [frame|]. frame_step; [frame|].
    lazymatch goal with
    | |- respects _ (match ?x with _ => _ end) => destruct x as [orn|]
    end.
    - destruct (orn =? "").
      + frame_step; [apply Hadd | frame].
      + frame_step.
        { apply (respects_updateTag_fine fuel (grows okev) okev).
          intros rb. left. reflexivity. }
        apply (respects_Contacts_update_fine fuel (grows okev) okev).
        intros rn et. right. split; [reflexivity|]. exists et. reflexivity.
    - frame_step; [apply Hadd | frame]. }
  frame_step; [|frame].
  destruct (rlimSeconds opts) as [r|]; [|frame]. destruct (0 <? r)%Z; frame.
Qed.

(** The turn, up to the fetch. *)
Lemma init_tag_writes {E : Env} (fuel : nat) (email : string) (e : string * ContactInfo) :
  respects (grows (init_tag_write email (fst e))) (init_tag E fuel email e).
Proof.
  set (okev := init_tag_write email (fst e)).
  unfold init_tag. cbv zeta. destruct (truthy_str _); [frame|].
  frame_step; [apply (respects_newTag_loop (grows okev) okev)|].
  frame_step.
  { apply (respects_updateTag_fine fuel (grows okev) okev).
    intros rb. split; [reflexivity|]. split; reflexivity. }
  frame_step; [apply (respects_set_cached_tag (grows okev) okev) | frame].
Qed.



(** *** The wait for the tag of a group *)

(** X13.  A group that getContactGroupWaitSyncTag returns has a clientData entry with
    the sync key; until it returns, the call only reads and sleeps. *)
Theorem waited_group_is_tagged :
  forall (E : Env) (fuel n : nat) (u rn : string) (d : Z) (s s' : St E) (cont : Json),
    getContactGroupWaitSyncTag_loop E fuel n u rn d s = (Ok cont, s') ->
    has_sync_key cont = true
    /\ grows not_remote_write s s'.
Proof.
  intros E fuel n u rn d s s' cont H. split.
  - revert d s H. induction n as [|n IH]; intros d s H; [discriminate|].
    cbn [getContactGroupWaitSyncTag_loop] in H. unfold bind at 1 in H.
    destruct (getContactGroup E fuel u rn s) as [[c|e|x|] s1]; try discriminate.
    fold (has_sync_key c) in H. destruct (has_sync_key c) eqn:Hc.
    + inversion H; subst. exact Hc.
    + unfold bind at 1 in H. unfold sleep, emit in H. exact (IH _ _ H).
  - pose proof (respects_getContactGroupWaitSyncTag_loop fuel (grows not_remote_write)
                  not_remote_write n u rn d s) as Hr.
    rewrite H in Hr. exact Hr.
Qed.

Lemma waited_group_is_tagged_witness :
  exists s',
    getContactGroupWaitSyncTag Sim.env 5 "a" "contactGroups/ga" gdel_loaded
    = (Ok (Sim.group "contactGroups/ga" "e4" "Fam" (Some "g1") "10"), s')
    /\ has_sync_key (Sim.group "contactGroups/ga" "e4" "Fam" (Some "g1") "10") = true.
Proof.
  eexists. split; [reflexivity|].
  apply (waited_group_is_tagged Sim.env 5 5 "a" "contactGroups/ga" 500 gdel_loaded
           (snd (getContactGroupWaitSyncTag Sim.env 5 "a" "contactGroups/ga" gdel_loaded))).
  reflexivity.
Defined.

(** *** The snapshot *)

Lemma Forall_obj_set {A : Type} (P : string * A -> Prop) (k : string) (v : A)
      (kvs : list (string * A)) :
  P (k, v) -> Forall P kvs -> Forall P (obj_set k v kvs).
Proof.
  intros Hv H. apply Forall_forall. intros kv Hin.
  apply In_obj_set in Hin as [->|Hin]; [exact Hv|].
  rewrite Forall_forall in H. exact (H kv Hin).
Qed.

Lemma fold_left_invariant {A B : Type} (P : A -> Prop) (f : A -> B -> A) (l : list B) :
  (forall a b, P a -> P (f a b)) -> forall a, P a -> P (fold_left f l a).
Proof.
  intros Hf. induction l as [|b l IH]; intros a Ha; [exact Ha|].
  cbn [fold_left]. apply IH. apply Hf. exact Ha.
Qed.

(** X25.  Every contact entry of a snapshot is filed under its own, non-empty tag,
    once; its body is an object that carries this tag as its only sync tag and
    keeps no membership but the default one. *)
Theorem snapshot_is_restorable :
  forall (groupRnToTag : list (string * string)) (persons : list Json),
    Forall restorable (snapshot_contacts groupRnToTag persons)
    /\ NoDup (map fst (snapshot_contacts groupRnToTag persons)).
Proof.
  intros groupRnToTag persons. unfold snapshot_contacts.
  apply (fold_left_invariant
           (fun st : list (string * Json) => Forall restorable st /\ NoDup (map fst st)));
    [|split; constructor].
  intros st p Hst.
  destruct (first_tag p) as [| | | |t| |]; try exact Hst.
  destruct (t =? "") eqn:Ht; [exact Hst|]. cbv zeta.
  destruct Hst as [Hall Hnd]. split; [|apply NoDup_keys_obj_set; exact Hnd].
  apply Forall_obj_set; [|exact Hall].
  destruct (stripPersonForUpdate_object p) as [kvs ->].
  destruct (keep_myContacts_object kvs) as (kvs' & -> & Hm).
  unfold restorable. cbn [fst snd].
  change (prop "body" (JObj [("tag", JStr t); ("name", ?n); ("groupTags", ?g); ("body", ?b)]))
    with b.
  cbn [set_prop]. split; [apply String.eqb_neq; exact Ht|]. split; [reflexivity|].
  split; [eexists; reflexivity|]. split; [apply tagls_with_tag|].
  assert (Hms : memberships (JObj (obj_set "clientData"
                                     (with_tag (prop "clientData" (JObj kvs')) t) kvs'))
                = memberships (JObj kvs')).
  { unfold memberships. cbn [prop]. rewrite assoc_obj_set. reflexivity. }
  rewrite Hms, Hm. apply Forall_forall. intros m Hin. apply filter_In in Hin as [_ Hin].
  unfold str_eq in Hin. destruct (membership_rn m); try discriminate.
  apply String.eqb_eq in Hin. subst. reflexivity.
Qed.
